(** * Billiards simulation core (game_cpp/game.cpp): embedding and properties

    The program computes on C++ [float] values.  The embedding is written
    once, over an abstract arithmetic interface [FloatArith], and read at two
    instances:

    - [RealArith], the real numbers: the idealised semantics in which the
      general properties are proved (rounding, overflow and the IEEE special
      values are abstracted away; a quotient is only meaningful where its
      divisor is non-zero, and the statements say so where they rely on it);
    - [Binary32], IEEE-754 single precision with round-to-nearest-even, built
      on the executable specification of the Standard Library: the program
      can be run on concrete inputs bit for bit.  The source calls [sqrt]
      unqualified, with [<cmath>] and no using-directive: with g++ and
      glibc the call resolves to the double-precision [::sqrt(double)], and
      this is the reading taken.  So a root is computed in double precision
      and converted to [float] where it is stored or returned (lines 35 and
      313), and the quotient of line 223, whose divisor is the root itself,
      is computed in double precision and converted once.

    Outside the magnitudes a game produces the two readings part: squares
    overflow or underflow in [normalizedVector] and [distance], from speeds
    of about 2^16 per frame on the friction decrement is absorbed by
    rounding, and the charge progress accumulates rounding errors.  The
    statements over all inputs are about the real reading, unless they are
    stated for any arithmetic or for [binary32]; where the program's own
    arithmetic contradicts a real-number statement, a single-precision run
    shows it, beside the statement or in the last section.

    [BillBall] objects live in a store indexed by pointers; the table's slot
    array holds optional pointers, so the aliasing between
    [table.billBalls[0]] and [table.ballToHit] is the one of the program.
    The calls made to the Scene collaborator and to [PhysicEvents::collide]
    are recorded, in program order, in a log. *)

From Stdlib Require Import Reals Lra Lia ZArith.
From Stdlib Require Import Floats.SpecFloat.
From stdpp Require Import base list option.

(** ** Arithmetic interface *)

Class FloatArith (F : Type) := {
  fadd : F -> F -> F;
  fsub : F -> F -> F;
  fmul : F -> F -> F;
  fdiv : F -> F -> F;
  fneg : F -> F;
  (* float r = sqrt(x): the double-precision root, converted *)
  fsqrt : F -> F;
  (* float r = a / sqrt(x): root and quotient in double precision, converted
     once *)
  fdivsqrt : F -> F -> F;
  flt : F -> F -> bool;
  fle : F -> F -> bool;
  feq : F -> F -> bool;
  (* the literal n/d, converted to the format *)
  flit : Z -> Z -> F
}.

Declare Scope prog_scope.
Declare Scope fl_scope.
Delimit Scope fl_scope with fl.
Notation "a + b" := (fadd a b) : fl_scope.
Notation "a - b" := (fsub a b) : fl_scope.
Notation "a * b" := (fmul a b) : fl_scope.
Notation "a / b" := (fdiv a b) : fl_scope.
Notation "- a" := (fneg a) : fl_scope.
Notation "a <? b" := (flt a b) (at level 70) : fl_scope.
Notation "a >? b" := (flt b a) (at level 70) : fl_scope.
Notation "a <=? b" := (fle a b) (at level 70) : fl_scope.
Notation "a !=? b" := (negb (feq a b)) (at level 70) : fl_scope.

(** A [Scene::Mesh*] is an opaque handle; a [BillBall*] is an index into the
    store of ball objects. *)
Abbreviation Mesh := nat (only parsing).
Abbreviation ptr := nat (only parsing).

Section Program.
Context {F : Type} {FA : FloatArith F}.
Local Open Scope fl_scope.

(** *** Basic Vector2 class (lines 15-39) *)

Record Vector2 := mkVector2 { vx : F; vy : F }.

Definition normalizedVector (v : Vector2) : Vector2 :=
  let vectorLength := fsqrt (vx v * vx v + vy v * vy v) in
  mkVector2 (vx v / vectorLength) (vy v / vectorLength).

(** *** Game parameters (lines 45-98) *)

Definition width : F := flit 15 1.
Definition height : F := flit 8 1.
Definition pocketRadius : F := flit 4 10.

Definition pocketsPositions : list Vector2 :=
  [ mkVector2 (- flit 5 10 * width) (- flit 5 10 * height);
    mkVector2 (flit 0 1) (- flit 5 10 * height);
    mkVector2 (flit 5 10 * width) (- flit 5 10 * height);
    mkVector2 (- flit 5 10 * width) (flit 5 10 * height);
    mkVector2 (flit 0 1) (flit 5 10 * height);
    mkVector2 (flit 5 10 * width) (flit 5 10 * height) ].

Definition ballsPositions : list Vector2 :=
  [ mkVector2 (- flit 3 10 * width) (flit 0 1);
    mkVector2 (flit 2 10 * width) (flit 0 1);
    mkVector2 (flit 25 100 * width) (flit 5 100 * height);
    mkVector2 (flit 25 100 * width) (- flit 5 100 * height);
    mkVector2 (flit 3 10 * width) (flit 1 10 * height);
    mkVector2 (flit 3 10 * width) (flit 0 1);
    mkVector2 (flit 3 10 * width) (- flit 1 10 * height) ].

Definition frictionDeceleration : F := flit 3 1000.
Definition strikePower : F := flit 1 1.
Definition radius : F := flit 3 10.
Definition chargeTime : F := flit 1 1.

(** *** class BillBall (lines 101-160) *)

Record BillBall := mkBillBall {
  position : Vector2;
  speed : Vector2;
  gameMesh : Mesh
}.

Definition getPosition (b : BillBall) : Vector2 := position b.
Definition getSpeed (b : BillBall) : Vector2 := speed b.
Definition getMesh (b : BillBall) : Mesh := gameMesh b.

Definition getNextPosition (b : BillBall) (dt : F) : Vector2 :=
  mkVector2 (vx (position b) + vx (speed b)) (vy (position b) + vy (speed b)).

Definition setPosition (newPosition : Vector2) (b : BillBall) : BillBall :=
  mkBillBall (mkVector2 (vx newPosition) (vy newPosition)) (speed b) (gameMesh b).

Definition setSpeed (newSpeed : Vector2) (b : BillBall) : BillBall :=
  mkBillBall (position b) (mkVector2 (vx newSpeed) (vy newSpeed)) (gameMesh b).

(** The constructor: the speed member has the default initialiser (0, 0). *)
Definition newBillBall (ballPosition : Vector2) (mesh : Mesh) : BillBall :=
  mkBillBall (mkVector2 (vx ballPosition) (vy ballPosition))
             (mkVector2 (flit 0 1) (flit 0 1)) mesh.

Definition strike (direction : Vector2) (power : F) (b : BillBall) : BillBall :=
  let direction := normalizedVector direction in
  mkBillBall (position b)
             (mkVector2 (vx (speed b) + vx direction * power)
                        (vy (speed b) + vy direction * power))
             (gameMesh b).

(** *** PhysicEvents (lines 219-283) *)

Definition vectorProjecction (a b : Vector2) : Vector2 :=
  let pr := fdivsqrt (vx a * vx b + vy a * vy b) (vx b * vx b + vy b * vy b) in
  let t := normalizedVector b in
  mkVector2 (vx t * pr) (vy t * pr).

(** [ricochet] as the effect of the call on the object [*curBall].  The
    locals [x] and [y] are read once, before the four tests. *)
Definition ricochet (curBall : BillBall) : BillBall :=
  let x := vx (getPosition curBall) in
  let y := vy (getPosition curBall) in
  let curBall :=
    if x + radius >? flit 5 10 * width then
      let difference := x + radius - flit 5 10 * width in
      let curBall := setPosition (mkVector2 (x - difference * flit 2 1) y) curBall in
      setSpeed (mkVector2 (- vx (getSpeed curBall)) (vy (getSpeed curBall))) curBall
    else curBall in
  let curBall :=
    if vx (getPosition curBall) - radius <? - flit 5 10 * width then
      let difference := - flit 5 10 * width - x + radius in
      let curBall := setPosition (mkVector2 (x + difference * flit 2 1) y) curBall in
      setSpeed (mkVector2 (- vx (getSpeed curBall)) (vy (getSpeed curBall))) curBall
    else curBall in
  let curBall :=
    if vy (getPosition curBall) + radius >? flit 5 10 * height then
      let difference := y + radius - flit 5 10 * height in
      let curBall := setPosition (mkVector2 x (y - difference * flit 2 1)) curBall in
      setSpeed (mkVector2 (vx (getSpeed curBall)) (- vy (getSpeed curBall))) curBall
    else curBall in
  if vy (getPosition curBall) - radius <? - flit 5 10 * height then
    let difference := - flit 5 10 * height - y + radius in
    let curBall := setPosition (mkVector2 x (y + difference * flit 2 1)) curBall in
    setSpeed (mkVector2 (vx (getSpeed curBall)) (- vy (getSpeed curBall))) curBall
  else curBall.

(** The two new speeds computed by [collide] (lines 269-278). *)
Definition collideSpeeds (ball1 ball2 : BillBall) : Vector2 * Vector2 :=
  let x1 := vx (getPosition ball1) in
  let x2 := vx (getPosition ball2) in
  let y1 := vy (getPosition ball1) in
  let y2 := vy (getPosition ball2) in
  let guideVector := mkVector2 (x2 - x1) (y2 - y1) in
  let g1 := vectorProjecction (getSpeed ball1) guideVector in
  let g2 := vectorProjecction (getSpeed ball2) guideVector in
  let newSpeed1 := mkVector2 (vx (getSpeed ball1) - vx g1 + vx g2)
                             (vy (getSpeed ball1) - vy g1 + vy g2) in
  let newSpeed2 := mkVector2 (vx (getSpeed ball2) + vx g1 - vx g2)
                             (vy (getSpeed ball2) + vy g1 - vy g2) in
  (newSpeed1, newSpeed2).

(** *** Table and Game state (lines 167-181, 290-295) *)

Record Table := mkTable {
  billBalls : list (option ptr);
  ballToHit : ptr
}.

(** Calls recorded in the log. *)
Inductive Call :=
  | Scene_updateProgressBar (progress : F)
  | Scene_destroyMesh (mesh : Mesh)
  | Scene_placeMesh (mesh : Mesh) (x y z : F)
  | PhysicEvents_collide (ball1 ball2 : ptr).

Record Game := mkGame {
  heap : list BillBall;
  table : Table;
  isChargingShot : bool;
  shotChargeProgress : F;
  calls : list Call
}.

(** State and error monad: [None] is a null or dangling dereference. *)
Definition M (A : Type) : Type := Game -> option (A * Game).

Definition ret {A} (a : A) : M A := fun g => Some (a, g).
Definition bind {A B} (m : M A) (k : A -> M B) : M B := fun g =>
  match m g with
  | Some (a, g') => k a g'
  | None => None
  end.

Notation "x ← y ; z" := (bind y (fun x => z)) (only parsing) : prog_scope.
Notation "y ;; z" := (bind y (fun _ => z)) (only parsing) : prog_scope.
Local Open Scope prog_scope.

Definition crash {A} : M A := fun _ => None.

Definition deref (p : ptr) : M BillBall := fun g =>
  match heap g !! p with
  | Some b => Some (b, g)
  | None => None
  end.

Definition onBall (p : ptr) (f : BillBall -> BillBall) : M unit := fun g =>
  match heap g !! p with
  | Some b =>
      Some (tt, mkGame (<[p := f b]> (heap g)) (table g) (isChargingShot g)
                       (shotChargeProgress g) (calls g))
  | None => None
  end.

Definition getSlot (i : nat) : M (option ptr) := fun g =>
  match billBalls (table g) !! i with
  | Some s => Some (s, g)
  | None => None
  end.

Definition clearSlot (i : nat) : M unit := fun g =>
  Some (tt, mkGame (heap g)
                   (mkTable (<[i := None]> (billBalls (table g))) (ballToHit (table g)))
                   (isChargingShot g) (shotChargeProgress g) (calls g)).

(** [table.billBalls.size()]. *)
Definition slotCount : M nat := fun g => Some (length (billBalls (table g)), g).

Definition call (c : Call) : M unit := fun g =>
  Some (tt, mkGame (heap g) (table g) (isChargingShot g) (shotChargeProgress g)
                   (calls g ++ [c])).

(** The call [this->getNextPosition(dt)]. *)
Definition callGetNextPosition (this : ptr) (dt : F) : M Vector2 :=
  b ← deref this;
  ret (getNextPosition b dt).

Definition collide (ball1 ball2 : ptr) : M unit :=
  b1 ← deref ball1;
  b2 ← deref ball2;
  let '(newSpeed1, newSpeed2) := collideSpeeds b1 b2 in
  onBall ball1 (setSpeed newSpeed1);;
  onBall ball2 (setSpeed newSpeed2).

Definition distance (v1 v2 : Vector2) : F :=
  fsqrt ((vx v1 - vx v2) * (vx v1 - vx v2) + (vy v1 - vy v2) * (vy v1 - vy v2)).

Definition score (ballIndex : nat) : M unit :=
  s ← getSlot ballIndex;
  match s with
  | None => crash
  | Some p =>
      b ← deref p;
      call (Scene_destroyMesh (getMesh b));;
      clearSlot ballIndex
  end.

(** The loop over the six pockets (lines 336-344); the result is [scored]. *)
Fixpoint pocketLoop (i : nat) (positionToMove : Vector2) (pocketVectors : list Vector2)
    (scored : bool) : M bool :=
  match pocketVectors with
  | [] => ret scored
  | pocketVector :: rest =>
      if distance positionToMove pocketVector <? pocketRadius
      then score i;; pocketLoop i positionToMove rest true
      else pocketLoop i positionToMove rest scored
  end.

(** Friction (lines 348-361), as the effect on the object [*curBall]. *)
Definition friction (curBall : BillBall) : BillBall :=
  let vx_ := vx (getSpeed curBall) in
  let vy_ := vy (getSpeed curBall) in
  if (vx_ !=? flit 0 1) || (vy_ !=? flit 0 1) then
    if vx_ * vx_ + vy_ * vy_ <=? frictionDeceleration * frictionDeceleration * flit 11 10
    then setSpeed (mkVector2 (flit 0 1) (flit 0 1)) curBall
    else
      let deceleration := normalizedVector (getSpeed curBall) in
      let deceleration :=
        mkVector2 (- vx deceleration * frictionDeceleration)
                  (- vy deceleration * frictionDeceleration) in
      setSpeed (mkVector2 (vx_ + vx deceleration) (vy_ + vy deceleration)) curBall
  else curBall.

(** The test of lines 363-366. *)
Definition outOfTable (positionToMove : Vector2) : bool :=
  (vx positionToMove + radius >? flit 5 10 * width) ||
  (vx positionToMove - radius <? - flit 5 10 * width) ||
  (vy positionToMove + radius >? flit 5 10 * height) ||
  (vy positionToMove - radius <? - flit 5 10 * height).

(** The loop over the partners [l] (lines 373-381). *)
Fixpoint collisionLoop (i : nat) (curBall : ptr) (ls : list nat)
    (positionToMove : Vector2) : M Vector2 :=
  match ls with
  | [] => ret positionToMove
  | l :: rest =>
      s ← getSlot l;
      match s with
      | Some other =>
          if negb (Nat.eqb l i) then
            bl ← deref other;
            if distance positionToMove (getPosition bl) <=? flit 2 1 * radius then
              b ← deref curBall;
              call (PhysicEvents_collide curBall other);;
              collide curBall other;;
              collisionLoop i curBall rest (getPosition b)
            else collisionLoop i curBall rest positionToMove
          else collisionLoop i curBall rest positionToMove
      | None => collisionLoop i curBall rest positionToMove
      end
  end.

(** The body of the loop over the slots (lines 330-387). *)
Definition updateBall (dt : F) (i : nat) : M unit :=
  s ← getSlot i;
  match s with
  | None => ret tt
  | Some curBall =>
      positionToMove ← callGetNextPosition curBall dt;
      scored ← pocketLoop i positionToMove pocketsPositions false;
      if scored then ret tt
      else
        onBall curBall friction;;
        positionToMove ←
          (if outOfTable positionToMove then
             onBall curBall (setPosition positionToMove);;
             onBall curBall ricochet;;
             b ← deref curBall;
             ret (getPosition b)
           else ret positionToMove);
        n ← slotCount;
        positionToMove ← collisionLoop i curBall (seq (S i) (n - S i)) positionToMove;
        onBall curBall (setPosition positionToMove);;
        s' ← getSlot i;
        match s' with
        | None => crash
        | Some p =>
            bp ← deref p;
            b ← deref curBall;
            call (Scene_placeMesh (getMesh bp) (vx (getPosition b))
                                  (vy (getPosition b)) (flit 0 1))
        end
  end.

Fixpoint forEach (idx : list nat) (body : nat -> M unit) : M unit :=
  match idx with
  | [] => ret tt
  | i :: rest => body i;; forEach rest body
  end.

(** [std::min(a, b)] is [(b < a) ? b : a]. *)
Definition fmin (a b : F) : F := if b <? a then b else a.

(** Lines 324-326. *)
Definition chargeStep (dt : F) : M unit := fun g =>
  let progress :=
    if isChargingShot g
    then fmin (shotChargeProgress g + dt / chargeTime) (flit 1 1)
    else shotChargeProgress g in
  Some (tt, mkGame (heap g) (table g) (isChargingShot g) progress
                   (calls g ++ [Scene_updateProgressBar progress])).

Definition update (dt : F) : M unit :=
  chargeStep dt;;
  n ← slotCount;
  forEach (seq 0 n) (updateBall dt).

Definition mouseButtonPressed (x y : F) : M unit := fun g =>
  Some (tt, mkGame (heap g) (table g) true (shotChargeProgress g) (calls g)).

Definition mouseButtonReleased (x y : F) : M unit := fun g =>
  match heap g !! ballToHit (table g) with
  | None => None
  | Some cue =>
      let direction := mkVector2 (x - vx (getPosition cue)) (y - vy (getPosition cue)) in
      let cue' := strike direction (shotChargeProgress g * strikePower) cue in
      Some (tt, mkGame (<[ballToHit (table g) := cue']> (heap g)) (table g)
                       false (flit 0 1) (calls g))
  end.

(** The calls the host can make after [init]. *)
Inductive Event :=
  | EvUpdate (dt : F)
  | EvMouseButtonPressed (x y : F)
  | EvMouseButtonReleased (x y : F).

Definition handle (e : Event) : M unit :=
  match e with
  | EvUpdate dt => update dt
  | EvMouseButtonPressed x y => mouseButtonPressed x y
  | EvMouseButtonReleased x y => mouseButtonReleased x y
  end.

Fixpoint runEvents (evs : list Event) : M unit :=
  match evs with
  | [] => ret tt
  | e :: rest => handle e;; runEvents rest
  end.

(** The part of [update] that runs before the turn of slot [i]. *)
Definition beforeTurn (dt : F) (i : nat) : M unit :=
  chargeStep dt;;
  forEach (seq 0 i) (updateBall dt).

(** The calls logged between two states of one run. *)
Definition newCalls (g g' : Game) : list Call :=
  drop (length (calls g)) (calls g').

(** The state [Table::init] builds: one object per slot, at the layout
    positions, at rest; [ballMesh i] is the handle the Scene returned for
    the i-th ball. *)
Definition initialGame (ballMesh : nat -> Mesh) : Game :=
  mkGame (imap (fun i p => newBillBall (mkVector2 (vx p) (vy p)) (ballMesh i)) ballsPositions)
         (mkTable (map Some (seq 0 (length ballsPositions))) 0)
         false (flit 0 1) [].

End Program.

Arguments Vector2 F : clear implicits.
Arguments BillBall F : clear implicits.
Arguments Call F : clear implicits.
Arguments Event F : clear implicits.
Arguments Table : clear implicits.
Arguments Game F : clear implicits.
Arguments M F A : clear implicits.

(** ** The two arithmetics *)

#[global] Instance Rlt_decision (a b : R) : Decision (a < b)%R := Rlt_dec a b.
#[global] Instance Rle_decision (a b : R) : Decision (a <= b)%R := Rle_dec a b.
#[global] Instance Req_decision (a b : R) : Decision (a = b) := Req_dec_T a b.

#[global] Instance RealArith : FloatArith R := {
  fadd := Rplus;
  fsub := Rminus;
  fmul := Rmult;
  fdiv := Rdiv;
  fneg := Ropp;
  fsqrt := sqrt;
  fdivsqrt := fun a x => Rdiv a (sqrt x);
  flt := fun a b => bool_decide (a < b)%R;
  fle := fun a b => bool_decide (a <= b)%R;
  feq := fun a b => bool_decide (a = b);
  flit := fun n d => (IZR n / IZR d)%R
}.

Definition binary32 := spec_float.
Definition b32_of_Z (z : Z) : binary32 := binary_normalize 24 128 z 0 false.

(** The conversion of a double-precision result to [float].  A [float] is
    a double as it stands. *)
Definition b32_of_double (x : spec_float) : binary32 :=
  match x with
  | S754_finite s m e => binary_round 24 128 s m e
  | _ => x
  end.

#[global] Instance Binary32 : FloatArith binary32 := {
  fadd := SFadd 24 128;
  fsub := SFsub 24 128;
  fmul := SFmul 24 128;
  fdiv := SFdiv 24 128;
  fneg := SFopp;
  fsqrt := fun x => b32_of_double (SFsqrt 53 1024 x);
  fdivsqrt := fun a x => b32_of_double (SFdiv 53 1024 a (SFsqrt 53 1024 x));
  flt := SFltb;
  fle := SFleb;
  feq := SFeqb;
  flit := fun n d => SFdiv 24 128 (b32_of_Z n) (b32_of_Z d)
}.


(** * Vocabulary of the statements

    What the properties below are stated with: the states the program
    passes through within a frame, the relations between the state before
    and after a turn, and the concrete scenes the program is run on. *)

Section Vocabulary.
Context {F : Type} {FA : FloatArith F}.

(** Every slot that is not null points to an object of the store. *)
Definition slotsValid (g : Game F) : Prop :=
  forall l q, billBalls (table g) !! l = Some (Some q) -> is_Some (heap g !! q).

(** The effect of [collide] on the store. *)
Definition collideHeap (p q : ptr) (h : list (BillBall F)) : list (BillBall F) :=
  match h !! p, h !! q with
  | Some b1, Some b2 =>
      let h1 := <[p := setSpeed (fst (collideSpeeds b1 b2)) b1]> h in
      match h1 !! q with
      | Some b2' => <[q := setSpeed (snd (collideSpeeds b1 b2)) b2']> h1
      | None => h1
      end
  | _, _ => h
  end.

(** [c] is a call of [collide] on the ball object [p] and the ball of one of
    the slots [ls]. *)
Definition isCollideFrom (i p : nat) (ls : list nat) (g : Game F) (c : Call F) : Prop :=
  exists l q, c = PhysicEvents_collide p q /\ l ∈ ls /\ l <> i /\
              billBalls (table g) !! l = Some (Some q).

(** What the collision loop of the ball object [p] of slot [i] over the
    partner slots [ls] does to the state [g] and the position [pos] it
    carries: it logs collisions with those partners only, changes speeds
    only, and only of balls it reports a collision for. *)
Record loopPost (i p : nat) (ls : list nat) (pos : Vector2 F) (g : Game F)
    (pos' : Vector2 F) (g' : Game F) : Prop := {
  lp_table : table g' = table g;
  lp_charging : isChargingShot g' = isChargingShot g;
  lp_progress : shotChargeProgress g' = shotChargeProgress g;
  lp_length : length (heap g') = length (heap g);
  lp_calls : calls g' = calls g ++ newCalls g g';
  lp_new : Forall (isCollideFrom i p ls g) (newCalls g g');
  lp_quiet : newCalls g g' = [] -> heap g' = heap g /\ pos' = pos;
  lp_other : forall q, q <> p -> PhysicEvents_collide p q ∉ newCalls g g' ->
                       heap g' !! q = heap g !! q;
  lp_keeps : forall q b, heap g !! q = Some b ->
      exists b', heap g' !! q = Some b' /\ position b' = position b /\
                 gameMesh b' = gameMesh b;
  lp_result : pos' = pos \/ exists b, heap g !! p = Some b /\ pos' = position b
}.

(** The test of line 339. *)
Definition atPocket (pos pocketVector : Vector2 F) : bool :=
  flt (distance pos pocketVector) pocketRadius.

(** At most one entry of the list is in range of [pos]. *)
Definition exclusive (pos : Vector2 F) (ps : list (Vector2 F)) : Prop :=
  forall j1 j2 Q1 Q2, ps !! j1 = Some Q1 -> ps !! j2 = Some Q2 ->
    atPocket pos Q1 = true -> atPocket pos Q2 = true -> j1 = j2.

(** The state after [score] for the ball [b] of slot [i]. *)
Definition captured (i : nat) (b : BillBall F) (g : Game F) : Game F :=
  mkGame (heap g)
         (mkTable (<[i := None]> (billBalls (table g))) (ballToHit (table g)))
         (isChargingShot g) (shotChargeProgress g)
         (calls g ++ [Scene_destroyMesh (getMesh b)]).

(** Well-formed states: the slots that are not null hold valid, pairwise
    distinct pointers, [ballToHit] is valid, and distinct ball objects have
    distinct meshes.  [Table::init] builds such a state (the Scene hands out
    a fresh handle for every mesh it creates), and every call keeps it. *)
Record wf (g : Game F) : Prop := {
  wf_valid : slotsValid g;
  wf_inj : forall i j p, billBalls (table g) !! i = Some (Some p) ->
                         billBalls (table g) !! j = Some (Some p) -> i = j;
  wf_cue : is_Some (heap g !! ballToHit (table g));
  wf_mesh : forall p q bp bq, heap g !! p = Some bp -> heap g !! q = Some bq ->
                              gameMesh bp = gameMesh bq -> p = q
}.

(** [c] is a call made on behalf of the ball of slot [k]. *)
Definition callOf (g : Game F) (k : nat) (c : Call F) : Prop :=
  exists p b, billBalls (table g) !! k = Some (Some p) /\ heap g !! p = Some b /\
    (c = Scene_destroyMesh (gameMesh b) \/
     (exists x y z, c = Scene_placeMesh (gameMesh b) x y z) \/
     (exists l q, c = PhysicEvents_collide p q /\ k < l /\
                  billBalls (table g) !! l = Some (Some q))).

(** None of the slots [idx] holds the ball object [q]. *)
Definition notInSlots (idx : list nat) (g : Game F) (q : nat) : Prop :=
  forall k, k ∈ idx -> billBalls (table g) !! k <> Some (Some q).

(** What the turns of the slots [idx] do to a state: slots are only ever
    nulled, and only those of [idx]; objects keep their mesh, and keep
    their position unless they have their turn; an object that has no turn
    and is in no reported collision is left as it is; the calls logged are
    calls on behalf of the balls of [idx]. *)
Record turnsPost (idx : list nat) (g g' : Game F) : Prop := {
  tp_cue : ballToHit (table g') = ballToHit (table g);
  tp_charging : isChargingShot g' = isChargingShot g;
  tp_progress : shotChargeProgress g' = shotChargeProgress g;
  tp_length : length (heap g') = length (heap g);
  tp_slots_length : length (billBalls (table g')) = length (billBalls (table g));
  tp_slots_other : forall k, k ∉ idx ->
      billBalls (table g') !! k = billBalls (table g) !! k;
  tp_slots : forall k, billBalls (table g') !! k = billBalls (table g) !! k \/
                       billBalls (table g') !! k = Some None;
  tp_keeps : forall q b, heap g !! q = Some b ->
      exists b', heap g' !! q = Some b' /\ gameMesh b' = gameMesh b /\
                 (notInSlots idx g q -> position b' = position b);
  tp_calls : calls g' = calls g ++ newCalls g g';
  tp_new : Forall (fun c => exists k, k ∈ idx /\ callOf g k c) (newCalls g g');
  tp_other : forall q, notInSlots idx g q ->
      (forall p, PhysicEvents_collide p q ∉ newCalls g g') ->
      heap g' !! q = heap g !! q
}.

(** The object of the current ball after friction and the boundary step
    (lines 348-371). *)
Definition afterBoundary (positionToMove : Vector2 F) (b : BillBall F) : BillBall F :=
  if outOfTable positionToMove then ricochet (setPosition positionToMove (friction b))
  else friction b.

(** The value of [positionToMove] after line 371. *)
Definition toMove (positionToMove : Vector2 F) (b : BillBall F) : Vector2 F :=
  if outOfTable positionToMove then getPosition (afterBoundary positionToMove b)
  else positionToMove.

(** The state [g] with another store. *)
Definition withHeap (h : list (BillBall F)) (g : Game F) : Game F :=
  mkGame h (table g) (isChargingShot g) (shotChargeProgress g) (calls g).

(** The state at the end of the turn of a ball that was not captured. *)
Definition committed (p : nat) (pos : Vector2 F) (bc : BillBall F) (gc : Game F) : Game F :=
  mkGame (<[p := setPosition pos bc]> (heap gc)) (table gc) (isChargingShot gc)
         (shotChargeProgress gc)
         (calls gc ++ [Scene_placeMesh (gameMesh bc) (vx pos) (vy pos) (flit 0 1)]).

(** The state after lines 324-326. *)
Definition charged (dt : F) (g : Game F) : Game F :=
  let progress :=
    if isChargingShot g
    then fmin (fadd (shotChargeProgress g) (fdiv dt chargeTime)) (flit 1 1)
    else shotChargeProgress g in
  mkGame (heap g) (table g) (isChargingShot g) progress
         (calls g ++ [Scene_updateProgressBar progress]).




(** The call [c] is a collision the ball object [p] takes part in. *)
Definition inCollision (p : nat) (c : Call F) : Prop :=
  match c with
  | PhysicEvents_collide a b => a = p \/ b = p
  | _ => False
  end.


(** The state after [mouseButtonReleased]. *)
Definition released (x y : F) (cue : BillBall F) (g : Game F) : Game F :=
  let direction :=
    mkVector2 (fsub x (vx (getPosition cue))) (fsub y (vy (getPosition cue))) in
  mkGame (<[ballToHit (table g) :=
              strike direction (fmul (shotChargeProgress g) strikePower) cue]> (heap g))
         (table g) false (flit 0 1) (calls g).


(** The pointers held by the slots that are not null. *)
Definition livePointers (slots : list (option nat)) : list nat :=
  omap (fun s => s) slots.

(** A boolean test for well-formedness (it looks at pointers and mesh
    handles only, never at a coordinate). *)
Definition wfb (g : Game F) : bool :=
  forallb (fun s => match s with Some p => Nat.ltb p (length (heap g)) | None => true end)
          (billBalls (table g))
  && bool_decide (NoDup (livePointers (billBalls (table g))))
  && Nat.ltb (ballToHit (table g)) (length (heap g))
  && bool_decide (NoDup (gameMesh <$> heap g)).

(** The initial layout with another cue ball object (same mesh handle). *)
Definition layoutWith (cue : BillBall F) : Game F :=
  mkGame (<[0%nat := cue]> (heap (initialGame (fun i => i))))
         (table (initialGame (fun i => i))) false (flit 0 1) [].

(** The cue ball near the upper right corner, rolling towards it. *)
Definition cornerCue : BillBall F :=
  mkBillBall (mkVector2 (flit 70 10) (flit 35 10))
             (mkVector2 (flit 21 100) (flit 21 100)) 0.

Definition cornerGame : Game F := layoutWith cornerCue.

(** The cue ball in the middle of the table with a speed of more than twice
    the width of the table. *)
Definition deepCue : BillBall F :=
  mkBillBall (mkVector2 (flit 0 1) (flit 0 1)) (mkVector2 (flit 40 1) (flit 0 1)) 0.

Definition deepGame : Game F := layoutWith deepCue.

(** An end game: only the cue ball, rolling towards the ball of slot 1, and
    that ball, at rest at its layout position, are left on the table. *)
Definition endCue : BillBall F :=
  mkBillBall (mkVector2 (flit 2 1) (flit 0 1)) (mkVector2 (flit 5 10) (flit 0 1)) 0.

Definition endGame : Game F :=
  mkGame (<[0%nat := endCue]> (heap (initialGame (fun i => i))))
         (mkTable [Some 0%nat; Some 1%nat; None; None; None; None; None] 0)
         false (flit 0 1) [].

(** All the balls on the table are inside it. *)
Definition allInTable (g : Game F) : bool :=
  forallb (fun s => match s with
                    | Some p => match heap g !! p with
                                | Some b => negb (outOfTable (position b))
                                | None => false
                                end
                    | None => true
                    end) (billBalls (table g)).

End Vocabulary.

(** ** Real vectors, and scenes *)

Local Open Scope R_scope.

(** Dot product, length, sum and difference of real vectors. *)
Definition dot (a b : Vector2 R) : R := vx a * vx b + vy a * vy b.

Definition norm (v : Vector2 R) : R := sqrt (dot v v).

Definition vadd (a b : Vector2 R) : Vector2 R := mkVector2 (vx a + vx b) (vy a + vy b).

Definition vsub (a b : Vector2 R) : Vector2 R := mkVector2 (vx a - vx b) (vy a - vy b).

Definition nonzero (v : Vector2 R) : Prop := vx v <> 0 \/ vy v <> 0.

(** The component of [v] along the axis [d], as a vector: the orthogonal
    projection of [v] on the line of [d]; and the component perpendicular to
    the axis, what is left of [v].  These are the specification's terms,
    written without the program's functions. *)
Definition alongAxis (v d : Vector2 R) : Vector2 R :=
  mkVector2 (dot v d / dot d d * vx d) (dot v d / dot d d * vy d).

Definition acrossAxis (v d : Vector2 R) : Vector2 R := vsub v (alongAxis v d).

(** Two balls 2^-100 apart, the first one moving towards the second. *)
Definition nearCue {F : Type} {FA : FloatArith F} : BillBall F :=
  mkBillBall (mkVector2 (flit 0 1) (flit 0 1)) (mkVector2 (flit 5 10) (flit 0 1)) 0.

Definition nearBall {F : Type} {FA : FloatArith F} : BillBall F :=
  mkBillBall (mkVector2 (flit 1 (2 ^ 100)) (flit 0 1)) (mkVector2 (flit 0 1) (flit 0 1)) 1.

Definition nearGame {F : Type} {FA : FloatArith F} : Game F :=
  mkGame [nearCue; nearBall]
         (mkTable [Some 0%nat; Some 1%nat; None; None; None; None; None] 0)
         false (flit 0 1) [].

(** Two balls on a slanted line, both moving. *)
Definition slantCue {F : Type} {FA : FloatArith F} : BillBall F :=
  mkBillBall (mkVector2 (flit 0 1) (flit 0 1)) (mkVector2 (flit 1 10) (flit 3 100)) 0.

Definition slantBall {F : Type} {FA : FloatArith F} : BillBall F :=
  mkBillBall (mkVector2 (flit 2 10) (flit 5 10)) (mkVector2 (flit 7 100) (flit 0 1)) 1.

Definition slantGame {F : Type} {FA : FloatArith F} : Game F :=
  mkGame [slantCue; slantBall]
         (mkTable [Some 0%nat; Some 1%nat; None; None; None; None; None] 0)
         false (flit 0 1) [].

(** A ball in the upper right corner region, moving outwards. *)
Definition cornerBall {F : Type} {FA : FloatArith F} : BillBall F :=
  mkBillBall (mkVector2 (flit 721 100) (flit 371 100))
             (mkVector2 (flit 21 100) (flit 21 100)) 0.

(** The circular extent of a ball at [pos] lies inside the table: the test of
    lines 363-366 fails. *)
Definition inTable {F : Type} {FA : FloatArith F} (pos : Vector2 F) : Prop :=
  outOfTable pos = false.

(** The extent crosses the left or right edge; the bottom or top edge. *)
Definition offX {F : Type} {FA : FloatArith F} (pos : Vector2 F) : bool :=
  flt (fmul (flit 5 10) width) (fadd (vx pos) radius) ||
  flt (fsub (vx pos) radius) (fmul (fneg (flit 5 10)) width).

Definition offY {F : Type} {FA : FloatArith F} (pos : Vector2 F) : bool :=
  flt (fmul (flit 5 10) height) (fadd (vy pos) radius) ||
  flt (fsub (vy pos) radius) (fmul (fneg (flit 5 10)) height).

(** The penetration depth past any edge is at most the room the ball has
    between the two opposite edges (table extent minus the diameter). *)
Definition shallow (pos : Vector2 R) : Prop :=
  vx pos + radius - 5 / 10 * width <= width - 2 * radius /\
  - (5 / 10) * width - (vx pos - radius) <= width - 2 * radius /\
  vy pos + radius - 5 / 10 * height <= height - 2 * radius /\
  - (5 / 10) * height - (vy pos - radius) <= height - 2 * radius.

(** The speed of the ball is exactly zero. *)
Definition atRest (b : BillBall R) : Prop := vx (speed b) = 0 /\ vy (speed b) = 0.

(** The speed [v'] is the speed [v] scaled down by a factor in [0, 1], up to
    the sign of each component, and is either zero or shorter than [v] by
    [n] times the friction deceleration. *)
Definition decayed (n : nat) (v v' : Vector2 R) : Prop :=
  (exists k, 0 <= k <= 1 /\ Rabs (vx v') = k * Rabs (vx v) /\
             Rabs (vy v') = k * Rabs (vy v)) /\
  ((vx v' = 0 /\ vy v' = 0) \/ norm v' = norm v - INR n * frictionDeceleration).

(** The frame time handed to [update] is not negative. *)
Definition nonnegDt (e : Event R) : Prop :=
  match e with
  | EvUpdate dt => 0 <= dt
  | _ => True
  end.

(** The ball of slot 1 in its layout position, at rest. *)
Definition restBall {F : Type} {FA : FloatArith F} : BillBall F :=
  mkBillBall (mkVector2 (fmul (flit 2 10) width) (flit 0 1))
             (mkVector2 (flit 0 1) (flit 0 1)) 1.


(** The cue ball next to the right edge, rolling towards it. *)
Definition edgeCue {F : Type} {FA : FloatArith F} : BillBall F :=
  mkBillBall (mkVector2 (flit 70 10) (flit 0 1)) (mkVector2 (flit 5 10) (flit 0 1)) 0.

Definition edgeGame {F : Type} {FA : FloatArith F} : Game F := layoutWith edgeCue.



(** The cue ball rolling along y, where no other ball and no pocket is in
    its way. *)
Definition rollCue {F : Type} {FA : FloatArith F} : BillBall F :=
  mkBillBall (mkVector2 (fmul (fneg (flit 3 10)) width) (flit 0 1))
             (mkVector2 (flit 0 1) (flit 5 10)) 0.

Definition rollGame {F : Type} {FA : FloatArith F} : Game F := layoutWith rollCue.

(** A table with one ball, rolling along y from the centre. *)
Definition soloCue {F : Type} {FA : FloatArith F} : BillBall F :=
  mkBillBall (mkVector2 (flit 0 1) (flit 0 1)) (mkVector2 (flit 0 1) (flit 5 10)) 0.

Definition soloGame {F : Type} {FA : FloatArith F} : Game F :=
  mkGame [soloCue] (mkTable [Some 0%nat; None; None; None; None; None; None] 0)
         false (flit 0 1) [].

(** The cue ball with a speed of 100000 per frame along y. *)
Definition fastCue {F : Type} {FA : FloatArith F} : BillBall F :=
  mkBillBall (mkVector2 (fmul (fneg (flit 3 10)) width) (flit 0 1))
             (mkVector2 (flit 0 1) (flit 100000 1)) 0.

Definition fastGame {F : Type} {FA : FloatArith F} : Game F := layoutWith fastCue.



(** [c] is a call of [collide]. *)
Definition isCollide {F : Type} (c : Call F) : bool :=
  match c with PhysicEvents_collide _ _ => true | _ => false end.

(** The initial layout with the shot fully charged. *)
Definition chargedGame {F : Type} {FA : FloatArith F} : Game F :=
  mkGame (heap (initialGame (fun i => i))) (table (initialGame (fun i => i)))
         true (flit 1 1) [].

(** ** Runs and tables at rest *)

(** The frame times of a run of updates, added up. *)
Definition totalTime (dts : list R) : R := fold_right Rplus 0 dts.

(** Every ball on the table is at rest, inside the table, out of range of
    every pocket, and farther than two radii from every other ball on the
    table. *)
Definition tableAtRest (g : Game R) : Prop :=
  forall i p b, billBalls (table g) !! i = Some (Some p) -> heap g !! p = Some b ->
    atRest b /\ inTable (position b) /\
    (forall pocketVector, In pocketVector pocketsPositions ->
       ~ distance (position b) pocketVector < pocketRadius) /\
    (forall l q bq, l <> i -> billBalls (table g) !! l = Some (Some q) ->
       heap g !! q = Some bq ->
       ~ distance (position b) (position bq) <= 2 * radius).

Close Scope R_scope.

(** ** Single-precision values *)

(** A float that is a number: neither an infinity nor a NaN. *)
Definition isFinite (x : binary32) : bool :=
  match x with
  | S754_zero _ | S754_finite _ _ _ => true
  | _ => false
  end.

(** The same float, but for the sign of a zero; this is what adding a zero
    to a float keeps. *)
Definition sameNumber (a b : binary32) : Prop :=
  a = b \/ exists s s', a = S754_zero s /\ b = S754_zero s'.

(** ** Shapes, logs and placements *)

(** What no call of the host ever changes: the size of the store and of the
    slot array, the cue pointer, and the mesh of an object. *)
Definition sameShape {F : Type} (g g' : Game F) : Prop :=
  length (heap g') = length (heap g) /\
  length (billBalls (table g')) = length (billBalls (table g)) /\
  ballToHit (table g') = ballToHit (table g) /\
  forall p b, heap g !! p = Some b ->
    exists b', heap g' !! p = Some b' /\ gameMesh b' = gameMesh b.

(** The [placeMesh] call of the commit step for the ball of slot [i]. *)
Definition placeCall {F : Type} {FA : FloatArith F} (g : Game F) (i : nat)
    : option (Call F) :=
  match billBalls (table g) !! i with
  | Some (Some p) =>
      match heap g !! p with
      | Some b => Some (Scene_placeMesh (gameMesh b) (vx (position b)) (vy (position b))
                                        (flit 0 1))
      | None => None
      end
  | _ => None
  end.

(** The state [g] with another charge progress and another log. *)
Definition withLog {F : Type} (progress : F) (cs : list (Call F)) (g : Game F) : Game F :=
  mkGame (heap g) (table g) (isChargingShot g) progress cs.

(** [c] is [Scene::placeMesh] on the mesh [m]. *)
Definition isPlaceOf {F : Type} (m : nat) (c : Call F) : bool :=
  match c with
  | Scene_placeMesh m' _ _ _ => Nat.eqb m' m
  | _ => false
  end.

(** The [placeMesh] calls for the mesh [m], in order. *)
Definition placesOf {F : Type} (m : nat) (cs : list (Call F)) : list (Call F) :=
  List.filter (isPlaceOf m) cs.

(** ** Start and end of the game (lines 184-213, 298-309)

    [Game::init] and [Game::deinit] work on more than the state of a frame:
    the table's private array of pocket meshes, and the meshes the Scene
    creates.  The Scene is not part of the program: the handle it returns
    for the k-th mesh it is asked to create is the parameter [createMesh].
    The calls made to the Engine and the Scene are recorded in a log of
    their own.  The null [ballToHit] of the program start is the pointer 0
    into the empty store: dereferencing it fails either way. *)
Module Lifecycle.

Declare Scope app_scope.

Section Model.
Context {F : Type} {FA : FloatArith F}.
Variable createMesh : nat -> Mesh.

Inductive HostCall :=
  | Engine_setTargetFPS (fps : Z)
  | Scene_setupBackground (w h : F)
  | Scene_createPocketMesh (radius : F) (result : Mesh)
  | Scene_createBallMesh (radius : F) (result : Mesh)
  | Scene_placeMesh (mesh : Mesh) (x y z : F)
  | Scene_destroyMesh (mesh : option Mesh).

(** [Params::System::targetFPS]. *)
Definition targetFPS : Z := 60.

Record App := mkApp {
  game : Game F;
  pockets : list (option Mesh);
  created : nat;
  trace : list HostCall
}.

(** The program before [Game::init]: the statics are zero-initialised. *)
Definition startApp : App :=
  mkApp (mkGame [] (mkTable (replicate 7 None) 0) false (flit 0 1) [])
        (replicate 6 None) 0 [].

(** State and error monad over [App]: [None] is a failed assertion or an
    invalid access. *)
Definition AppM (X : Type) : Type := App -> option (X * App).

Definition areturn {X} (x : X) : AppM X := fun a => Some (x, a).
Definition abind {X Y} (m : AppM X) (k : X -> AppM Y) : AppM Y := fun a =>
  match m a with
  | Some (x, a') => k x a'
  | None => None
  end.

Notation "x ← y ; z" := (abind y (fun x => z))
  (at level 20, y at level 100, z at level 200, only parsing) : app_scope.
Notation "y ;; z" := (abind y (fun _ => z))
  (at level 100, z at level 200, only parsing, right associativity) : app_scope.
Local Open Scope app_scope.

Definition afail {X} : AppM X := fun _ => None.

(** [assert(c)]. *)
Definition cassert (c : bool) : AppM unit := if c then areturn tt else afail.

(** [!mesh] on a mesh pointer. *)
Definition isNull (mesh : option Mesh) : bool :=
  match mesh with
  | None => true
  | Some _ => false
  end.

Definition logCall (c : HostCall) : AppM unit := fun a =>
  Some (tt, mkApp (game a) (pockets a) (created a) (trace a ++ [c])).

(** A call that creates a mesh: the Scene returns its next handle. *)
Definition createCall (c : Mesh -> HostCall) : AppM Mesh := fun a =>
  let m := createMesh (created a) in
  Some (m, mkApp (game a) (pockets a) (S (created a)) (trace a ++ [c m])).

Definition getPocket (i : nat) : AppM (option Mesh) := fun a =>
  match pockets a !! i with
  | Some s => Some (s, a)
  | None => None
  end.

Definition setPocket (i : nat) (m : Mesh) : AppM unit := fun a =>
  Some (tt, mkApp (game a) (<[i := Some m]> (pockets a)) (created a) (trace a)).

(** [new BillBall(ballPosition, mesh)]: a new object at the end of the
    store. *)
Definition newBall (ballPosition : Vector2 F) (mesh : Mesh) : AppM ptr := fun a =>
  let g := game a in
  Some (length (heap g),
        mkApp (mkGame (heap g ++ [newBillBall ballPosition mesh]) (table g)
                      (isChargingShot g) (shotChargeProgress g) (calls g))
              (pockets a) (created a) (trace a)).

Definition setSlot (i : nat) (p : ptr) : AppM unit := fun a =>
  let g := game a in
  Some (tt, mkApp (mkGame (heap g)
                          (mkTable (<[i := Some p]> (billBalls (table g)))
                                   (ballToHit (table g)))
                          (isChargingShot g) (shotChargeProgress g) (calls g))
                  (pockets a) (created a) (trace a)).

(** [ballToHit = billBalls[0]] (line 204); slot 0 has just been filled. *)
Definition setBallToHit : AppM unit := fun a =>
  let g := game a in
  match billBalls (table g) !! 0 with
  | Some (Some p) =>
      Some (tt, mkApp (mkGame (heap g) (mkTable (billBalls (table g)) p)
                              (isChargingShot g) (shotChargeProgress g) (calls g))
                      (pockets a) (created a) (trace a))
  | _ => None
  end.

(** An entry of a parameter array. *)
Definition entry (ps : list (Vector2 F)) (i : nat) : AppM (Vector2 F) := fun a =>
  match ps !! i with
  | Some v => Some (v, a)
  | None => None
  end.

(** The first loop of [Table::init] (lines 186-191). *)
Fixpoint initPockets (idx : list nat) : AppM unit :=
  match idx with
  | [] => areturn tt
  | i :: rest =>
      s ← getPocket i;
      cassert (isNull s);;
      m ← createCall (Scene_createPocketMesh pocketRadius);
      setPocket i m;;
      v ← entry pocketsPositions i;
      logCall (Scene_placeMesh m (vx v) (vy v) (flit 0 1));;
      initPockets rest
  end.

(** The second loop (lines 193-202). *)
Fixpoint initBalls (idx : list nat) : AppM unit :=
  match idx with
  | [] => areturn tt
  | i :: rest =>
      ballMesh ← createCall (Scene_createBallMesh radius);
      v ← entry ballsPositions i;
      logCall (Scene_placeMesh ballMesh (vx v) (vy v) (flit 0 1));;
      newBall_ ← newBall (mkVector2 (vx v) (vy v)) ballMesh;
      setSlot i newBall_;;
      initBalls rest
  end.

Definition Table_init : AppM unit :=
  initPockets (seq 0 6);;
  initBalls (seq 0 7);;
  setBallToHit.

(** The loop of [Table::deinit] over the pocket entries (lines 210-211). *)
Fixpoint destroyAll (meshes : list (option Mesh)) : AppM unit :=
  match meshes with
  | [] => areturn tt
  | mesh :: rest => logCall (Scene_destroyMesh mesh);; destroyAll rest
  end.

Definition getPockets : AppM (list (option Mesh)) := fun a => Some (pockets a, a).

(** [pockets = {}] (line 212). *)
Definition clearPockets : AppM unit := fun a =>
  Some (tt, mkApp (game a) ((fun _ => None) <$> pockets a) (created a) (trace a)).

Definition Table_deinit : AppM unit :=
  meshes ← getPockets;
  destroyAll meshes;;
  clearPockets.

Definition Game_init : AppM unit :=
  logCall (Engine_setTargetFPS targetFPS);;
  logCall (Scene_setupBackground width height);;
  Table_init.

Definition Game_deinit : AppM unit := Table_deinit.

(** The calls of [Table::init] for the pockets, the first of which gets the
    [k]-th handle of the Scene, and for the balls. *)
Definition pocketCalls (k : nat) : list HostCall :=
  concat (imap (fun j v => [Scene_createPocketMesh pocketRadius (createMesh (k + j));
                            Scene_placeMesh (createMesh (k + j)) (vx v) (vy v) (flit 0 1)])
               pocketsPositions).

Definition ballCalls (k : nat) : list HostCall :=
  concat (imap (fun i v => [Scene_createBallMesh radius (createMesh (k + i));
                            Scene_placeMesh (createMesh (k + i)) (vx v) (vy v) (flit 0 1)])
               ballsPositions).

(** The seven ball objects [Table::init] creates, the first with the [k]-th
    handle of the Scene. *)
Definition newBalls (k : nat) : list (BillBall F) :=
  imap (fun i v => newBillBall (mkVector2 (vx v) (vy v)) (createMesh (k + i))) ballsPositions.

(** Every mesh of an object of the store is one the Scene created. *)
Definition meshesCreated (a : App) : Prop :=
  forall p b, heap (game a) !! p = Some b ->
    exists j, j < created a /\ gameMesh b = createMesh j.

End Model.

Arguments HostCall F : clear implicits.
Arguments App F : clear implicits.
Arguments AppM F X : clear implicits.

End Lifecycle.

(** * Properties

    The properties are numbered as in the specification, C1 to C10.  C4
    and C8 are proved as they are stated.  C1, C2, C5, C6, C7, C9 and C10
    fail as they are stated: for each a run of the program that refutes it
    is given, together with a proof of the statement that does hold.  For
    C1, C5 and C7 the refuting run is a single-precision run at a magnitude
    where a square underflows or overflows or a decrement is absorbed, and
    the statement that holds is the one read in the reals; for C9 it is a
    statement about the single-precision program.  C3 describes what
    [ricochet] is meant to do and does not do in a corner: the run that
    shows it is [ricochet_corner_loses_x_mirror]. *)

(** ** The monadic code, step by step *)

Section Frame.
Context {F : Type} {FA : FloatArith F}.

Lemma bind_eq {A B} (m : M F A) (k : A -> M F B) g a g1 :
  m g = Some (a, g1) -> bind m k g = k a g1.
Proof. intros H. unfold bind. rewrite H. reflexivity. Qed.

Lemma deref_eq p (g : Game F) b : heap g !! p = Some b -> deref p g = Some (b, g).
Proof. intros H. unfold deref. rewrite H. reflexivity. Qed.

Lemma getSlot_eq i (g : Game F) s :
  billBalls (table g) !! i = Some s -> getSlot i g = Some (s, g).
Proof. intros H. unfold getSlot. rewrite H. reflexivity. Qed.

Lemma onBall_eq p f (g : Game F) b :
  heap g !! p = Some b ->
  onBall p f g =
  Some (tt, mkGame (<[p := f b]> (heap g)) (table g) (isChargingShot g)
                   (shotChargeProgress g) (calls g)).
Proof. intros H. unfold onBall. rewrite H. reflexivity. Qed.

Lemma collide_eq p q (g : Game F) :
  is_Some (heap g !! p) -> is_Some (heap g !! q) ->
  collide p q g =
  Some (tt, mkGame (collideHeap p q (heap g)) (table g) (isChargingShot g)
                   (shotChargeProgress g) (calls g)).
Proof.
  intros [b1 H1] [b2 H2]. unfold collide, collideHeap.
  rewrite (bind_eq _ _ _ _ _ (deref_eq _ _ _ H1)).
  rewrite (bind_eq _ _ _ _ _ (deref_eq _ _ _ H2)).
  rewrite H1, H2. destruct (collideSpeeds b1 b2) as [n1 n2]. cbn [fst snd].
  rewrite (bind_eq _ _ _ _ _ (onBall_eq _ _ _ _ H1)).
  assert (Hq : is_Some (<[p := setSpeed n1 b1]> (heap g) !! q)).
  { apply lookup_lt_is_Some. rewrite length_insert.
    apply lookup_lt_is_Some. eauto. }
  destruct Hq as [b2' Hq]. rewrite Hq.
  unfold onBall. cbn [heap]. rewrite Hq. reflexivity.
Qed.

Lemma collideHeap_length p q (h : list (BillBall F)) :
  length (collideHeap p q h) = length h.
Proof.
  unfold collideHeap. destruct (h !! p); [|reflexivity].
  destruct (h !! q); [|reflexivity].
  destruct (<[p := _]> h !! q); rewrite ?length_insert; reflexivity.
Qed.

Lemma collideHeap_other p q r (h : list (BillBall F)) :
  r <> p -> r <> q -> collideHeap p q h !! r = h !! r.
Proof.
  intros Hp Hq. unfold collideHeap. destruct (h !! p); [|reflexivity].
  destruct (h !! q); [|reflexivity].
  destruct (<[p := _]> h !! q); rewrite ?list_lookup_insert_ne by congruence; reflexivity.
Qed.

Lemma collideHeap_keeps p q r (h : list (BillBall F)) b :
  h !! r = Some b ->
  exists b', collideHeap p q h !! r = Some b' /\
             position b' = position b /\ gameMesh b' = gameMesh b.
Proof.
  intros Hr. unfold collideHeap.
  destruct (h !! p) as [b1|] eqn:H1; [|eauto].
  destruct (h !! q) as [b2|] eqn:H2; [|eauto].
  assert (Hr1 : exists b1', <[p := setSpeed (fst (collideSpeeds b1 b2)) b1]> h !! r = Some b1'
            /\ position b1' = position b /\ gameMesh b1' = gameMesh b).
  { destruct (decide (r = p)) as [Heq|Hne]; [subst r|].
    - rewrite list_lookup_insert_eq by (eapply lookup_lt_Some; eauto).
      rewrite H1 in Hr. inversion Hr; subst. eauto.
    - rewrite list_lookup_insert_ne by congruence. eauto. }
  destruct Hr1 as (b1' & Hr1 & Hpos & Hmesh).
  destruct (<[p := _]> h !! q) as [b2'|] eqn:H2'; [|eauto].
  destruct (decide (r = q)) as [Heq|Hne]; [subst r|].
  - rewrite list_lookup_insert_eq by (eapply lookup_lt_Some; eauto).
    rewrite H2' in Hr1. inversion Hr1; subst. eauto.
  - rewrite list_lookup_insert_ne by congruence. eauto.
Qed.

(** *** The collision loop *)

Lemma newCalls_app (g g' : Game F) new :
  calls g' = calls g ++ new -> newCalls g g' = new.
Proof. intros H. unfold newCalls. rewrite H. apply drop_app_length. Qed.

Lemma isCollideFrom_cons i p l ls (g : Game F) c :
  isCollideFrom i p ls g c -> isCollideFrom i p (l :: ls) g c.
Proof.
  intros (l' & q & -> & Hin & Hne & Hs). exists l', q.
  repeat split; auto. by apply list_elem_of_further.
Qed.

Lemma loopPost_cons i p l ls pos (g : Game F) pos' g' :
  loopPost i p ls pos g pos' g' -> loopPost i p (l :: ls) pos g pos' g'.
Proof.
  intros [? ? ? ? ? Hnew ? ? ? ?]. split; auto.
  eapply List.Forall_impl; [|exact Hnew]. intros c. apply isCollideFrom_cons.
Qed.

Lemma collisionLoop_spec i p ls : forall pos (g : Game F),
  slotsValid g -> is_Some (heap g !! p) ->
  Forall (fun l => l < length (billBalls (table g))) ls ->
  exists pos' g', collisionLoop i p ls pos g = Some (pos', g') /\
                  loopPost i p ls pos g pos' g'.
Proof.
  induction ls as [|l rest IH]; intros pos g Hv Hp Hr.
  - exists pos, g. split; [reflexivity|].
    assert (Hn : newCalls g g = []) by (apply newCalls_app; by rewrite List.app_nil_r).
    split; rewrite ?Hn, ?List.app_nil_r; auto. intros q b Hq. eauto.
  - apply List.Forall_cons_iff in Hr as [Hl Hr].
    apply lookup_lt_is_Some in Hl as [s Hs].
    cbn [collisionLoop]. rewrite (bind_eq _ _ _ _ _ (getSlot_eq _ _ _ Hs)).
    destruct s as [q|]; cycle 1.
    { destruct (IH pos g Hv Hp Hr) as (pos' & g' & He & Hpost).
      exists pos', g'. split; [exact He|]. by apply loopPost_cons. }
    destruct (negb (l =? i)%nat) eqn:Hli; cycle 1.
    { destruct (IH pos g Hv Hp Hr) as (pos' & g' & He & Hpost).
      exists pos', g'. split; [exact He|]. by apply loopPost_cons. }
    destruct (Hv _ _ Hs) as [bl Hbl].
    rewrite (bind_eq _ _ _ _ _ (deref_eq _ _ _ Hbl)).
    destruct (fle (distance pos (getPosition bl)) (fmul (flit 2 1) radius)); cycle 1.
    { destruct (IH pos g Hv Hp Hr) as (pos' & g' & He & Hpost).
      exists pos', g'. split; [exact He|]. by apply loopPost_cons. }
    destruct Hp as [b Hb].
    rewrite (bind_eq _ _ _ _ _ (deref_eq _ _ _ Hb)).
    unfold call at 1. unfold bind at 1.
    set (g0 := mkGame (heap g) (table g) (isChargingShot g) (shotChargeProgress g)
                      (calls g ++ [PhysicEvents_collide p q])).
    rewrite (bind_eq _ _ g0 tt
               (mkGame (collideHeap p q (heap g)) (table g) (isChargingShot g)
                       (shotChargeProgress g) (calls g ++ [PhysicEvents_collide p q])))
      by (apply collide_eq; cbn [heap g0]; eauto).
    clear g0.
    set (g1 := mkGame _ _ _ _ _).
    assert (Hv1 : slotsValid g1).
    { intros l' q' Hq'. apply lookup_lt_is_Some. cbn [heap g1].
      rewrite collideHeap_length. apply lookup_lt_is_Some. eapply Hv, Hq'. }
    assert (Hp1 : is_Some (heap g1 !! p)).
    { apply lookup_lt_is_Some. cbn [heap g1]. rewrite collideHeap_length.
      apply lookup_lt_is_Some. eauto. }
    destruct (IH (getPosition b) g1 Hv1 Hp1 Hr) as (pos' & g' & He & Hpost).
    exists pos', g'. split; [exact He|].
    destruct Hpost as [Ht Hc Hpr Hlen Hcalls Hnew Hquiet Hother Hkeeps Hres].
    cbn [table isChargingShot shotChargeProgress heap calls g1] in *.
    assert (Hn : newCalls g g' = PhysicEvents_collide p q :: newCalls g1 g').
    { apply newCalls_app. rewrite Hcalls, <- app_assoc. reflexivity. }
    apply negb_true_iff, Nat.eqb_neq in Hli.
    split; rewrite ?Hn; auto.
    + by rewrite collideHeap_length in Hlen.
    + rewrite Hcalls, <- app_assoc. reflexivity.
    + constructor.
      * exists l, q. repeat split; auto. apply list_elem_of_here.
      * eapply List.Forall_impl; [|exact Hnew]. intros c (l' & q' & -> & Hin & Hne & Hs').
        exists l', q'. repeat split; auto. by apply list_elem_of_further.
    + discriminate.
    + intros q' Hq' Hnotin. apply not_elem_of_cons in Hnotin as [Hneq Hnotin].
      rewrite (Hother q' Hq' Hnotin). apply collideHeap_other; congruence.
    + intros q' b' Hq'. destruct (collideHeap_keeps p q q' _ _ Hq') as (b1 & H1 & Hp1' & Hm1).
      destruct (Hkeeps _ _ H1) as (b2 & H2 & Hp2 & Hm2).
      exists b2. repeat split; congruence.
    + right. exists b. split; [exact Hb|].
      destruct Hres as [->|(b1 & Hb1 & ->)]; [reflexivity|].
      destruct (collideHeap_keeps p q p _ _ Hb) as (b1' & H1 & Hp1' & _). congruence.
Qed.

(** No partner in range: the loop changes nothing. *)
Lemma collisionLoop_quiet i p ls pos : forall (g : Game F),
  slotsValid g ->
  Forall (fun l => l < length (billBalls (table g))) ls ->
  (forall l q bq, l ∈ ls -> l <> i -> billBalls (table g) !! l = Some (Some q) ->
     heap g !! q = Some bq ->
     fle (distance pos (getPosition bq)) (fmul (flit 2 1) radius) = false) ->
  collisionLoop i p ls pos g = Some (pos, g).
Proof.
  induction ls as [|l rest IH]; intros g Hv Hr Hfar; [reflexivity|].
  apply List.Forall_cons_iff in Hr as [Hl Hr].
  apply lookup_lt_is_Some in Hl as [s Hs].
  assert (Hrest : collisionLoop i p rest pos g = Some (pos, g)).
  { apply IH; auto. intros l' q bq Hin. apply Hfar. by apply list_elem_of_further. }
  cbn [collisionLoop]. rewrite (bind_eq _ _ _ _ _ (getSlot_eq _ _ _ Hs)).
  destruct s as [q|]; [|exact Hrest].
  destruct (negb (l =? i)%nat) eqn:Hli; [|exact Hrest].
  destruct (Hv _ _ Hs) as [bl Hbl].
  rewrite (bind_eq _ _ _ _ _ (deref_eq _ _ _ Hbl)).
  apply negb_true_iff, Nat.eqb_neq in Hli.
  rewrite (Hfar l q bl (list_elem_of_here _ _) Hli Hs Hbl). exact Hrest.
Qed.

(** *** The loop over the pockets *)

Lemma score_eq i p b (g : Game F) :
  billBalls (table g) !! i = Some (Some p) -> heap g !! p = Some b ->
  score i g = Some (tt, captured i b g).
Proof.
  intros Hs Hb. unfold score.
  rewrite (bind_eq _ _ _ _ _ (getSlot_eq _ _ _ Hs)).
  rewrite (bind_eq _ _ _ _ _ (deref_eq _ _ _ Hb)).
  reflexivity.
Qed.

Lemma pocketLoop_none i pos ps : forall scored (g : Game F),
  Forall (fun Q => atPocket pos Q = false) ps ->
  pocketLoop i pos ps scored g = Some (scored, g).
Proof.
  induction ps as [|Q rest IH]; intros scored g Hn; [reflexivity|].
  apply List.Forall_cons_iff in Hn as [HQ Hn]. cbn [pocketLoop].
  unfold atPocket in HQ. rewrite HQ. by apply IH.
Qed.

Lemma exclusive_tail pos Q ps : exclusive pos (Q :: ps) -> exclusive pos ps.
Proof.
  intros H j1 j2 Q1 Q2 H1 H2 M1 M2.
  assert (S j1 = S j2) by (eapply H; eauto). lia.
Qed.

Lemma exclusive_head pos Q ps :
  exclusive pos (Q :: ps) -> atPocket pos Q = true ->
  Forall (fun Q' => atPocket pos Q' = false) ps.
Proof.
  intros H HQ. apply Forall_lookup. intros j Q' Hj.
  destruct (atPocket pos Q') eqn:HQ'; [|reflexivity].
  assert (0 = S j) by (eapply (H 0 (S j)); eauto). lia.
Qed.

Lemma pocketLoop_spec i p b pos ps : forall scored (g : Game F),
  billBalls (table g) !! i = Some (Some p) -> heap g !! p = Some b ->
  exclusive pos ps ->
  pocketLoop i pos ps scored g =
  if existsb (atPocket pos) ps then Some (true, captured i b g) else Some (scored, g).
Proof.
  induction ps as [|Q rest IH]; intros scored g Hs Hb Hex; [reflexivity|].
  cbn [pocketLoop existsb]. fold (atPocket pos Q).
  destruct (atPocket pos Q) eqn:HQ; cbn [orb].
  - rewrite (bind_eq _ _ _ _ _ (score_eq _ _ _ _ Hs Hb)).
    apply pocketLoop_none. eapply exclusive_head; eauto.
  - apply IH; auto. eapply exclusive_tail; eauto.
Qed.

(** *** Turns *)

Lemma turnsPost_refl idx (g : Game F) : turnsPost idx g g.
Proof.
  assert (Hn : newCalls g g = []) by (apply newCalls_app; by rewrite List.app_nil_r).
  split; rewrite ?Hn, ?List.app_nil_r; auto. intros q b Hq. eauto.
Qed.

Lemma turnsPost_slot_live idx (g g' : Game F) k q :
  turnsPost idx g g' -> billBalls (table g') !! k = Some (Some q) ->
  billBalls (table g) !! k = Some (Some q).
Proof. intros H Hk. destruct (tp_slots _ _ _ H k) as [He|He]; congruence. Qed.

Lemma turnsPost_heap_back idx (g g' : Game F) q b' :
  turnsPost idx g g' -> heap g' !! q = Some b' ->
  exists b, heap g !! q = Some b /\ gameMesh b' = gameMesh b.
Proof.
  intros H Hq. assert (Hlt : q < length (heap g)).
  { rewrite <- (tp_length _ _ _ H). eapply lookup_lt_Some; eauto. }
  apply lookup_lt_is_Some in Hlt as [b Hb]. exists b. split; [exact Hb|].
  destruct (tp_keeps _ _ _ H _ _ Hb) as (b2 & H2 & Hm & _). congruence.
Qed.

Lemma callOf_back idx (g g' : Game F) k c :
  turnsPost idx g g' -> callOf g' k c -> callOf g k c.
Proof.
  intros H (p & b' & Hs & Hb & Hc).
  destruct (turnsPost_heap_back _ _ _ _ _ H Hb) as (b & Hb0 & Hm).
  exists p, b. split; [eapply turnsPost_slot_live; eauto|]. split; [exact Hb0|].
  rewrite <- Hm. destruct Hc as [Hc|[Hc|(l & q & Hc & Hlt & Hl)]]; auto.
  right; right. exists l, q. repeat split; auto. eapply turnsPost_slot_live; eauto.
Qed.

Lemma notInSlots_forward idx idx' (g g' : Game F) q :
  turnsPost idx' g g' -> notInSlots idx g q -> notInSlots idx g' q.
Proof. intros H Hn k Hk Hs. eapply Hn; eauto. eapply turnsPost_slot_live; eauto. Qed.

Lemma turnsPost_trans idx1 idx2 (g g1 g2 : Game F) :
  turnsPost idx1 g g1 -> turnsPost idx2 g1 g2 -> turnsPost (idx1 ++ idx2) g g2.
Proof.
  intros H1 H2.
  assert (Hn : newCalls g g2 = newCalls g g1 ++ newCalls g1 g2).
  { apply newCalls_app. rewrite (tp_calls _ _ _ H2), (tp_calls _ _ _ H1) at 1.
    by rewrite <- app_assoc. }
  assert (Hsplit : forall q, notInSlots (idx1 ++ idx2) g q ->
            notInSlots idx1 g q /\ notInSlots idx2 g1 q).
  { intros q Hq. split.
    - intros k Hk. apply Hq, elem_of_app. auto.
    - eapply notInSlots_forward; [exact H1|]. intros k Hk. apply Hq, elem_of_app. auto. }
  destruct H1 as [c1 ch1 pr1 len1 sl1 so1 s1 k1 ca1 n1 o1].
  destruct H2 as [c2 ch2 pr2 len2 sl2 so2 s2 k2 ca2 n2 o2].
  split; rewrite ?Hn; try congruence.
  - intros k Hk. apply not_elem_of_app in Hk as [Hk1 Hk2].
    rewrite so2, so1; auto.
  - intros k. destruct (s2 k) as [He|He]; [|by right].
    rewrite He. apply s1.
  - intros q b Hq. destruct (k1 _ _ Hq) as (b1 & Hq1 & Hm1 & Hp1).
    destruct (k2 _ _ Hq1) as (b2 & Hq2 & Hm2 & Hp2).
    exists b2. split; [exact Hq2|]. split; [congruence|].
    intros Hnot. apply Hsplit in Hnot as [Ha Hb]. rewrite Hp2, Hp1; auto.
  - rewrite ca2, ca1 at 1. by rewrite <- app_assoc.
  - apply Forall_app. split.
    + eapply List.Forall_impl; [|exact n1]. intros c (k & Hk & Hc).
      exists k. split; [apply elem_of_app; auto|exact Hc].
    + eapply List.Forall_impl; [|exact n2]. intros c (k & Hk & Hc).
      exists k. split; [apply elem_of_app; auto|].
      eapply callOf_back; [|exact Hc].
      split; eauto.
  - intros q Hnot Hc. apply Hsplit in Hnot as [Ha Hb].
    rewrite o2, o1; auto; intros p Hin; eapply Hc, elem_of_app; eauto.
Qed.

Lemma turnsPost_wf idx (g g' : Game F) : wf g -> turnsPost idx g g' -> wf g'.
Proof.
  intros [Hv Hi Hc Hm] H. split.
  - intros l q Hl. apply lookup_lt_is_Some. rewrite (tp_length _ _ _ H).
    apply lookup_lt_is_Some. eapply Hv, turnsPost_slot_live; eauto.
  - intros i j p Hi' Hj'. eapply Hi; eapply turnsPost_slot_live; eauto.
  - rewrite (tp_cue _ _ _ H). apply lookup_lt_is_Some. rewrite (tp_length _ _ _ H).
    by apply lookup_lt_is_Some.
  - intros p q bp bq Hp Hq Hmesh.
    destruct (turnsPost_heap_back _ _ _ _ _ H Hp) as (bp0 & Hp0 & Hmp).
    destruct (turnsPost_heap_back _ _ _ _ _ H Hq) as (bq0 & Hq0 & Hmq).
    eapply Hm; eauto. congruence.
Qed.

Lemma friction_keeps (b : BillBall F) :
  position (friction b) = position b /\ gameMesh (friction b) = gameMesh b.
Proof.
  unfold friction. destruct (_ || _); [|auto].
  destruct (fle _ _); auto.
Qed.

Lemma ricochet_mesh (b : BillBall F) : gameMesh (ricochet b) = gameMesh b.
Proof.
  unfold ricochet. repeat (destruct (flt _ _); cbn [gameMesh setSpeed setPosition]); reflexivity.
Qed.

Lemma Vector2_eta (v : Vector2 F) : mkVector2 (vx v) (vy v) = v.
Proof. by destruct v. Qed.

Lemma afterBoundary_mesh pos (b : BillBall F) : gameMesh (afterBoundary pos b) = gameMesh b.
Proof.
  unfold afterBoundary. destruct (outOfTable pos).
  - rewrite ricochet_mesh. cbn [setPosition gameMesh]. apply friction_keeps.
  - apply friction_keeps.
Qed.

Lemma updateBall_empty dt i (g : Game F) :
  billBalls (table g) !! i = Some None -> updateBall dt i g = Some (tt, g).
Proof.
  intros Hs. unfold updateBall. by rewrite (bind_eq _ _ _ _ _ (getSlot_eq _ _ _ Hs)).
Qed.

(** *** One turn, and a frame around it *)

Section Turn.
Hypothesis pockets_exclusive : forall pos : Vector2 F, exclusive pos pocketsPositions.

Lemma updateBall_captured dt i p b (g : Game F) :
  billBalls (table g) !! i = Some (Some p) -> heap g !! p = Some b ->
  existsb (atPocket (getNextPosition b dt)) pocketsPositions = true ->
  updateBall dt i g = Some (tt, captured i b g).
Proof.
  intros Hs Hb Hat. unfold updateBall.
  rewrite (bind_eq _ _ _ _ _ (getSlot_eq _ _ _ Hs)).
  unfold callGetNextPosition at 1.
  rewrite (bind_eq _ _ g (getNextPosition b dt) g)
    by (by rewrite (bind_eq _ _ _ _ _ (deref_eq _ _ _ Hb))).
  erewrite bind_eq; cycle 1.
  { rewrite (pocketLoop_spec i p b) by auto. rewrite Hat. reflexivity. }
  reflexivity.
Qed.

Lemma updateBall_free dt i p b (g : Game F) :
  wf g ->
  billBalls (table g) !! i = Some (Some p) -> heap g !! p = Some b ->
  let P := getNextPosition b dt in
  let ls := seq (S i) (length (billBalls (table g)) - S i) in
  let gb := withHeap (<[p := afterBoundary P b]> (heap g)) g in
  existsb (atPocket P) pocketsPositions = false ->
  exists pos gc bc,
    collisionLoop i p ls (toMove P b) gb = Some (pos, gc) /\
    loopPost i p ls (toMove P b) gb pos gc /\
    heap gc !! p = Some bc /\
    updateBall dt i g = Some (tt, committed p pos bc gc).
Proof.
  intros Hwf Hs Hb P ls gb Hat.
  assert (Hlt : p < length (heap g)) by (eapply lookup_lt_Some; eauto).
  assert (Hvb : slotsValid gb).
  { intros l q Hl. apply lookup_lt_is_Some. cbn [heap gb withHeap].
    rewrite length_insert. apply lookup_lt_is_Some. eapply (wf_valid _ Hwf), Hl. }
  assert (Hpb : heap gb !! p = Some (afterBoundary P b)).
  { cbn [heap gb withHeap]. by apply list_lookup_insert_eq. }
  assert (Hr : Forall (fun l => l < length (billBalls (table gb))) ls).
  { apply List.Forall_forall. intros l Hl. apply in_seq in Hl. cbn [table gb withHeap]. lia. }
  destruct (collisionLoop_spec i p ls (toMove P b) gb Hvb (ex_intro _ _ Hpb) Hr)
    as (pos & gc & Hloop & Hpost).
  destruct (lp_keeps _ _ _ _ _ _ _ Hpost _ _ Hpb) as (bc & Hbc & _ & _).
  exists pos, gc, bc.
  split; [exact Hloop|]. split; [exact Hpost|]. split; [exact Hbc|].
  unfold updateBall.
  rewrite (bind_eq _ _ _ _ _ (getSlot_eq _ _ _ Hs)).
  unfold callGetNextPosition at 1.
  rewrite (bind_eq _ _ g (getNextPosition b dt) g)
    by (by rewrite (bind_eq _ _ _ _ _ (deref_eq _ _ _ Hb))).
  erewrite bind_eq; cycle 1.
  { rewrite (pocketLoop_spec i p b) by auto. fold P. rewrite Hat. reflexivity. }
  cbn iota.
  rewrite (bind_eq _ _ _ _ _ (onBall_eq _ _ _ _ Hb)).
  set (ga := mkGame _ _ _ _ _).
  assert (Hga : (if outOfTable (getNextPosition b dt)
     then
      bind (onBall p (setPosition (getNextPosition b dt)))
        (fun _ => bind (onBall p ricochet)
           (fun _ => bind (deref p) (fun b0 => ret (getPosition b0))))
     else ret (getNextPosition b dt)) ga = Some (toMove P b, gb)).
  { fold P. unfold gb, withHeap, toMove, afterBoundary. destruct (outOfTable P).
    - assert (H1 : heap ga !! p = Some (friction b)).
      { cbn [heap ga]. by apply list_lookup_insert_eq. }
      rewrite (bind_eq _ _ _ _ _ (onBall_eq _ _ _ _ H1)).
      set (g2 := mkGame _ _ _ _ _).
      assert (H2 : heap g2 !! p = Some (setPosition P (friction b))).
      { cbn [heap g2 ga]. apply list_lookup_insert_eq. by rewrite length_insert. }
      rewrite (bind_eq _ _ _ _ _ (onBall_eq _ _ _ _ H2)).
      set (g3 := mkGame _ _ _ _ _).
      assert (H3 : heap g3 !! p = Some (ricochet (setPosition P (friction b)))).
      { cbn [heap g3 g2 ga]. apply list_lookup_insert_eq. by rewrite !length_insert. }
      rewrite (bind_eq _ _ _ _ _ (deref_eq _ _ _ H3)).
      unfold ret, g3, g2, ga. cbn [heap table isChargingShot shotChargeProgress calls].
            by rewrite !list_insert_insert_eq.
    - unfold ret, ga. cbn [heap table isChargingShot shotChargeProgress calls].
      reflexivity. }
  rewrite (bind_eq _ _ _ _ _ Hga).
  rewrite (bind_eq _ _ gb (length (billBalls (table g))) gb) by reflexivity.
  fold ls. rewrite (bind_eq _ _ _ _ _ Hloop).
  rewrite (bind_eq _ _ _ _ _ (onBall_eq _ _ _ _ Hbc)).
  set (gd := mkGame _ _ _ _ _).
  assert (Hsd : billBalls (table gd) !! i = Some (Some p)).
  { cbn [table gd]. rewrite (lp_table _ _ _ _ _ _ _ Hpost). exact Hs. }
  rewrite (bind_eq _ _ _ _ _ (getSlot_eq _ _ _ Hsd)).
  assert (Hd : heap gd !! p = Some (setPosition pos bc)).
  { cbn [heap gd]. apply list_lookup_insert_eq. eapply lookup_lt_Some; eauto. }
  rewrite (bind_eq _ _ _ _ _ (deref_eq _ _ _ Hd)).
  rewrite (bind_eq _ _ _ _ _ (deref_eq _ _ _ Hd)).
  reflexivity.
Qed.

Lemma captured_turnsPost i p b (g : Game F) :
  billBalls (table g) !! i = Some (Some p) -> heap g !! p = Some b ->
  turnsPost [i] g (captured i b g).
Proof.
  intros Hs Hb.
  assert (Hn : newCalls g (captured i b g) = [Scene_destroyMesh (gameMesh b)])
    by (by apply newCalls_app).
  split; rewrite ?Hn; cbn [captured heap table billBalls ballToHit isChargingShot
                           shotChargeProgress calls]; auto.
  - apply length_insert.
  - intros k Hk. apply list_lookup_insert_ne. intros ->. apply Hk, list_elem_of_here.
  - intros k. destruct (decide (k = i)) as [->|Hne].
    + right. apply list_lookup_insert_eq. eapply lookup_lt_Some; eauto.
    + left. by apply list_lookup_insert_ne.
  - intros q b0 Hq. eauto.
  - constructor; [|constructor]. exists i. split; [apply list_elem_of_here|].
    exists p, b. auto.
Qed.

Lemma committed_turnsPost i p b pos0 pos bc (g gc : Game F) :
  billBalls (table g) !! i = Some (Some p) -> heap g !! p = Some b ->
  let ls := seq (S i) (length (billBalls (table g)) - S i) in
  let gb := withHeap (<[p := afterBoundary pos0 b]> (heap g)) g in
  loopPost i p ls (toMove pos0 b) gb pos gc ->
  heap gc !! p = Some bc ->
  turnsPost [i] g (committed p pos bc gc).
Proof.
  intros Hs Hb ls gb Hpost Hbc.
  destruct Hpost as [Ht Hc Hpr Hlen Hcalls Hnew Hquiet Hother Hkeeps Hres].
  assert (Hlt : p < length (heap g)) by (eapply lookup_lt_Some; eauto).
  assert (Hpb : heap gb !! p = Some (afterBoundary pos0 b)).
  { cbn [heap gb withHeap]. by apply list_lookup_insert_eq. }
  assert (Hmesh : gameMesh bc = gameMesh b).
  { destruct (Hkeeps _ _ Hpb) as (bc' & Hbc' & _ & Hm).
    rewrite Hbc in Hbc'. inversion Hbc'; subst bc'. rewrite Hm. apply afterBoundary_mesh. }
  assert (Hn : newCalls g (committed p pos bc gc) =
               newCalls gb gc ++ [Scene_placeMesh (gameMesh bc) (vx pos) (vy pos) (flit 0 1)]).
  { apply newCalls_app. cbn [committed calls]. rewrite Hcalls.
    cbn [gb withHeap calls]. by rewrite <- app_assoc. }
  cbn [gb withHeap heap table isChargingShot shotChargeProgress calls] in *.
  split; rewrite ?Hn;
    cbn [committed heap table isChargingShot shotChargeProgress calls]; try congruence.
  - rewrite length_insert, Hlen. apply length_insert.
  - intros k. left. by rewrite Ht.
  - intros q b0 Hq. destruct (decide (q = p)) as [->|Hne].
    + exists (setPosition pos bc). split.
      { apply list_lookup_insert_eq. eapply lookup_lt_Some; eauto. }
      split; [cbn [setPosition gameMesh]; congruence|].
      intros Hnot. exfalso. apply (Hnot i); [apply list_elem_of_here|exact Hs].
    + rewrite list_lookup_insert_ne by congruence.
      destruct (Hkeeps q b0) as (b' & Hb' & Hp' & Hm').
      { by rewrite list_lookup_insert_ne by congruence. }
      exists b'. auto.
  - rewrite Hcalls. by rewrite <- app_assoc.
  - apply Forall_app. split.
    + eapply List.Forall_impl; [|exact Hnew]. intros c (l & q & -> & Hl & Hne & Hq).
      exists i. split; [apply list_elem_of_here|]. exists p, b.
      split; [exact Hs|]. split; [exact Hb|]. right; right.
      exists l, q. split; [reflexivity|]. split; [|exact Hq].
      apply elem_of_seq in Hl. lia.
    + constructor; [|constructor]. exists i. split; [apply list_elem_of_here|].
      exists p, b. split; [exact Hs|]. split; [exact Hb|]. right; left.
      rewrite Hmesh. eauto.
  - intros q Hnot Hcol.
    assert (Hne : q <> p).
    { intros ->. apply (Hnot i); [apply list_elem_of_here|exact Hs]. }
    rewrite list_lookup_insert_ne by congruence.
    rewrite Hother; [by rewrite list_lookup_insert_ne by congruence|exact Hne|].
    intros Hin. apply (Hcol p). apply elem_of_app. by left.
Qed.

Lemma updateBall_turn dt i (g : Game F) :
  wf g -> i < length (billBalls (table g)) ->
  exists g', updateBall dt i g = Some (tt, g') /\ turnsPost [i] g g'.
Proof.
  intros Hwf Hi. apply lookup_lt_is_Some in Hi as [[p|] Hs]; cycle 1.
  { exists g. split; [by apply updateBall_empty|apply turnsPost_refl]. }
  destruct (wf_valid _ Hwf _ _ Hs) as [b Hb].
  destruct (existsb (atPocket (getNextPosition b dt)) pocketsPositions) eqn:Hat.
  - exists (captured i b g). split; [by eapply updateBall_captured|].
    by eapply captured_turnsPost.
  - destruct (updateBall_free dt i p b g Hwf Hs Hb Hat)
      as (pos & gc & bc & _ & Hpost & Hbc & Hup).
    exists (committed p pos bc gc). split; [exact Hup|].
    eapply committed_turnsPost; eauto.
Qed.

Lemma forEach_turns dt idx : forall (g : Game F),
  wf g -> Forall (fun i => i < length (billBalls (table g))) idx ->
  exists g', forEach idx (updateBall dt) g = Some (tt, g') /\ turnsPost idx g g'.
Proof.
  induction idx as [|i rest IH]; intros g Hwf Hr.
  - exists g. split; [reflexivity|apply turnsPost_refl].
  - apply List.Forall_cons_iff in Hr as [Hi Hr].
    destruct (updateBall_turn dt i g Hwf Hi) as (g1 & H1 & Hp1).
    destruct (IH g1) as (g' & H' & Hp').
    { eapply turnsPost_wf; eauto. }
    { by rewrite (tp_slots_length _ _ _ Hp1). }
    exists g'. split.
    + cbn [forEach]. by rewrite (bind_eq _ _ _ _ _ H1).
    + apply (turnsPost_trans [i] rest g g1 g'); auto.
Qed.

Lemma forEach_app idx1 idx2 (body : nat -> M F unit) (g : Game F) :
  forEach (idx1 ++ idx2) body g =
  bind (forEach idx1 body) (fun _ => forEach idx2 body) g.
Proof.
  revert g. induction idx1 as [|i rest IH]; intros g; [reflexivity|].
  cbn [forEach app]. unfold bind.
  destruct (body i g) as [[[] g1]|]; [|reflexivity].
  rewrite IH. reflexivity.
Qed.

Lemma chargeStep_eq dt (g : Game F) : chargeStep dt g = Some (tt, charged dt g).
Proof. reflexivity. Qed.

Lemma charged_wf dt (g : Game F) : wf g -> wf (charged dt g).
Proof. intros [Hv Hi Hc Hm]. split; auto. Qed.

Lemma seq_split_at i n : i < n -> seq 0 n = seq 0 i ++ [i] ++ seq (S i) (n - S i).
Proof.
  intros Hi. replace n with (i + (1 + (n - S i))) at 1 by lia.
  rewrite seq_app, seq_app. cbn [seq Nat.add]. by rewrite Nat.add_1_r.
Qed.

(** The stages of [update] around the turn of slot [i]. *)
Lemma update_stages dt i (g : Game F) :
  wf g -> i < length (billBalls (table g)) ->
  let n := length (billBalls (table g)) in
  exists g1 g2 g3,
    beforeTurn dt i g = Some (tt, g1) /\ turnsPost (seq 0 i) (charged dt g) g1 /\
    updateBall dt i g1 = Some (tt, g2) /\ turnsPost [i] g1 g2 /\
    forEach (seq (S i) (n - S i)) (updateBall dt) g2 = Some (tt, g3) /\
    turnsPost (seq (S i) (n - S i)) g2 g3 /\
    update dt g = Some (tt, g3) /\ wf g1 /\ wf g2 /\ wf g3 /\
    newCalls g g3 =
      Scene_updateProgressBar (shotChargeProgress (charged dt g))
        :: newCalls (charged dt g) g1 ++ newCalls g1 g2 ++ newCalls g2 g3.
Proof.
  intros Hwf Hi n.
  assert (Hwf0 := charged_wf dt g Hwf).
  assert (Hrange : forall a k (g' : Game F),
            length (billBalls (table g')) = n -> a + k <= n ->
            Forall (fun j => j < length (billBalls (table g'))) (seq a k)).
  { intros a k g' Hlen Hle. apply List.Forall_forall. intros j Hj.
    apply in_seq in Hj. lia. }
  destruct (forEach_turns dt (seq 0 i) (charged dt g) Hwf0) as (g1 & H1 & Hp1).
  { apply Hrange; [reflexivity|lia]. }
  assert (Hwf1 : wf g1) by (eapply turnsPost_wf; eauto).
  assert (Hlen1 : length (billBalls (table g1)) = n) by apply (tp_slots_length _ _ _ Hp1).
  destruct (updateBall_turn dt i g1 Hwf1) as (g2 & H2 & Hp2); [lia|].
  assert (Hwf2 : wf g2) by (eapply turnsPost_wf; eauto).
  assert (Hlen2 : length (billBalls (table g2)) = n)
    by (rewrite (tp_slots_length _ _ _ Hp2); exact Hlen1).
  destruct (forEach_turns dt (seq (S i) (n - S i)) g2 Hwf2) as (g3 & H3 & Hp3).
  { apply Hrange; [exact Hlen2|lia]. }
  assert (Hwf3 : wf g3) by (eapply turnsPost_wf; eauto).
  assert (Hb : beforeTurn dt i g = Some (tt, g1)).
  { unfold beforeTurn. by rewrite (bind_eq _ _ _ _ _ (chargeStep_eq dt g)). }
  exists g1, g2, g3. repeat (split; [assumption|]).
  split; [|repeat (split; [assumption|])].
  2:{ apply newCalls_app.
      rewrite (tp_calls _ _ _ Hp3), (tp_calls _ _ _ Hp2), (tp_calls _ _ _ Hp1).
      cbn [charged calls]. rewrite <- !app_assoc. reflexivity. }
  unfold update. rewrite (bind_eq _ _ _ _ _ (chargeStep_eq dt g)).
  rewrite (bind_eq _ _ (charged dt g) n (charged dt g)) by reflexivity.
  rewrite (seq_split_at i n Hi), forEach_app, (bind_eq _ _ _ _ _ H1).
  rewrite forEach_app. cbn [forEach]. unfold bind at 1.
  rewrite (bind_eq _ _ _ _ _ H2). cbn. exact H3.
Qed.

(** A whole frame, seen from outside. *)
Lemma update_turns dt (g : Game F) :
  wf g ->
  exists g', update dt g = Some (tt, g') /\ wf g' /\
    turnsPost (seq 0 (length (billBalls (table g)))) (charged dt g) g'.
Proof.
  intros Hwf. assert (Hwf0 := charged_wf dt g Hwf).
  destruct (forEach_turns dt (seq 0 (length (billBalls (table g)))) (charged dt g) Hwf0)
    as (g' & H & Hp).
  { apply List.Forall_forall. intros j Hj. apply in_seq in Hj. cbn [charged table]. lia. }
  exists g'. split; [|split; [eapply turnsPost_wf; eauto|exact Hp]].
  unfold update. rewrite (bind_eq _ _ _ _ _ (chargeStep_eq dt g)).
  by rewrite (bind_eq _ _ (charged dt g) _ (charged dt g)) by reflexivity.
Qed.

(** The turn of a ball that is not captured and has no partner in range. *)
Lemma own_turn_alone dt i p b (g : Game F) :
  wf g -> billBalls (table g) !! i = Some (Some p) -> heap g !! p = Some b ->
  let P := getNextPosition b dt in
  existsb (atPocket P) pocketsPositions = false ->
  (forall l q bq, i < l -> billBalls (table g) !! l = Some (Some q) ->
     heap g !! q = Some bq ->
     fle (distance (toMove P b) (getPosition bq)) (fmul (flit 2 1) radius) = false) ->
  updateBall dt i g =
  Some (tt, committed p (toMove P b) (afterBoundary P b)
                      (withHeap (<[p := afterBoundary P b]> (heap g)) g)).
Proof.
  intros Hwf Hs Hb P Hat Hfar.
  destruct (updateBall_free dt i p b g Hwf Hs Hb Hat)
    as (pos & gc & bc & Hloop & _ & Hbc & Hup).
  rewrite collisionLoop_quiet in Hloop.
  - inversion Hloop; subst pos gc. clear Hloop.
    cbn [withHeap heap] in Hbc.
    rewrite list_lookup_insert_eq in Hbc by (eapply lookup_lt_Some; eauto).
    inversion Hbc; subst bc. exact Hup.
  - intros l q Hl. apply lookup_lt_is_Some. cbn [withHeap heap].
    rewrite length_insert. apply lookup_lt_is_Some. eapply (wf_valid _ Hwf), Hl.
  - apply List.Forall_forall. intros l Hl. apply in_seq in Hl. cbn [withHeap table]. lia.
  - intros l q bq Hl Hne Hq Hbq. cbn [withHeap table heap] in Hq, Hbq.
    apply elem_of_seq in Hl.
    assert (q <> p).
    { intros ->. assert (l = i) by (eapply (wf_inj _ Hwf); eauto). lia. }
    rewrite list_lookup_insert_ne in Hbq by congruence.
    apply (Hfar l q bq); auto. lia.
Qed.

(** The turn of a ball that is not captured and collides with nothing. *)
Lemma own_turn_quiet dt i p b (g g' : Game F) :
  wf g -> billBalls (table g) !! i = Some (Some p) -> heap g !! p = Some b ->
  updateBall dt i g = Some (tt, g') ->
  let P := getNextPosition b dt in
  existsb (atPocket P) pocketsPositions = false ->
  (forall q, PhysicEvents_collide p q ∉ newCalls g g') ->
  heap g' !! p = Some (setPosition (toMove P b) (afterBoundary P b)).
Proof.
  intros Hwf Hs Hb Hup P Hat Hquiet. subst P.
  destruct (updateBall_free dt i p b g Hwf Hs Hb Hat)
    as (pos & gc & bc & _ & Hpost & Hbc & Hup').
  rewrite Hup' in Hup. inversion Hup; subst g'. clear Hup.
  cbv zeta in Hpost.
  set (gb := withHeap (<[p := afterBoundary (getNextPosition b dt) b]> (heap g)) g) in *.
  assert (Hn : newCalls g (committed p pos bc gc) =
               newCalls gb gc ++ [Scene_placeMesh (gameMesh bc) (vx pos) (vy pos) (flit 0 1)]).
  { apply newCalls_app. cbn [committed calls]. rewrite (lp_calls _ _ _ _ _ _ _ Hpost).
    cbn [gb withHeap calls]. by rewrite <- app_assoc. }
  assert (Hnil : newCalls gb gc = []).
  { destruct (newCalls gb gc) as [|c rest] eqn:E; [reflexivity|exfalso].
    pose proof (lp_new _ _ _ _ _ _ _ Hpost) as Hnew. rewrite E in Hnew.
    apply List.Forall_cons_iff in Hnew as [(l & q & -> & _) _].
    apply (Hquiet q). rewrite Hn. apply list_elem_of_here. }
  destruct (lp_quiet _ _ _ _ _ _ _ Hpost Hnil) as [Hheap ->].
  rewrite Hheap in Hbc. cbn [gb withHeap heap] in Hbc.
  rewrite list_lookup_insert_eq in Hbc by (eapply lookup_lt_Some; eauto).
  inversion Hbc; subst bc.
  cbn [committed heap]. apply list_lookup_insert_eq.
  rewrite Hheap. cbn [gb withHeap heap]. rewrite length_insert.
  eapply lookup_lt_Some; eauto.
Qed.

(** The ball of slot [i] is in no other slot, now and later. *)
Lemma notInSlots_after idx idx' i p (g g' : Game F) :
  wf g -> billBalls (table g) !! i = Some (Some p) ->
  turnsPost idx' g g' -> i ∉ idx -> notInSlots idx g' p.
Proof.
  intros Hwf Hs Hp Hi k Hk Hk'.
  apply (turnsPost_slot_live _ _ _ _ _ Hp) in Hk'.
  assert (k = i) by (eapply (wf_inj _ Hwf); eauto). congruence.
Qed.

Lemma not_elem_of_seq_before i : i ∉ seq 0 i.
Proof. rewrite elem_of_seq. lia. Qed.

Lemma not_elem_of_seq_after i n : i ∉ seq (S i) n.
Proof. rewrite elem_of_seq. lia. Qed.


End Turn.

(** *** Captured balls *)







(** *** Shots *)

Lemma strike_keeps direction power (b : BillBall F) :
  position (strike direction power b) = position b /\
  gameMesh (strike direction power b) = gameMesh b.
Proof. split; reflexivity. Qed.

Lemma mouseButtonReleased_eq x y cue (g : Game F) :
  heap g !! ballToHit (table g) = Some cue ->
  mouseButtonReleased x y g = Some (tt, released x y cue g).
Proof. intros H. unfold mouseButtonReleased. by rewrite H. Qed.

Lemma released_lookup x y cue (g : Game F) q b :
  heap g !! ballToHit (table g) = Some cue -> heap g !! q = Some b ->
  exists b', heap (released x y cue g) !! q = Some b' /\
             position b' = position b /\ gameMesh b' = gameMesh b /\
             (q <> ballToHit (table g) -> b' = b).
Proof.
  intros Hcue Hq. cbn [released heap].
  destruct (decide (q = ballToHit (table g))) as [->|Hne].
  - rewrite list_lookup_insert_eq by (eapply lookup_lt_Some; eauto).
    rewrite Hcue in Hq. inversion Hq; subst b.
    eexists. split; [reflexivity|]. repeat split; auto. congruence.
  - rewrite list_lookup_insert_ne by congruence. eauto.
Qed.

Lemma released_back x y cue (g : Game F) q b' :
  heap g !! ballToHit (table g) = Some cue ->
  heap (released x y cue g) !! q = Some b' ->
  exists b, heap g !! q = Some b /\ gameMesh b' = gameMesh b.
Proof.
  intros Hcue Hq.
  assert (Hlt : q < length (heap g)).
  { apply lookup_lt_Some in Hq. cbn [released heap] in Hq. by rewrite length_insert in Hq. }
  apply lookup_lt_is_Some in Hlt as [b Hb]. exists b. split; [exact Hb|].
  destruct (released_lookup x y cue g q b Hcue Hb) as (b2 & H2 & _ & Hm & _). congruence.
Qed.

Lemma released_wf x y cue (g : Game F) :
  heap g !! ballToHit (table g) = Some cue -> wf g -> wf (released x y cue g).
Proof.
  intros Hcue [Hv Hi Hc Hm]. split.
  - intros l q Hl. apply lookup_lt_is_Some. cbn [released heap]. rewrite length_insert.
    apply lookup_lt_is_Some. eapply Hv, Hl.
  - exact Hi.
  - apply lookup_lt_is_Some. cbn [released heap table]. rewrite length_insert.
    by apply lookup_lt_is_Some.
  - intros p q bp bq Hp Hq Hmesh.
    destruct (released_back _ _ _ _ _ _ Hcue Hp) as (bp0 & Hp0 & Hmp).
    destruct (released_back _ _ _ _ _ _ Hcue Hq) as (bq0 & Hq0 & Hmq).
    eapply Hm; eauto. congruence.
Qed.

(** *** Runs of events *)

Section Events.
Hypothesis pockets_exclusive : forall pos : Vector2 F, exclusive pos pocketsPositions.

(** Every event is handled without a null or dangling dereference; the
    charge progress afterwards. *)
Lemma handle_total (e : Event F) (g : Game F) :
  wf g ->
  exists g', handle e g = Some (tt, g') /\ wf g' /\
    calls g' = calls g ++ newCalls g g' /\
    (forall k q, billBalls (table g') !! k = Some (Some q) ->
                 billBalls (table g) !! k = Some (Some q)) /\
    isChargingShot g' =
      match e with
      | EvUpdate _ => isChargingShot g
      | EvMouseButtonPressed _ _ => true
      | EvMouseButtonReleased _ _ => false
      end /\
    shotChargeProgress g' =
      match e with
      | EvUpdate dt => shotChargeProgress (charged dt g)
      | EvMouseButtonPressed _ _ => shotChargeProgress g
      | EvMouseButtonReleased _ _ => flit 0 1
      end.
Proof.
  intros Hwf. destruct e as [dt|x y|x y]; cbn [handle].
  - destruct (update_turns pockets_exclusive dt g Hwf) as (g' & Hup & Hwf' & Hp).
    exists g'. split; [exact Hup|]. split; [exact Hwf'|].
    split; [|split; [|split; [apply (tp_charging _ _ _ Hp)|apply (tp_progress _ _ _ Hp)]]].
    2:{ intros k q. apply (turnsPost_slot_live _ _ _ _ _ Hp). }
    assert (Hc : calls g' = calls g ++
              Scene_updateProgressBar (shotChargeProgress (charged dt g))
                :: newCalls (charged dt g) g').
    { rewrite (tp_calls _ _ _ Hp). cbn [charged calls]. by rewrite <- app_assoc. }
    by rewrite (newCalls_app _ _ _ Hc).
  - eexists. split; [reflexivity|]. split; [destruct Hwf; by split|].
    cbn [calls table isChargingShot shotChargeProgress].
    split; [|split; [auto|split; reflexivity]].
    rewrite (newCalls_app _ _ []); by rewrite List.app_nil_r.
  - destruct (wf_cue _ Hwf) as [cue Hcue].
    exists (released x y cue g). split; [by apply mouseButtonReleased_eq|].
    split; [by apply released_wf|].
    cbn [released calls table isChargingShot shotChargeProgress].
    split; [|split; [auto|split; reflexivity]].
    rewrite (newCalls_app _ _ []); by rewrite List.app_nil_r.
Qed.


(** Any run of events goes through on a well-formed state; slots are only
    ever cleared and the log only grows. *)
Lemma runEvents_total (evs : list (Event F)) : forall (g : Game F),
  wf g ->
  exists g', runEvents evs g = Some (tt, g') /\ wf g' /\
    calls g' = calls g ++ newCalls g g' /\
    (forall k q, billBalls (table g') !! k = Some (Some q) ->
                 billBalls (table g) !! k = Some (Some q)).
Proof.
  induction evs as [|e rest IH]; intros g Hwf.
  - exists g. split; [reflexivity|]. split; [exact Hwf|]. split; [|auto].
    rewrite (newCalls_app g g []); by rewrite List.app_nil_r.
  - destruct (handle_total e g Hwf) as (g1 & He & Hwf1 & Hc1 & Hs1 & _).
    destruct (IH g1 Hwf1) as (g' & Hr & Hwf' & Hc' & Hs').
    exists g'. split; [cbn [runEvents]; by rewrite (bind_eq _ _ _ _ _ He)|].
    split; [exact Hwf'|]. split; [|auto].
    rewrite (newCalls_app g g' (newCalls g g1 ++ newCalls g1 g')).
    + rewrite Hc', Hc1 at 1. by rewrite <- app_assoc.
    + rewrite Hc', Hc1 at 1. by rewrite <- app_assoc.
Qed.


End Events.

End Frame.

(** *** Checking well-formedness *)

Section Checker.
Context {F : Type} {FA : FloatArith F}.

Lemma livePointers_NoDup_lookup (l : list (option nat)) i j p :
  NoDup (livePointers l) -> l !! i = Some (Some p) -> l !! j = Some (Some p) -> i = j.
Proof.
  revert i j. induction l as [|s l IH]; intros i j Hnd Hi Hj; [discriminate|].
  assert (Hin : forall k, l !! k = Some (Some p) -> p ∈ livePointers l).
  { intros k Hk. apply list_elem_of_omap. exists (Some p). split; [|reflexivity].
    eapply list_elem_of_lookup_2; eauto. }
  destruct s as [q|]; unfold livePointers in *; cbn [omap list_omap] in Hnd.
  - apply list.NoDup_cons in Hnd as [Hq Hnd].
    destruct i as [|i], j as [|j]; cbn in Hi, Hj.
    + reflexivity.
    + inversion Hi; subst q. exfalso. apply Hq. eauto.
    + inversion Hj; subst q. exfalso. apply Hq. eauto.
    + f_equal. eauto.
  - destruct i as [|i], j as [|j]; cbn in Hi, Hj; try discriminate. f_equal. eauto.
Qed.

Lemma wfb_sound (g : Game F) : wfb g = true -> wf g.
Proof.
  unfold wfb. rewrite !andb_true_iff, !bool_decide_eq_true, forallb_forall.
  intros [[[Hv Hnd] Hc] Hm]. split.
  - intros l q Hl. apply lookup_lt_is_Some.
    apply list_elem_of_lookup_2, list_elem_of_In in Hl. apply Hv in Hl.
    by apply Nat.ltb_lt in Hl.
  - intros i j p. by apply livePointers_NoDup_lookup.
  - apply lookup_lt_is_Some. by apply Nat.ltb_lt.
  - intros p q bp bq Hp Hq Hmesh.
    apply (proj1 (NoDup_alt _) Hm p q (gameMesh bp)); rewrite list_lookup_fmap.
    + by rewrite Hp.
    + rewrite Hq. cbn. by rewrite Hmesh.
Qed.

End Checker.

Example wf_initialGame_check : wfb (initialGame (F := R) (fun i => i)) = true.
Proof. reflexivity. Qed.

Local Open Scope R_scope.

(** ** Real arithmetic *)

Ltac real_arith :=
  cbn [fadd fsub fmul fdiv fneg fsqrt fdivsqrt flt fle feq flit RealArith
       vx vy position speed gameMesh] in *.

Ltac params :=
  unfold pocketRadius, width, height, radius, frictionDeceleration,
         strikePower, chargeTime in *; real_arith.

Lemma sum_sq_nonneg a b : 0 <= a * a + b * b.
Proof. nra. Qed.

Lemma sq_bound a b c : 0 <= c -> a * a + b * b < c * c -> -c < a < c.
Proof.
  intros Hc H. assert (0 <= b * b) by nra.
  split; apply Rnot_le_lt; intros Hle.
  - assert (c * c <= a * a) by nra. lra.
  - assert (c * c <= a * a) by nra. lra.
Qed.

Lemma sq_bound_both a b c :
  0 <= c -> a * a + b * b < c * c -> -c < a < c /\ -c < b < c.
Proof.
  intros Hc H. split; [by apply (sq_bound a b)|].
  apply (sq_bound b a); [exact Hc|lra].
Qed.

Lemma dot_self_nonneg v : 0 <= dot v v.
Proof. apply sum_sq_nonneg. Qed.

Lemma norm_sq v : norm v * norm v = dot v v.
Proof. unfold norm. apply sqrt_sqrt, dot_self_nonneg. Qed.

Lemma norm_nonneg v : 0 <= norm v.
Proof. apply sqrt_pos. Qed.

Lemma dot_self_pos v : nonzero v -> 0 < dot v v.
Proof. unfold dot. intros [H|H]; nra. Qed.

Lemma norm_pos v : nonzero v -> 0 < norm v.
Proof. intros H. unfold norm. apply sqrt_lt_R0, dot_self_pos, H. Qed.

Lemma sqrt_lt_bound a c : 0 <= c -> sqrt a < c -> a < c * c.
Proof.
  intros Hc H. rewrite <- (sqrt_square c Hc) in H. by apply sqrt_lt_0_alt.
Qed.

Lemma sqrt_le_bound a c : 0 <= a -> 0 <= c -> sqrt a <= c -> a <= c * c.
Proof.
  intros Ha Hc H. rewrite <- (sqrt_square c Hc) in H.
  apply sqrt_le_0; auto. nra.
Qed.

Lemma sqrt_bound_lt a c : 0 <= a -> 0 <= c -> a < c * c -> sqrt a < c.
Proof.
  intros Ha Hc H. rewrite <- (sqrt_square c Hc). apply sqrt_lt_1; auto. nra.
Qed.


Lemma sqrt_not_lt a c : 0 <= c -> c * c <= a -> ~ sqrt a < c.
Proof. intros Hc Ha H. apply sqrt_lt_bound in H; lra. Qed.

Lemma sqrt_not_le a c : 0 <= c -> c * c < a -> ~ sqrt a <= c.
Proof. intros Hc Ha H. apply sqrt_le_bound in H; nra. Qed.

Lemma distance_real (p q : Vector2 R) :
  distance p q = norm (vsub p q).
Proof. reflexivity. Qed.

Lemma atPocket_real pos Q :
  atPocket pos Q = true <->
  (vx pos - vx Q) * (vx pos - vx Q) + (vy pos - vy Q) * (vy pos - vy Q) < 4 / 10 * (4 / 10).
Proof.
  unfold atPocket, distance. params. rewrite bool_decide_eq_true. split.
  - apply sqrt_lt_bound. lra.
  - intros H. apply sqrt_bound_lt.
    + apply sum_sq_nonneg.
    + lra.
    + exact H.
Qed.

Lemma pockets_exclusive_real (pos : Vector2 R) : exclusive pos pocketsPositions.
Proof.
  intros j1 j2 Q1 Q2 H1 H2 M1 M2.
  apply atPocket_real in M1, M2.
  apply sq_bound_both in M1, M2; [|lra|lra].
  unfold pocketsPositions in *. params.
  destruct j1 as [|[|[|[|[|[|]]]]]]; try discriminate; inversion H1; subst Q1; clear H1;
  destruct j2 as [|[|[|[|[|[|]]]]]]; try discriminate; inversion H2; subst Q2; clear H2;
  try reflexivity; exfalso; real_arith; lra.
Qed.

(** ** Collisions (C1) *)

Lemma normalizedVector_real v :
  normalizedVector v = mkVector2 (vx v / norm v) (vy v / norm v).
Proof. reflexivity. Qed.

Lemma normalizedVector_unit v : nonzero v -> norm (normalizedVector v) = 1.
Proof.
  intros Hv. pose proof (norm_pos v Hv) as Hn. pose proof (norm_sq v) as Hs.
  rewrite normalizedVector_real. unfold norm at 1. unfold dot at 1. cbn [vx vy].
  replace (vx v / norm v * (vx v / norm v) + vy v / norm v * (vy v / norm v))
    with (dot v v / (norm v * norm v)) by (unfold dot; field; lra).
  rewrite Hs. unfold Rdiv. rewrite Rinv_r by (rewrite <- Hs; nra). apply sqrt_1.
Qed.

Lemma vectorProjecction_real a b :
  nonzero b ->
  vectorProjecction a b = mkVector2 (dot a b / dot b b * vx b) (dot a b / dot b b * vy b).
Proof.
  intros Hb. pose proof (norm_pos b Hb) as Hn. pose proof (norm_sq b) as Hs.
  unfold vectorProjecction, normalizedVector. real_arith.
  fold (dot b b). fold (norm b). fold (dot a b).
  rewrite <- Hs. f_equal; field; lra.
Qed.

Lemma collideSpeeds_real (b1 b2 : BillBall R) :
  let guide := vsub (position b2) (position b1) in
  let g1 := vectorProjecction (speed b1) guide in
  let g2 := vectorProjecction (speed b2) guide in
  let n1 := fst (collideSpeeds b1 b2) in
  let n2 := snd (collideSpeeds b1 b2) in
  nonzero guide ->
  vadd n1 n2 = vadd (speed b1) (speed b2) /\
  vectorProjecction n1 guide = g2 /\
  vectorProjecction n2 guide = g1 /\
  vsub n1 (vectorProjecction n1 guide) = vsub (speed b1) g1 /\
  vsub n2 (vectorProjecction n2 guide) = vsub (speed b2) g2.
Proof.
  intros guide g1 g2 n1 n2 Hg. subst n1 n2.
  unfold collideSpeeds, getPosition, getSpeed. cbn [fst snd].
  real_arith. fold (vsub (position b2) (position b1)). fold guide. fold g1 g2.
  pose proof (dot_self_pos guide Hg) as Hd.
  subst g1 g2. rewrite !vectorProjecction_real by assumption.
  destruct guide as [gx gy], (speed b1) as [ux uy], (speed b2) as [wx wy].
  unfold vadd, vsub, dot in *. cbn [vx vy] in *.
  repeat split; f_equal; field; lra.
Qed.

Lemma alongAxis_unique (v d t : Vector2 R) (c : R) :
  nonzero d ->
  t = mkVector2 (c * vx d) (c * vy d) -> dot (vsub v t) d = 0 ->
  t = alongAxis v d.
Proof.
  intros Hd -> Hperp. pose proof (dot_self_pos d Hd) as Hp.
  unfold alongAxis, vsub, dot in *. cbn [vx vy] in *.
  assert (Hc : c = (vx v * vx d + vy v * vy d) / (vx d * vx d + vy d * vy d)).
  { apply (Rmult_eq_reg_r (vx d * vx d + vy d * vy d)); [|lra].
    unfold Rdiv. rewrite Rmult_assoc, Rinv_l by lra. lra. }
  by rewrite Hc.
Qed.

Lemma alongAxis_perpendicular (v d : Vector2 R) :
  nonzero d -> dot (acrossAxis v d) d = 0.
Proof.
  intros Hd. pose proof (dot_self_pos d Hd) as Hp.
  unfold acrossAxis, alongAxis, vsub, dot in *. cbn [vx vy] in *. field. lra.
Qed.

Lemma collideSpeeds_axis (b1 b2 : BillBall R) :
  let guide := vsub (position b2) (position b1) in
  let n1 := fst (collideSpeeds b1 b2) in
  let n2 := snd (collideSpeeds b1 b2) in
  nonzero guide ->
  alongAxis n1 guide = alongAxis (speed b2) guide /\
  alongAxis n2 guide = alongAxis (speed b1) guide /\
  acrossAxis n1 guide = acrossAxis (speed b1) guide /\
  acrossAxis n2 guide = acrossAxis (speed b2) guide.
Proof.
  intros guide n1 n2 Hg.
  destruct (collideSpeeds_real b1 b2 Hg) as (_ & H1 & H2 & H3 & H4).
  fold guide n1 n2 in H1, H2, H3, H4.
  rewrite !vectorProjecction_real in H1, H2, H3, H4 by exact Hg.
  unfold acrossAxis, alongAxis. auto.
Qed.

(** C1 (amended), read in the reals.  For two distinct ball objects at
    distinct positions, [collide] leaves the positions alone and the sum of
    the two velocities unchanged; the components of the two velocities along
    the line through the centres are exchanged and the components
    perpendicular to it are untouched.  The vectors [g1] and [g2] of the
    program are these components along the line. *)
Theorem collide_exchanges_axis_components
    (g : Game R) (ball1 ball2 : nat) (b1 b2 : BillBall R) :
  ball1 <> ball2 ->
  heap g !! ball1 = Some b1 -> heap g !! ball2 = Some b2 ->
  let guide := vsub (position b2) (position b1) in
  nonzero guide ->
  exists g' b1' b2',
    collide ball1 ball2 g = Some (tt, g') /\
    heap g' !! ball1 = Some b1' /\ heap g' !! ball2 = Some b2' /\
    position b1' = position b1 /\ position b2' = position b2 /\
    vadd (speed b1') (speed b2') = vadd (speed b1) (speed b2) /\
    alongAxis (speed b1') guide = alongAxis (speed b2) guide /\
    alongAxis (speed b2') guide = alongAxis (speed b1) guide /\
    acrossAxis (speed b1') guide = acrossAxis (speed b1) guide /\
    acrossAxis (speed b2') guide = acrossAxis (speed b2) guide /\
    vectorProjecction (speed b1) guide = alongAxis (speed b1) guide /\
    vectorProjecction (speed b2) guide = alongAxis (speed b2) guide.
Proof.
  intros Hne H1 H2 guide Hg.
  destruct (collideSpeeds_real b1 b2 Hg) as (Hsum & _).
  destruct (collideSpeeds_axis b1 b2 Hg) as (Ha1 & Ha2 & Hp1 & Hp2).
  fold guide in Ha1, Ha2, Hp1, Hp2.
  rewrite collide_eq by eauto.
  eexists _, (setSpeed (fst (collideSpeeds b1 b2)) b1),
             (setSpeed (snd (collideSpeeds b1 b2)) b2).
  split; [reflexivity|]. cbn [heap]. unfold collideHeap. rewrite H1, H2.
  assert (Hq : <[ball1 := setSpeed (fst (collideSpeeds b1 b2)) b1]> (heap g) !! ball2
               = Some b2) by (by rewrite list_lookup_insert_ne).
  rewrite Hq.
  split.
  { rewrite list_lookup_insert_ne by congruence.
    apply list_lookup_insert_eq. eapply lookup_lt_Some; eauto. }
  split.
  { apply list_lookup_insert_eq. rewrite length_insert. eapply lookup_lt_Some; eauto. }
  split; [reflexivity|]. split; [reflexivity|].
  cbn [setSpeed speed]. rewrite !Vector2_eta.
  repeat (split; [assumption|]).
  split; apply vectorProjecction_real; exact Hg.
Qed.

(** C1, as stated, fails in the program's arithmetic.  In [nearGame] the two
    balls are at distinct positions, 2^-100 apart: the guide vector is not
    zero, its squared length underflows to zero, and [collide] leaves both
    balls with a speed that is not a number in either component. *)
Lemma collide_underflow_binary32 :
  let g := nearGame (F := binary32) in
  match heap g !! 0%nat, heap g !! 1%nat, collide 0 1 g with
  | Some b1, Some b2, Some (_, g') =>
      feq (fsub (vx (position b2)) (vx (position b1))) (flit 0 1) = false /\
      match heap g' !! 0%nat, heap g' !! 1%nat with
      | Some b1', Some b2' =>
          speed b1' = mkVector2 S754_nan S754_nan /\
          speed b2' = mkVector2 S754_nan S754_nan
      | _, _ => False
      end
  | _, _, _ => False
  end.
Proof. vm_compute. auto. Qed.

(** ** The ball object and the shot (C8, C7, C9) *)

(** C8. The call [this->getNextPosition(dt)] returns the component-wise sum
    of the position and the speed of the object, whatever [dt] is, and leaves
    the whole state (so the object too) unchanged.  This holds in any
    arithmetic. *)
Theorem getNextPosition_is_position_plus_speed
    {F : Type} {FA : FloatArith F} (g : Game F) (this : nat) (b : BillBall F) (dt : F) :
  heap g !! this = Some b ->
  callGetNextPosition this dt g =
    Some (mkVector2 (fadd (vx (position b)) (vx (speed b)))
                    (fadd (vy (position b)) (vy (speed b))), g) /\
  forall dt', callGetNextPosition this dt' g = callGetNextPosition this dt g.
Proof.
  intros Hb. unfold callGetNextPosition.
  split; [|intros dt']; rewrite !(bind_eq _ _ _ _ _ (deref_eq _ _ _ Hb)); reflexivity.
Qed.

(** C7 (amended).  Read in the reals: [strike] with a non-zero direction
    keeps the position and the mesh and adds to the speed the power times
    the unit vector [n] of the direction, the vector of length 1 of which
    the direction is a positive multiple, so an impulse of magnitude
    |power|.  And releasing at (0, 0) with a full charge, the cue ball being
    at (-4.5, 0), changes its speed by exactly (1, 0), in the reals and in
    single precision. *)
Theorem strike_adds_impulse :
  (forall (b : BillBall R) (direction : Vector2 R) (power : R),
     nonzero direction ->
     let n := mkVector2 (vx direction / norm direction) (vy direction / norm direction) in
     position (strike direction power b) = position b /\
     gameMesh (strike direction power b) = gameMesh b /\
     speed (strike direction power b) =
       mkVector2 (vx (speed b) + vx n * power) (vy (speed b) + vy n * power) /\
     norm n = 1 /\ 0 < norm direction /\
     direction = mkVector2 (norm direction * vx n) (norm direction * vy n) /\
     norm (vsub (speed (strike direction power b)) (speed b)) = Rabs power) /\
  (forall (g : Game R) (cue : BillBall R),
     heap g !! ballToHit (table g) = Some cue ->
     position cue = mkVector2 (-45 / 10) 0 ->
     shotChargeProgress g = 1 ->
     exists g' cue',
       mouseButtonReleased 0 0 g = Some (tt, g') /\
       heap g' !! ballToHit (table g') = Some cue' /\
       position cue' = position cue /\
       vsub (speed cue') (speed cue) = mkVector2 1 0) /\
  match heap (chargedGame (F := binary32)) !! 0%nat,
        mouseButtonReleased (flit 0 1) (flit 0 1) (chargedGame (F := binary32)) with
  | Some cue, Some (_, g') =>
      position cue = mkVector2 (fneg (flit 45 10)) (flit 0 1) /\
      shotChargeProgress (chargedGame (F := binary32)) = flit 1 1 /\
      match heap g' !! 0%nat with
      | Some cue' =>
          position cue' = position cue /\
          fsub (vx (speed cue')) (vx (speed cue)) = flit 1 1 /\
          fsub (vy (speed cue')) (vy (speed cue)) = flit 0 1
      | None => False
      end
  | _, _ => False
  end.
Proof.
  split; [|split].
  - intros b direction power Hd n.
    pose proof (normalizedVector_unit direction Hd) as Hn.
    pose proof (norm_pos direction Hd) as Hpos.
    rewrite normalizedVector_real in Hn. fold n in Hn.
    split; [reflexivity|]. split; [reflexivity|]. split; [reflexivity|].
    split; [exact Hn|]. split; [exact Hpos|]. split.
    { subst n. cbn [vx vy]. rewrite <- (Vector2_eta direction) at 1.
      f_equal; field; lra. }
    unfold strike. rewrite normalizedVector_real. fold n. unfold vsub, norm, dot. real_arith.
    replace ((vx (speed b) + vx n * power - vx (speed b)) *
             (vx (speed b) + vx n * power - vx (speed b)) +
             (vy (speed b) + vy n * power - vy (speed b)) *
             (vy (speed b) + vy n * power - vy (speed b)))
      with (dot n n * (power * power)) by (unfold dot; ring).
    rewrite <- norm_sq, Hn.
    replace (1 * 1 * (power * power)) with (Rsqr power) by (unfold Rsqr; ring).
    apply sqrt_Rsqr_abs.
  - intros g cue Hcue Hpos Hprog.
    unfold mouseButtonReleased. rewrite Hcue.
    eexists _, _. split; [reflexivity|]. cbn [heap table].
    split; [apply list_lookup_insert_eq; eapply lookup_lt_Some; eauto|].
    split; [reflexivity|].
    unfold strike, normalizedVector, getPosition, vsub. rewrite Hpos, Hprog. params.
    replace (sqrt ((0 - -45 / 10) * (0 - -45 / 10) + (0 - 0) * (0 - 0))) with (45 / 10).
    + f_equal; field.
    + symmetry. apply sqrt_lem_1; lra.
  - vm_compute. auto 10.
Qed.

(** C7, as stated, fails in the program's arithmetic.  The direction
    (2^100, 0) is not zero, but its squared length overflows: the length is
    infinite, [normalizedVector] returns (0, 0), and [strike] with power 1
    adds nothing to the speed.  The same through a release at (2^100, 0)
    with a full charge. *)
Lemma strike_overflow_binary32 :
  let direction := mkVector2 (flit (2 ^ 100) 1) (flit 0 1) in
  feq (vx direction) (flit 0 1) = false /\
  isFinite (vx direction) = true /\
  speed (strike direction (flit 1 1) (nearCue (F := binary32))) = speed nearCue /\
  match heap (chargedGame (F := binary32)) !! 0%nat,
        mouseButtonReleased (flit (2 ^ 100) 1) (flit 0 1) (chargedGame (F := binary32)) with
  | Some cue, Some (_, g') =>
      match heap g' !! 0%nat with
      | Some cue' => speed cue' = speed cue
      | None => False
      end
  | _, _ => False
  end.
Proof. vm_compute. auto. Qed.

(** The release while no shot is being charged, read in the reals: the
    power is 0 * strikePower = 0 and the cue ball object is left exactly as
    it was, wherever the release point is.  In the reals the power 0
    annihilates whatever the normalization returns, so this reading cannot
    see the division by a zero length; C9 is therefore stated for the
    single-precision program below. *)
Lemma release_without_charge_real
    (g : Game R) (x y : R) (cue : BillBall R) :
  heap g !! ballToHit (table g) = Some cue ->
  isChargingShot g = false ->
  shotChargeProgress g = 0 ->
  let direction := mkVector2 (x - vx (position cue)) (y - vy (position cue)) in
  let power := shotChargeProgress g * strikePower in
  exists g',
    mouseButtonReleased x y g = Some (tt, g') /\
    power = 0 /\
    heap g' = <[ballToHit (table g) := strike direction power cue]> (heap g) /\
    strike direction power cue = cue /\
    heap g' = heap g /\ table g' = table g /\
    isChargingShot g' = false /\ shotChargeProgress g' = 0.
Proof.
  intros Hcue Hch Hprog direction power.
  assert (Hpow : power = 0) by (unfold power; rewrite Hprog; ring).
  assert (Hstrike : strike direction power cue = cue).
  { unfold strike. rewrite Hpow. destruct cue as [pos [sx sy] m]. real_arith.
    f_equal. f_equal; ring. }
  unfold mouseButtonReleased. rewrite Hcue. eexists. split; [reflexivity|].
  cbn [heap table isChargingShot shotChargeProgress]. real_arith.
  fold direction. unfold getPosition. fold direction power.
  repeat split; auto.
  - rewrite Hstrike. by apply list_insert_id.
  - unfold Rdiv. rewrite Rmult_0_l. reflexivity.
Qed.

Lemma strikePower_binary32 : strikePower (F := binary32) = S754_finite false 8388608 (-23).
Proof. reflexivity. Qed.

Lemma zero_binary32 : flit (F := binary32) 0 1 = S754_zero false.
Proof. reflexivity. Qed.

Lemma feq_zero_binary32 (x : binary32) :
  feq x (flit 0 1) = true -> exists s, x = S754_zero s.
Proof.
  rewrite zero_binary32. destruct x as [s| | |s m e]; cbn; try discriminate; eauto.
  all: destruct s; discriminate.
Qed.

(** What adding a multiple of a zero power does to a speed component. *)
Lemma add_zero_impulse (v n power : binary32) :
  feq power (flit 0 1) = true ->
  if isFinite n then sameNumber (fadd v (fmul n power)) v
  else fadd v (fmul n power) = S754_nan.
Proof.
  intros Hp. apply feq_zero_binary32 in Hp as [s ->].
  destruct n as [sn| | |sn mn en]; cbn [isFinite fadd fmul Binary32 SFmul].
  - destruct v as [sv| | |sv mv ev]; cbn; [|by left..].
    right. destruct sv, (xorb sn s); eauto.
  - by destruct v.
  - by destruct v.
  - destruct v as [sv| | |sv mv ev]; cbn; [|by left..].
    right. destruct sv, (xorb sn s); eauto.
Qed.

(** C9 (amended), in the program's arithmetic.  A release while no shot is
    being charged (flag false, progress 0) still strikes the cue ball, with
    the power 0 * strikePower = 0.  Position and mesh are kept, and each
    component of the speed is the same number as before (a zero may have
    changed its sign) when the corresponding component of the normalized
    direction is finite, and not a number when it is not. *)
Theorem release_without_charge_keeps_cue_speed
    (g : Game binary32) (x y : binary32) (cue : BillBall binary32) :
  heap g !! ballToHit (table g) = Some cue ->
  isChargingShot g = false ->
  feq (shotChargeProgress g) (flit 0 1) = true ->
  let direction :=
    mkVector2 (fsub x (vx (position cue))) (fsub y (vy (position cue))) in
  let power := fmul (shotChargeProgress g) strikePower in
  let n := normalizedVector direction in
  exists g' cue',
    mouseButtonReleased x y g = Some (tt, g') /\
    feq power (flit 0 1) = true /\
    cue' = strike direction power cue /\
    heap g' = <[ballToHit (table g) := cue']> (heap g) /\
    table g' = table g /\ calls g' = calls g /\
    isChargingShot g' = false /\ shotChargeProgress g' = flit 0 1 /\
    position cue' = position cue /\ gameMesh cue' = gameMesh cue /\
    (if isFinite (vx n) then sameNumber (vx (speed cue')) (vx (speed cue))
     else vx (speed cue') = S754_nan) /\
    (if isFinite (vy n) then sameNumber (vy (speed cue')) (vy (speed cue))
     else vy (speed cue') = S754_nan).
Proof.
  intros Hcue Hflag Hprog direction power n.
  assert (Hpow : feq power (flit 0 1) = true).
  { unfold power. apply feq_zero_binary32 in Hprog as [s ->].
    rewrite strikePower_binary32. by destruct s. }
  unfold mouseButtonReleased. rewrite Hcue. unfold getPosition. fold direction power.
  eexists _, _. split; [reflexivity|]. split; [exact Hpow|]. split; [reflexivity|].
  cbn [heap table calls isChargingShot shotChargeProgress].
  do 7 (split; [reflexivity|]).
  unfold strike. fold n. cbn [speed vx vy].
  split; by apply add_zero_impulse.
Qed.

(** C9, as stated, fails in the program's arithmetic.  On the initial
    layout, with no shot being charged, a release at a point that differs
    from the cue ball's position, by 2^-100 on y, leaves the cue ball with a
    speed that is not a number: the squared length of the direction
    underflows to zero, and the quotients 0/0 and 2^-100/0 times the power 0
    are NaN. *)
Lemma release_near_cue_binary32 :
  let g := initialGame (F := binary32) (fun i => i) in
  match heap g !! 0%nat with
  | Some cue =>
      let x := vx (position cue) in
      let y := flit 1 (2 ^ 100) in
      isChargingShot g = false /\ shotChargeProgress g = flit 0 1 /\
      feq y (vy (position cue)) = false /\
      feq (vx (speed cue)) (flit 0 1) = true /\ feq (vy (speed cue)) (flit 0 1) = true /\
      match mouseButtonReleased x y g with
      | Some (_, g') =>
          match heap g' !! 0%nat with
          | Some cue' => speed cue' = mkVector2 S754_nan S754_nan
          | None => False
          end
      | None => False
      end
  | None => False
  end.
Proof. vm_compute. auto 10. Qed.

(** ** Boundary reflection (C3, C2) *)

Ltac decide_real :=
  repeat match goal with
  | |- context [bool_decide ?P] =>
      first [ rewrite (bool_decide_eq_true_2 P) by lra
            | rewrite (bool_decide_eq_false_2 P) by lra ]
  end.

Ltac ball_ops :=
  cbn [setPosition setSpeed getPosition getSpeed getMesh position speed gameMesh vx vy] in *.

(** C3. [ricochet] on a ball beyond the right and the top edge at once: the
    speed is negated on both axes and y is mirrored, but x is left at its
    out-of-bounds value (the y branch writes back the stale local [x]); read
    in the reals and in single precision. *)
Theorem ricochet_corner_loses_x_mirror :
  (ricochet (cornerBall (F := R)) =
     mkBillBall (mkVector2 (721 / 100) (369 / 100))
                (mkVector2 (- (21 / 100)) (- (21 / 100))) 0 /\
   721 / 100 + radius > 5 / 10 * width) /\
  (let b := ricochet (cornerBall (F := binary32)) in
   vx (position b) = flit 721 100 /\
   flt (fmul (flit 5 10) width) (fadd (vx (position b)) radius) = true /\
   speed b = mkVector2 (fneg (flit 21 100)) (fneg (flit 21 100))).
Proof.
  split; [|vm_compute; auto].
  split; [|params; lra].
  unfold ricochet, cornerBall. ball_ops. params.
  decide_real. ball_ops. decide_real. ball_ops. decide_real. ball_ops. decide_real.
  unfold setSpeed, setPosition. ball_ops. f_equal. f_equal; lra.
Qed.

Lemma inTable_real (pos : Vector2 R) :
  inTable pos <->
  - (75 / 10) <= vx pos - 3 / 10 /\ vx pos + 3 / 10 <= 75 / 10 /\
  - 4 <= vy pos - 3 / 10 /\ vy pos + 3 / 10 <= 4.
Proof.
  unfold inTable, outOfTable. params.
  rewrite !orb_false_iff, !bool_decide_eq_false. lra.
Qed.

(** Out of bounds on one axis only, and not too deep: [ricochet] brings the
    ball back inside. *)
Lemma ricochet_one_axis (b : BillBall R) :
  offX (position b) && offY (position b) = false ->
  shallow (position b) ->
  inTable (position (ricochet b)).
Proof.
  destruct b as [[x y] [sx sy] m]. unfold offX, offY, shallow. params.
  intros Hoff (Hx1 & Hx2 & Hy1 & Hy2).
  unfold ricochet. ball_ops. params.
  repeat (case_bool_decide; ball_ops; cbn [orb andb] in Hoff |- *); try discriminate;
    apply inTable_real; ball_ops; lra.
Qed.

(** Inside the table [ricochet] does nothing. *)
Lemma ricochet_inside (b : BillBall R) : inTable (position b) -> ricochet b = b.
Proof.
  destruct b as [[x y] [sx sy] m]. intros Hin. apply inTable_real in Hin.
  unfold ricochet. ball_ops. params.
  repeat (case_bool_decide; ball_ops); try lra. reflexivity.
Qed.

(** The stages of a frame around the turn of a live slot, in the reals. *)
Lemma live_turn_stages dt i p (g : Game R) :
  wf g -> billBalls (table g) !! i = Some (Some p) ->
  exists g1 g2 g3 b1,
    beforeTurn dt i g = Some (tt, g1) /\ turnsPost (seq 0 i) (charged dt g) g1 /\
    wf g1 /\ billBalls (table g1) !! i = Some (Some p) /\ heap g1 !! p = Some b1 /\
    updateBall dt i g1 = Some (tt, g2) /\ turnsPost [i] g1 g2 /\ wf g2 /\
    turnsPost (seq (S i) (length (billBalls (table g)) - S i)) g2 g3 /\
    notInSlots (seq (S i) (length (billBalls (table g)) - S i)) g2 p /\
    update dt g = Some (tt, g3) /\ wf g3 /\
    newCalls g g3 =
      Scene_updateProgressBar (shotChargeProgress (charged dt g))
        :: newCalls (charged dt g) g1 ++ newCalls g1 g2 ++ newCalls g2 g3.
Proof.
  intros Hwf Hs.
  assert (Hi : (i < length (billBalls (table g)))%nat) by (eapply lookup_lt_Some; eauto).
  destruct (update_stages pockets_exclusive_real dt i g Hwf Hi)
    as (g1 & g2 & g3 & Hb1 & Hp1 & H2 & Hp2 & H3 & Hp3 & Hup & Hwf1 & Hwf2 & Hwf3 & Hcalls).
  assert (Hs1 : billBalls (table g1) !! i = Some (Some p)).
  { rewrite (tp_slots_other _ _ _ Hp1) by apply not_elem_of_seq_before. exact Hs. }
  destruct (wf_valid _ Hwf1 _ _ Hs1) as [b1 Hb].
  exists g1, g2, g3, b1. repeat (split; [assumption|]).
  split; [|auto].
  apply (notInSlots_after _ [i] i p g1 g2 Hwf1 Hs1 Hp2), not_elem_of_seq_after.
Qed.



(** ** Pocket capture (C4) *)



(** ** Balls at rest (C10) *)

Lemma friction_atRest (b : BillBall R) : atRest b -> friction b = b.
Proof.
  intros [Hx Hy]. unfold friction, getSpeed. real_arith. rewrite Hx, Hy.
  rewrite (bool_decide_eq_true_2 (0 = 0 / 1)) by lra. reflexivity.
Qed.

Lemma getNextPosition_atRest (b : BillBall R) dt :
  atRest b -> getNextPosition b dt = position b.
Proof.
  intros [Hx Hy]. unfold getNextPosition. real_arith. rewrite Hx, Hy, !Rplus_0_r.
  apply Vector2_eta.
Qed.

Lemma no_pocket_in_range (pos : Vector2 R) :
  (forall Q, In Q pocketsPositions -> ~ distance pos Q < pocketRadius) ->
  existsb (atPocket pos) pocketsPositions = false.
Proof.
  intros H. destruct (existsb _ _) eqn:E; [exfalso|reflexivity].
  apply existsb_exists in E as (Q & HQ & Hat). apply (H Q HQ).
  unfold atPocket in Hat. real_arith. by apply bool_decide_eq_true in Hat.
Qed.


(** ** Friction (C5) *)

Lemma sq_abs a : a * a = Rabs a * Rabs a.
Proof. rewrite <- Rabs_mult. symmetry. apply Rabs_pos_eq. nra. Qed.

Lemma Rabs_zero a : Rabs a = 0 -> a = 0.
Proof.
  intros H. destruct (Req_dec a 0) as [E|E]; [exact E|].
  exfalso. exact (Rabs_no_R0 a E H).
Qed.

Lemma norm_scaled k (v v' : Vector2 R) :
  0 <= k -> Rabs (vx v') = k * Rabs (vx v) -> Rabs (vy v') = k * Rabs (vy v) ->
  norm v' = k * norm v.
Proof.
  intros Hk Hx Hy. unfold norm, dot.
  rewrite (sq_abs (vx v')), (sq_abs (vy v')), Hx, Hy.
  replace (k * Rabs (vx v) * (k * Rabs (vx v)) + k * Rabs (vy v) * (k * Rabs (vy v)))
    with (k * k * (vx v * vx v + vy v * vy v))
    by (rewrite (sq_abs (vx v)), (sq_abs (vy v)); ring).
  rewrite sqrt_mult by (try apply sum_sq_nonneg; nra).
  by rewrite sqrt_square.
Qed.

Lemma norm_zero (v : Vector2 R) : norm v = 0 -> vx v = 0 /\ vy v = 0.
Proof.
  intros H. pose proof (norm_sq v) as Hs. rewrite H in Hs. unfold dot in Hs.
  split; nra.
Qed.

Lemma norm_of_zero (v : Vector2 R) : vx v = 0 -> vy v = 0 -> norm v = 0.
Proof.
  intros Hx Hy. unfold norm, dot. rewrite Hx, Hy.
  replace (0 * 0 + 0 * 0) with 0 by ring. apply sqrt_0.
Qed.

Lemma decayed_refl v : decayed 0 v v.
Proof.
  split.
  - exists 1. repeat split; lra.
  - right. cbn [INR]. lra.
Qed.

Lemma decayed_trans n v v1 v' :
  decayed 1 v v1 -> decayed n v1 v' -> decayed (S n) v v'.
Proof.
  intros [(k1 & Hk1 & Hx1 & Hy1) Hn1] [(k2 & Hk2 & Hx2 & Hy2) Hn2]. split.
  - exists (k2 * k1). split; [nra|]. rewrite Hx2, Hy2, Hx1, Hy1. split; ring.
  - destruct Hn1 as [[Hx Hy]|Hn1].
    + left. rewrite Hx, Rabs_R0, Rmult_0_r in Hx2. rewrite Hy, Rabs_R0, Rmult_0_r in Hy2.
      split; by apply Rabs_zero.
    + destruct Hn2 as [Hz|Hn2]; [by left|right].
      rewrite Hn2, Hn1, (S_INR n). change (INR 1) with 1. ring.
Qed.

Lemma decayed_abs n v v1 v1' :
  Rabs (vx v1') = Rabs (vx v1) -> Rabs (vy v1') = Rabs (vy v1) ->
  decayed n v v1 -> decayed n v v1'.
Proof.
  intros Hx Hy [(k & Hk & Hkx & Hky) Hn]. split.
  - exists k. rewrite Hx, Hy. auto.
  - destruct Hn as [[Hx0 Hy0]|Hn].
    + left. rewrite Hx0, Rabs_R0 in Hx. rewrite Hy0, Rabs_R0 in Hy.
      split; by apply Rabs_zero.
    + right. rewrite <- Hn. rewrite (norm_scaled 1 v1 v1'); lra.
Qed.

Lemma ratio_bounds d n : 0 < d -> d < n -> 0 < d / n < 1.
Proof.
  intros Hd Hn. assert (Hi : 0 < / n) by (apply Rinv_0_lt_compat; lra).
  assert (Hn0 : n <> 0) by lra.
  unfold Rdiv. split; [apply Rmult_lt_0_compat; lra|].
  apply (Rmult_lt_compat_r (/ n)) in Hn; [|exact Hi].
  by rewrite Rinv_r in Hn.
Qed.

(** Friction scales the speed by a factor in [0, 1]: it never reverses it. *)
Lemma friction_scales (b : BillBall R) :
  exists k, 0 <= k <= 1 /\
    vx (speed (friction b)) = k * vx (speed b) /\
    vy (speed (friction b)) = k * vy (speed b) /\
    (nonzero (speed b) -> k < 1) /\
    ((vx (speed (friction b)) = 0 /\ vy (speed (friction b)) = 0) \/
     k = 1 - frictionDeceleration / norm (speed b) /\ 0 < k /\
     frictionDeceleration < norm (speed b)).
Proof.
  destruct b as [pos [sx sy] m].
  unfold friction, normalizedVector, getSpeed, nonzero. ball_ops. params.
  destruct (bool_decide (sx = 0 / 1)) eqn:Ex; destruct (bool_decide (sy = 0 / 1)) eqn:Ey;
    cbn [negb orb];
    try apply bool_decide_eq_true in Ex; try apply bool_decide_eq_true in Ey;
    try apply bool_decide_eq_false in Ex; try apply bool_decide_eq_false in Ey.
  { exists 1. ball_ops. split; [lra|]. split; [lra|]. split; [lra|].
    split; [intros [H|H]; lra|]. left. lra. }
  all: case_bool_decide as Hsmall; ball_ops.
  all: try (exists 0; (split; [lra|]); (split; [lra|]); (split; [lra|]);
            (split; [intros _; lra|]); left; lra).
  all: fold (dot (mkVector2 sx sy) (mkVector2 sx sy)) in *;
       fold (norm (mkVector2 sx sy)) in *;
       pose proof (norm_sq (mkVector2 sx sy)) as Hsq;
       pose proof (norm_nonneg (mkVector2 sx sy)) as Hnn;
       set (n := norm (mkVector2 sx sy)) in *;
       assert (Hn : 3 / 1000 < n)
         by (apply Rnot_le_lt; intros Hle; apply Hsmall;
             assert (n * n <= 3 / 1000 * (3 / 1000)) by (apply Rmult_le_compat; lra);
             unfold dot in Hsq; cbn [vx vy] in Hsq; lra);
       assert (Hk : 0 < 3 / 1000 / n < 1) by (apply ratio_bounds; lra);
       exists (1 - 3 / 1000 / n);
       change (sqrt (sx * sx + sy * sy)) with n;
       (split; [lra|]); (split; [field; lra|]); (split; [field; lra|]);
       (split; [intros _; lra|]); right; split; [reflexivity|lra].
Qed.

Lemma friction_decay (b : BillBall R) : decayed 1 (speed b) (speed (friction b)).
Proof.
  destruct (friction_scales b) as (k & Hk & Hx & Hy & _ & Hn). split.
  - exists k. split; [exact Hk|]. rewrite Hx, Hy, !Rabs_mult, (Rabs_pos_eq k) by lra. auto.
  - destruct Hn as [Hz|(Hkn & Hpos & Hd)]; [by left|right].
    rewrite (norm_scaled k (speed b)).
    + change (INR 1) with 1. rewrite Hkn. field.
      unfold frictionDeceleration in Hd. real_arith. lra.
    + lra.
    + rewrite Hx, Rabs_mult, (Rabs_pos_eq k) by lra. reflexivity.
    + rewrite Hy, Rabs_mult, (Rabs_pos_eq k) by lra. reflexivity.
Qed.

(** [ricochet] changes at most the signs of the speed components. *)
Lemma ricochet_speed_abs (c : BillBall R) :
  Rabs (vx (speed (ricochet c))) = Rabs (vx (speed c)) /\
  Rabs (vy (speed (ricochet c))) = Rabs (vy (speed c)).
Proof.
  destruct c as [[x y] [sx sy] m]. unfold ricochet. ball_ops. params.
  repeat (case_bool_decide; ball_ops); rewrite ?Rabs_Ropp; auto.
Qed.

Lemma afterBoundary_decay P (b : BillBall R) :
  decayed 1 (speed b) (speed (afterBoundary P b)).
Proof.
  unfold afterBoundary. destruct (outOfTable P); [|apply friction_decay].
  destruct (ricochet_speed_abs (setPosition P (friction b))) as [Hx Hy].
  eapply decayed_abs; [exact Hx|exact Hy|]. cbn [setPosition speed]. apply friction_decay.
Qed.

Lemma decayed_shorter n v v' :
  (0 < n)%nat -> nonzero v -> decayed n v v' -> norm v' < norm v.
Proof.
  intros Hn Hv [_ Hd]. pose proof (norm_pos v Hv) as Hp.
  destruct Hd as [[Hx Hy]|Hd].
  - by rewrite (norm_of_zero v' Hx Hy).
  - rewrite Hd. assert (1 <= INR n) by (apply (le_INR 1); lia).
    unfold frictionDeceleration. real_arith. nra.
Qed.

Lemma decayed_stop n v v' :
  norm v <= INR n * frictionDeceleration -> decayed n v v' ->
  vx v' = 0 /\ vy v' = 0.
Proof.
  intros Hle [_ [Hz|Hd]]; [exact Hz|].
  apply norm_zero. pose proof (norm_nonneg v'). lra.
Qed.

Lemma decayed_rest n v v' :
  vx v = 0 -> vy v = 0 -> decayed n v v' -> vx v' = 0 /\ vy v' = 0.
Proof.
  intros Hx Hy [(k & _ & Hkx & Hky) _].
  rewrite Hx, Rabs_R0, Rmult_0_r in Hkx. rewrite Hy, Rabs_R0, Rmult_0_r in Hky.
  split; by apply Rabs_zero.
Qed.

(** One frame for a ball that is neither captured nor in any collision. *)
Lemma frame_decay dt i p b (g g' : Game R) :
  wf g -> billBalls (table g) !! i = Some (Some p) -> heap g !! p = Some b ->
  update dt g = Some (tt, g') ->
  billBalls (table g') !! i = Some (Some p) ->
  Forall (fun c => ~ inCollision p c) (newCalls g g') ->
  exists b', heap g' !! p = Some b' /\ decayed 1 (speed b) (speed b').
Proof.
  intros Hwf Hs Hb Hup' Hlive Hquiet.
  destruct (live_turn_stages dt i p g Hwf Hs)
    as (g1 & g2 & g3 & b1 & Hb1 & Hp1 & Hwf1 & Hs1 & Hh1 & H2 & Hp2 & Hwf2 & Hp3
        & Hnot & Hup & Hwf3 & Hcalls).
  rewrite Hup in Hup'. inversion Hup'; subst g'. clear Hup'.
  rewrite Hcalls in Hquiet.
  apply List.Forall_cons_iff in Hquiet as [_ Hquiet].
  apply Forall_app in Hquiet as [Hq1 Hquiet].
  apply Forall_app in Hquiet as [Hq2 Hq3].
  assert (Hno : forall (cs : list (Call R)) a c, Forall (fun c => ~ inCollision p c) cs ->
            c = PhysicEvents_collide a p \/ c = PhysicEvents_collide p a -> c ∉ cs).
  { intros cs a c Hcs Hc Hin. rewrite List.Forall_forall in Hcs.
    apply list_elem_of_In in Hin. apply (Hcs _ Hin).
    destruct Hc as [-> | ->]; cbn; auto. }
  assert (Hh : heap g1 !! p = Some b).
  { rewrite (tp_other _ _ _ Hp1); [exact Hb| |].
    - apply (notInSlots_after _ [] i p (charged dt g) (charged dt g));
        auto using charged_wf, turnsPost_refl, not_elem_of_seq_before.
    - intros q. apply (Hno _ q); auto. }
  rewrite Hh in Hh1. inversion Hh1; subst b1. clear Hh1.
  assert (Hs2 : billBalls (table g2) !! i = Some (Some p)).
  { rewrite <- (tp_slots_other _ _ _ Hp3) by apply not_elem_of_seq_after. exact Hlive. }
  assert (Hat : existsb (atPocket (getNextPosition b dt)) pocketsPositions = false).
  { destruct (existsb _ _) eqn:Hat; [exfalso|reflexivity].
    rewrite (updateBall_captured pockets_exclusive_real dt i p b g1 Hs1 Hh Hat) in H2.
    inversion H2; subst g2. cbn [captured table billBalls] in Hs2.
    rewrite list_lookup_insert_eq in Hs2 by (eapply lookup_lt_Some; eauto). discriminate. }
  pose proof (own_turn_quiet pockets_exclusive_real dt i p b g1 g2 Hwf1 Hs1 Hh H2 Hat) as Hown.
  cbv zeta in Hown.
  eexists. split.
  - rewrite (tp_other _ _ _ Hp3); [apply Hown| exact Hnot |].
    + intros q. apply (Hno _ q); auto.
    + intros q. apply (Hno _ q); auto.
  - cbn [setPosition speed]. apply afterBoundary_decay.
Qed.

Lemma frames_decay (dts : list R) i p : forall b (g g' : Game R),
  wf g -> billBalls (table g) !! i = Some (Some p) -> heap g !! p = Some b ->
  runEvents (map EvUpdate dts) g = Some (tt, g') ->
  billBalls (table g') !! i = Some (Some p) ->
  Forall (fun c => ~ inCollision p c) (newCalls g g') ->
  exists b', heap g' !! p = Some b' /\ decayed (length dts) (speed b) (speed b').
Proof.
  induction dts as [|dt rest IH]; intros b g g' Hwf Hs Hb Hrun Hlive Hquiet.
  - inversion Hrun; subst g'. exists b. split; [exact Hb|apply decayed_refl].
  - cbn [map runEvents handle] in Hrun.
    destruct (handle_total pockets_exclusive_real (EvUpdate dt) g Hwf)
      as (g1 & Hup & Hwf1 & Hc1 & Hs1 & _). cbn [handle] in Hup.
    rewrite (bind_eq _ _ _ _ _ Hup) in Hrun.
    destruct (runEvents_total pockets_exclusive_real (map EvUpdate rest) g1 Hwf1)
      as (g'' & Hrun' & _ & Hc' & Hs').
    rewrite Hrun' in Hrun. inversion Hrun; subst g''. clear Hrun.
    assert (Hn : newCalls g g' = newCalls g g1 ++ newCalls g1 g').
    { apply newCalls_app. rewrite Hc', Hc1 at 1. by rewrite <- app_assoc. }
    rewrite Hn in Hquiet. apply Forall_app in Hquiet as [Hq1 Hq2].
    assert (Hlive1 : billBalls (table g1) !! i = Some (Some p)) by auto.
    destruct (frame_decay dt i p b g g1 Hwf Hs Hb Hup Hlive1 Hq1) as (b1 & Hb1 & Hd1).
    destruct (IH b1 g1 g' Hwf1 Hlive1 Hb1 Hrun' Hlive Hq2) as (b' & Hb' & Hd').
    exists b'. split; [exact Hb'|]. cbn [length]. eapply decayed_trans; eauto.
Qed.

(** C5 (amended), read in the reals.  Friction scales the speed vector by a
    factor in [0, 1] (below 1 when the ball moves), so it never reverses it.
    Over any number of frames in which the ball is neither captured nor in a
    collision, its speed is the initial one scaled by a factor in [0, 1] up
    to the signs changed by wall reflections; it is strictly shorter as soon
    as one frame has run and the ball was moving, it is exactly zero once
    the number of frames times the friction deceleration reaches the initial
    speed, and a ball at rest stays at rest. *)
Theorem friction_stops_ball
    (dts : list R) (g : Game R) (i p : nat) (b : BillBall R) :
  wf g ->
  billBalls (table g) !! i = Some (Some p) ->
  heap g !! p = Some b ->
  (forall c : BillBall R, exists k, 0 <= k <= 1 /\
     (nonzero (speed c) -> k < 1) /\
     speed (friction c) = mkVector2 (k * vx (speed c)) (k * vy (speed c))) /\
  exists g',
    runEvents (map EvUpdate dts) g = Some (tt, g') /\
    (billBalls (table g') !! i = Some (Some p) ->
     Forall (fun c => ~ inCollision p c) (newCalls g g') ->
     exists b',
       heap g' !! p = Some b' /\
       decayed (length dts) (speed b) (speed b') /\
       (dts <> [] -> nonzero (speed b) -> norm (speed b') < norm (speed b)) /\
       (norm (speed b) <= INR (length dts) * frictionDeceleration ->
        speed b' = mkVector2 0 0) /\
       (atRest b -> speed b' = mkVector2 0 0)).
Proof.
  intros Hwf Hs Hb. split.
  { intros c. destruct (friction_scales c) as (k & Hk & Hx & Hy & Hlt & _).
    exists k. split; [exact Hk|]. split; [exact Hlt|].
    rewrite <- Hx, <- Hy. symmetry. apply Vector2_eta. }
  destruct (runEvents_total pockets_exclusive_real (map EvUpdate dts) g Hwf)
    as (g' & Hrun & _).
  exists g'. split; [exact Hrun|]. intros Hlive Hquiet.
  destruct (frames_decay dts i p b g g' Hwf Hs Hb Hrun Hlive Hquiet) as (b' & Hb' & Hd).
  assert (Hzero : forall v : Vector2 R, vx v = 0 /\ vy v = 0 -> v = mkVector2 0 0).
  { intros [x y] [Hx Hy]. cbn in Hx, Hy. by subst. }
  exists b'. split; [exact Hb'|]. split; [exact Hd|]. split; [|split].
  - intros Hne Hv. apply (decayed_shorter (length dts) (speed b)); [|exact Hv|exact Hd].
    destruct dts; [congruence|cbn [length]; lia].
  - intros Hle. apply Hzero. eapply decayed_stop; eauto.
  - intros [Hx Hy]. apply Hzero. eapply decayed_rest; eauto.
Qed.

(** C5, as stated, fails in the program's arithmetic.  The cue ball of
    [fastGame] has the speed (0, 100000).  Half the distance between two
    neighbouring floats at 100000 is 2^-8, more than the friction
    deceleration 0.003: the decrement is absorbed by rounding and [friction]
    returns the speed it was given.  After [update] the ball is still on the
    table, no [collide] was called, and its speed is the same float in both
    components (the two wall reflections of the frame negate it twice). *)
Lemma update_keeps_fast_speed_binary32 :
  let g := fastGame (F := binary32) in
  match heap g !! 0%nat, update (flit 1 60) g with
  | Some b, Some (_, g') =>
      feq (vy (speed b)) (flit 0 1) = false /\
      speed (friction b) = speed b /\
      billBalls (table g') !! 0%nat = Some (Some 0%nat) /\
      existsb isCollide (calls g') = false /\
      match heap g' !! 0%nat with
      | Some b' => speed b' = speed b
      | None => False
      end
  | _, _ => False
  end.
Proof. vm_compute. auto 10. Qed.

(** ** The charge of the shot (C6) *)

Lemma charged_progress_bounds dt (g : Game R) :
  shotChargeProgress g <= 1 ->
  shotChargeProgress (charged dt g) <= 1 /\
  (0 <= dt -> 0 <= shotChargeProgress g -> 0 <= shotChargeProgress (charged dt g)).
Proof.
  intros Hle. unfold charged, fmin, chargeTime. cbn [shotChargeProgress]. real_arith.
  destruct (isChargingShot g); [|auto].
  case_bool_decide; split; intros; lra.
Qed.

Lemma charge_progress_run (evs : list (Event R)) : forall g : Game R,
  wf g -> shotChargeProgress g <= 1 ->
  exists g', runEvents evs g = Some (tt, g') /\
    shotChargeProgress g' <= 1 /\
    (0 <= shotChargeProgress g -> Forall nonnegDt evs -> 0 <= shotChargeProgress g') /\
    (forall x y, list.last evs = Some (EvMouseButtonReleased x y) -> shotChargeProgress g' = 0).
Proof.
  induction evs as [|e rest IH]; intros g Hwf Hle.
  - exists g. split; [reflexivity|]. split; [exact Hle|]. split; [auto|]. discriminate.
  - destruct (handle_total pockets_exclusive_real e g Hwf)
      as (g1 & He & Hwf1 & _ & _ & _ & Hprog).
    assert (Hle1 : shotChargeProgress g1 <= 1).
    { rewrite Hprog. destruct e; [apply charged_progress_bounds; exact Hle|exact Hle|].
      real_arith. lra. }
    destruct (IH g1 Hwf1 Hle1) as (g' & Hr & Hle' & Hge' & Hlast).
    exists g'. split; [cbn [runEvents]; by rewrite (bind_eq _ _ _ _ _ He)|].
    split; [exact Hle'|]. split.
    + intros Hge Hnn. apply List.Forall_cons_iff in Hnn as [Hdt Hnn].
      apply Hge'; [|exact Hnn]. rewrite Hprog.
      destruct e; [by apply charged_progress_bounds|exact Hge|]. real_arith. lra.
    + intros x y Hl. destruct rest as [|e' rest'].
      * cbn in Hl. inversion Hl; subst e. inversion Hr; subst g'.
        rewrite Hprog. real_arith. lra.
      * apply (Hlast x y). exact Hl.
Qed.

(** C6 (amended). From a well-formed state whose charge progress is in
    [0, 1], any run of [update], press and release calls goes through and
    leaves a progress that is at most 1; it is at least 0 when no frame time
    is negative; and it is exactly 0 when the run ends with a release. *)
Theorem charge_progress_clamped (evs : list (Event R)) (g : Game R) :
  wf g ->
  0 <= shotChargeProgress g <= 1 ->
  exists g',
    runEvents evs g = Some (tt, g') /\
    shotChargeProgress g' <= 1 /\
    (Forall nonnegDt evs -> 0 <= shotChargeProgress g') /\
    (forall x y, list.last evs = Some (EvMouseButtonReleased x y) ->
       shotChargeProgress g' = 0).
Proof.
  intros Hwf [Hge Hle].
  destruct (charge_progress_run evs g Hwf Hle) as (g' & Hr & Hle' & Hge' & Hlast).
  exists g'. auto.
Qed.

(** C6, as stated, fails: a negative frame time while charging takes the
    progress below 0 (in the reals and in single precision). *)
Lemma charge_progress_negative_dt :
  (exists g',
     runEvents [EvMouseButtonPressed 0 0; EvUpdate (-1)]
               (initialGame (F := R) (fun i => i)) = Some (tt, g') /\
     shotChargeProgress g' < 0) /\
  match runEvents [EvMouseButtonPressed (flit 0 1) (flit 0 1); EvUpdate (fneg (flit 1 1))]
                  (initialGame (F := binary32) (fun i => i)) with
  | Some (_, g') => flt (shotChargeProgress g') (flit 0 1) = true
  | None => False
  end.
Proof.
  split; [|vm_compute; reflexivity].
  set (g1 := mkGame (heap (initialGame (F := R) (fun i => i)))
                    (table (initialGame (F := R) (fun i => i))) true (0 / 1) []).
  assert (Hwf1 : wf g1) by (apply wfb_sound; reflexivity).
  destruct (handle_total pockets_exclusive_real (EvUpdate (-1)) g1 Hwf1)
    as (g' & Hup & _ & _ & _ & _ & Hprog).
  exists g'. split.
  - cbn [handle] in Hup.
    change (bind (update (-1)) (fun _ => ret tt) g1 = Some (tt, g')).
    by rewrite (bind_eq _ _ _ _ _ Hup).
  - rewrite Hprog. unfold charged, fmin, chargeTime, g1.
    cbn [isChargingShot shotChargeProgress]. real_arith.
    rewrite bool_decide_eq_false_2 by lra. lra.
Qed.

(** ** Concrete frames *)

(** A frame in which the ball of slot [i] is not captured and has no partner
    in range at its turn: where it ends. *)
Lemma turn_alone dt i p b1 (g g1 : Game R) :
  wf g -> billBalls (table g) !! i = Some (Some p) ->
  beforeTurn dt i g = Some (tt, g1) -> heap g1 !! p = Some b1 ->
  let P := getNextPosition b1 dt in
  (forall Q, In Q pocketsPositions -> ~ distance P Q < pocketRadius) ->
  (forall l q bq, (i < l)%nat -> billBalls (table g1) !! l = Some (Some q) ->
     heap g1 !! q = Some bq ->
     ~ distance (toMove P b1) (position bq) <= 2 / 1 * radius) ->
  exists g' b',
    update dt g = Some (tt, g') /\
    billBalls (table g') !! i = Some (Some p) /\
    heap g' !! p = Some b' /\ position b' = toMove P b1.
Proof.
  intros Hwf Hs Hbefore Hb P Hpockets Hfar.
  destruct (live_turn_stages dt i p g Hwf Hs)
    as (g1' & g2 & g3 & b1' & Hb1 & Hp1 & Hwf1 & Hs1 & Hh1 & H2 & Hp2 & Hwf2 & Hp3
        & Hnot & Hup & Hwf3 & Hcalls).
  rewrite Hbefore in Hb1. inversion Hb1; subst g1'. clear Hb1.
  rewrite Hb in Hh1. inversion Hh1; subst b1'. clear Hh1.
  rewrite (own_turn_alone pockets_exclusive_real dt i p b1 g1 Hwf1 Hs1 Hb) in H2; cycle 1.
  { by apply no_pocket_in_range. }
  { intros l q bq Hl Hsl Hbq. real_arith. apply bool_decide_eq_false.
    apply (Hfar l q bq Hl Hsl Hbq). }
  inversion H2; subst g2. clear H2.
  set (b2 := setPosition (toMove (getNextPosition b1 dt) b1)
                         (afterBoundary (getNextPosition b1 dt) b1)).
  assert (Hb2 : heap (committed p (toMove (getNextPosition b1 dt) b1)
                   (afterBoundary (getNextPosition b1 dt) b1)
                   (withHeap (<[p := afterBoundary (getNextPosition b1 dt) b1]>
                                (heap g1)) g1)) !! p = Some b2).
  { cbn [committed withHeap heap]. apply list_lookup_insert_eq.
    rewrite length_insert. eapply lookup_lt_Some; eauto. }
  destruct (tp_keeps _ _ _ Hp3 _ _ Hb2) as (b3 & Hb3 & _ & Hpos).
  exists g3, b3. split; [exact Hup|]. split; [|split; [exact Hb3|]].
  - rewrite (tp_slots_other _ _ _ Hp3) by apply not_elem_of_seq_after.
    cbn [committed withHeap table]. exact Hs1.
  - rewrite (Hpos Hnot). unfold b2. cbn [setPosition position]. apply Vector2_eta.
Qed.

(** The same for slot 0, whose turn comes first. *)
Lemma first_turn_alone dt p b (g : Game R) :
  wf g -> billBalls (table g) !! 0%nat = Some (Some p) -> heap g !! p = Some b ->
  let P := getNextPosition b dt in
  (forall Q, In Q pocketsPositions -> ~ distance P Q < pocketRadius) ->
  (forall l q bq, (0 < l)%nat -> billBalls (table g) !! l = Some (Some q) ->
     heap g !! q = Some bq ->
     ~ distance (toMove P b) (position bq) <= 2 / 1 * radius) ->
  exists g' b',
    update dt g = Some (tt, g') /\
    billBalls (table g') !! 0%nat = Some (Some p) /\
    heap g' !! p = Some b' /\ position b' = toMove P b.
Proof.
  intros Hwf Hs Hb P Hpockets Hfar.
  apply (turn_alone dt 0 p b g (charged dt g)); auto.
Qed.

(** Beyond the right and the top edge: y is mirrored, x is not. *)
Lemma ricochet_position_corner (c : BillBall R) :
  let x := vx (position c) in
  let y := vy (position c) in
  x + radius > 5 / 10 * width ->
  ~ x - (x + radius - 5 / 10 * width) * (2 / 1) - radius < - (5 / 10) * width ->
  y + radius > 5 / 10 * height ->
  ~ y - (y + radius - 5 / 10 * height) * (2 / 1) - radius < - (5 / 10) * height ->
  position (ricochet c) = mkVector2 x (y - (y + radius - 5 / 10 * height) * (2 / 1)).
Proof.
  destruct c as [[x y] [sx sy] m]. ball_ops. params. intros H1 H2 H3 H4.
  unfold ricochet. ball_ops. params.
  repeat (case_bool_decide; ball_ops); try lra. reflexivity.
Qed.


Ltac scene :=
  cbv [cornerGame deepGame endGame cornerCue deepCue endCue layoutWith initialGame heap table billBalls
       ballToHit ballsPositions pocketsPositions newBillBall imap compose
       insert list_insert lookup list_lookup map seq length
       getNextPosition getPosition position speed gameMesh vx vy
       fadd fsub fmul fdiv fneg fsqrt fdivsqrt flt fle feq flit RealArith
       width height radius pocketRadius] in *.

Ltac far_from_pockets :=
  let Q := fresh "Q" in let HQ := fresh "HQ" in
  intros Q HQ; scene;
  repeat (destruct HQ as [<-|HQ]; [unfold distance; scene; apply sqrt_not_lt; lra|]);
  destruct HQ.

Ltac far_from_partners :=
  let l := fresh "l" in let q := fresh "q" in let bq := fresh "bq" in
  let Hl := fresh "Hl" in let Hsl := fresh "Hsl" in let Hbq := fresh "Hbq" in
  intros l q bq Hl Hsl Hbq; scene;
  do 8 (try (destruct l as [|l]; [try lia;
             try (inversion Hsl; subst q; inversion Hbq; subst bq;
                  unfold distance; scene; apply sqrt_not_le; lra)|]));
  try discriminate.


(** The lost mirror of [ricochet] (C3) seen through [update]: with every
    ball inside the table, the cue ball of [cornerGame] is predicted at
    (7.21, 3.71), beyond the right and the top edge, and ends the frame at
    (7.21, 3.69), out of bounds on x. Read in the reals and in single
    precision. *)
Lemma update_corner_leaves_ball_outside :
  (inTable (position (cornerCue (F := R))) /\
   exists g' b',
     update (1 / 60) (cornerGame (F := R)) = Some (tt, g') /\
     billBalls (table g') !! 0%nat = Some (Some 0%nat) /\
     heap g' !! 0%nat = Some b' /\
     position b' = mkVector2 (721 / 100) (369 / 100) /\ ~ inTable (position b')) /\
  (allInTable (cornerGame (F := binary32)) = true /\
   match update (flit 1 60) (cornerGame (F := binary32)) with
   | Some (_, g') =>
       match billBalls (table g') !! 0%nat, heap g' !! 0%nat with
       | Some (Some _), Some b' => outOfTable (position b') = true
       | _, _ => False
       end
   | None => False
   end).
Proof.
  split; [|vm_compute; auto]. split; [rewrite inTable_real; scene; lra|].
  assert (Hout : outOfTable (getNextPosition (cornerCue (F := R)) (1 / 60)) = true).
  { unfold outOfTable. scene.
    rewrite (bool_decide_eq_true_2 (5 / 10 * (15 / 1) < _)) by lra. reflexivity. }
  assert (HT : toMove (getNextPosition (cornerCue (F := R)) (1 / 60)) cornerCue =
               mkVector2 (721 / 100) (369 / 100)).
  { unfold toMove, afterBoundary. rewrite Hout. unfold getPosition.
    rewrite ricochet_position_corner; cbn [setPosition position]; scene;
      [f_equal; lra|lra..]. }
  destruct (first_turn_alone (1 / 60) 0 cornerCue cornerGame)
    as (g' & b' & Hup & Hs & Hb & Hpos).
  - apply wfb_sound. reflexivity.
  - reflexivity.
  - reflexivity.
  - far_from_pockets.
  - rewrite HT. far_from_partners.
  - exists g', b'. repeat (split; [assumption|]). rewrite Hpos, HT. split; [reflexivity|].
    rewrite inTable_real. scene. lra.
Qed.











(** ** The statements at concrete inputs *)

(** C1 at the two balls of [endGame]: the cue ball moving, the other at rest. *)
Lemma collide_exchanges_axis_components_witness :
  exists g' b1' b2',
    collide 0 1 (endGame (F := R)) = Some (tt, g') /\
    heap g' !! 0%nat = Some b1' /\ heap g' !! 1%nat = Some b2' /\
    vadd (speed b1') (speed b2') = vadd (speed endCue) (speed restBall) /\
    alongAxis (speed b1') (vsub (position restBall) (position endCue)) =
      alongAxis (speed restBall) (vsub (position restBall) (position endCue)) /\
    alongAxis (speed b2') (vsub (position restBall) (position endCue)) =
      alongAxis (speed endCue) (vsub (position restBall) (position endCue)).
Proof.
  destruct (collide_exchanges_axis_components endGame 0 1 endCue restBall)
    as (g' & b1' & b2' & Hc & H1 & H2 & _ & _ & Hsum & Ha1 & Ha2 & _).
  - lia.
  - reflexivity.
  - reflexivity.
  - left. unfold vsub, restBall. scene. lra.
  - exists g', b1', b2'. auto 10.
Defined.



(** The frame of [soloGame]: the only ball has its turn, nothing else
    happens. *)
Lemma soloGame_update (dt : R) :
  let P := getNextPosition (soloCue (F := R)) dt in
  let g1 := charged dt (soloGame (F := R)) in
  update dt soloGame =
  Some (tt, committed 0 (toMove P soloCue) (afterBoundary P soloCue)
                      (withHeap (<[0%nat := afterBoundary P soloCue]> (heap g1)) g1)).
Proof.
  intros P g1.
  assert (Hwf : wf g1) by (apply charged_wf, wfb_sound; reflexivity).
  unfold update.
  rewrite (bind_eq _ _ _ _ _ (chargeStep_eq dt soloGame)). fold g1.
  unfold bind at 1. unfold slotCount.
  change (length (billBalls (table g1))) with 7%nat. cbn [seq forEach].
  assert (Hat : existsb (atPocket (getNextPosition (soloCue (F := R)) dt))
                        pocketsPositions = false).
  { apply no_pocket_in_range. unfold soloCue. far_from_pockets. }
  assert (Hfar : forall l q bq, (0 < l)%nat ->
            billBalls (table g1) !! l = Some (Some q) -> heap g1 !! q = Some bq ->
            fle (distance (toMove (getNextPosition soloCue dt) soloCue) (getPosition bq))
                (fmul (flit 2 1) radius) = false).
  { intros l q bq Hl Hs. exfalso.
    do 7 (destruct l as [|l]; [try lia; discriminate|]). discriminate. }
  rewrite (bind_eq _ _ _ _ _
             (own_turn_alone pockets_exclusive_real dt 0 0 soloCue g1
                Hwf eq_refl eq_refl Hat Hfar)).
  repeat match goal with
  | |- bind (updateBall ?d ?i) _ ?g = _ =>
      rewrite (bind_eq _ _ g tt g (updateBall_empty d i g eq_refl))
  end.
  reflexivity.
Qed.

(** C5 at one frame of [soloGame]: the ball is not captured, is in no
    collision, and is slower after the frame. *)
Lemma friction_stops_ball_witness :
  exists g' b',
    runEvents [EvUpdate (1 / 60)] (soloGame (F := R)) = Some (tt, g') /\
    heap g' !! 0%nat = Some b' /\
    norm (speed b') < norm (speed (soloCue (F := R))).
Proof.
  destruct (friction_stops_ball [1 / 60] soloGame 0 0 soloCue) as (_ & g' & Hrun & Hslow).
  - apply wfb_sound. reflexivity.
  - reflexivity.
  - reflexivity.
  - assert (Hg' : g' = committed 0 (toMove (getNextPosition soloCue (1 / 60)) soloCue)
                         (afterBoundary (getNextPosition soloCue (1 / 60)) soloCue)
                         (withHeap [afterBoundary (getNextPosition soloCue (1 / 60)) soloCue]
                                   (charged (1 / 60) (soloGame (F := R))))).
    { cbn [map runEvents handle] in Hrun. unfold bind in Hrun.
      rewrite soloGame_update in Hrun. cbv zeta in Hrun. by inversion Hrun. }
    destruct Hslow as (b' & Hb' & _ & Hlt & _).
    + rewrite Hg'. reflexivity.
    + rewrite Hg'. unfold newCalls.
      cbn [committed withHeap charged calls soloGame length app drop].
      repeat constructor; intros [].
    + exists g', b'. split; [exact Hrun|]. split; [exact Hb'|].
      apply Hlt; [discriminate|]. right. unfold soloCue. cbn [speed vy]. real_arith. lra.
Defined.

(** C6 (amended) at a press, a frame and a release from the initial layout. *)
Lemma charge_progress_clamped_witness :
  exists g',
    runEvents [EvMouseButtonPressed 0 0; EvUpdate (1 / 60); EvMouseButtonReleased 0 0]
              (initialGame (F := R) (fun i => i)) = Some (tt, g') /\
    shotChargeProgress g' <= 1 /\ shotChargeProgress g' = 0.
Proof.
  destruct (charge_progress_clamped
              [EvMouseButtonPressed 0 0; EvUpdate (1 / 60); EvMouseButtonReleased 0 0]
              (initialGame (F := R) (fun i => i)))
    as (g' & Hrun & Hle & _ & Hlast).
  - apply wfb_sound. reflexivity.
  - unfold initialGame. cbn [shotChargeProgress]. real_arith. lra.
  - exists g'. split; [exact Hrun|]. split; [exact Hle|]. apply (Hlast 0 0). reflexivity.
Defined.

(** C7 at the direction (4.5, 0), and at the fully charged initial layout. *)
Lemma strike_adds_impulse_witness :
  norm (normalizedVector (mkVector2 (45 / 10) 0)) = 1 /\
  exists g' cue',
    mouseButtonReleased 0 0 (chargedGame (F := R)) = Some (tt, g') /\
    heap g' !! 0%nat = Some cue' /\
    speed cue' = mkVector2 1 0.
Proof.
  destruct strike_adds_impulse as (Hstrike & Hscene & _). split.
  - destruct (Hstrike (endCue (F := R)) (mkVector2 (45 / 10) 0) 1) as (_ & _ & _ & Hn & _).
    + left. cbn [vx]. lra.
    + rewrite normalizedVector_real. exact Hn.
  - destruct (Hscene (chargedGame (F := R))
                (newBillBall (mkVector2 (- (3 / 10) * (15 / 1)) (0 / 1)) 0))
      as (g' & cue' & Hrel & Hcue & _ & Hd).
    + reflexivity.
    + cbn [newBillBall position vx vy]. f_equal; lra.
    + unfold chargedGame. cbn [shotChargeProgress]. real_arith. lra.
    + exists g', cue'. split; [exact Hrel|]. split.
      * rewrite <- Hcue. f_equal.
        unfold mouseButtonReleased in Hrel. cbn in Hrel. by inversion Hrel.
      * unfold vsub in Hd. cbn [newBillBall speed vx vy] in Hd. real_arith.
        rewrite <- (Vector2_eta (speed cue')). inversion Hd as [[Hx Hy]].
        f_equal; lra.
Defined.

(** C8 at the cue ball of [edgeGame]. *)
Lemma getNextPosition_is_position_plus_speed_witness :
  callGetNextPosition 0 (1 / 60) (edgeGame (F := R)) =
  Some (mkVector2 (70 / 10 + 5 / 10) (0 / 1 + 0 / 1), edgeGame).
Proof.
  exact (proj1 (getNextPosition_is_position_plus_speed edgeGame 0 edgeCue (1 / 60)
                  eq_refl)).
Defined.

(** C9 (amended) on the initial layout, released at the table centre. *)
Lemma release_without_charge_keeps_cue_speed_witness :
  exists g' cue',
    mouseButtonReleased (flit 0 1) (flit 0 1) (initialGame (F := binary32) (fun i => i))
      = Some (tt, g') /\
    heap g' !! 0%nat = Some cue' /\
    sameNumber (vx (speed cue')) (flit 0 1) /\ sameNumber (vy (speed cue')) (flit 0 1).
Proof.
  destruct (release_without_charge_keeps_cue_speed
              (initialGame (F := binary32) (fun i => i)) (flit 0 1) (flit 0 1)
              (newBillBall (mkVector2 (fmul (fneg (flit 3 10)) width) (flit 0 1)) 0))
    as (g' & cue' & Hrel & _ & _ & Hheap & _ & _ & _ & _ & _ & _ & Hx & Hy).
  - reflexivity.
  - reflexivity.
  - reflexivity.
  - exists g', cue'. split; [exact Hrel|]. split; [by rewrite Hheap|].
    split; [exact Hx|exact Hy].
Defined.


(** ** Single-precision runs *)

(** In single precision the scenario of C7 gives the cue ball the speed
    (1, 0) exactly, and resets the charge. *)
Example strike_scenario_binary32 :
  match mouseButtonReleased (flit 0 1) (flit 0 1) (chargedGame (F := binary32)) with
  | Some (_, g') =>
      match heap g' !! 0%nat with
      | Some cue' =>
          feq (vx (speed cue')) (flit 1 1) = true /\
          feq (vy (speed cue')) (flit 0 1) = true /\
          isChargingShot g' = false /\
          feq (shotChargeProgress g') (flit 0 1) = true
      | None => False
      end
  | None => False
  end.
Proof. vm_compute. auto. Qed.

(** In single precision one frame of the initial layout goes through, keeps
    every ball inside the table and reports one progress bar update and
    seven mesh placements. *)
Example first_frame_binary32 :
  match update (flit 1 60) (initialGame (F := binary32) (fun i => i)) with
  | Some (_, g') => allInTable g' = true /\ length (calls g') = 8%nat
  | None => False
  end.
Proof. vm_compute. auto. Qed.

(** In single precision, at the scale of the game: the cue ball of
    [rollGame], with speed 0.5, is slower after one frame, still rolls after
    166 frames and is at rest after 167 (0.5 / 0.003 = 166.7), without any
    collision and without leaving the table. *)
Example friction_run_binary32 :
  let after n := runEvents (repeat (EvUpdate (flit 1 60)) n) (rollGame (F := binary32)) in
  let cueSpeedY r :=
    match r with
    | Some (_, g') =>
        match heap g' !! 0%nat with Some b => Some (vy (speed b)) | None => None end
    | None => None
    end in
  match cueSpeedY (after 1%nat), cueSpeedY (after 166%nat), after 167%nat with
  | Some v1, Some v166, Some (_, g') =>
      flt v1 (flit 5 10) = true /\ flt (flit 0 1) v166 = true /\
      match heap g' !! 0%nat with
      | Some b => feq (vx (speed b)) (flit 0 1) = true /\ feq (vy (speed b)) (flit 0 1) = true
      | None => False
      end /\
      existsb isCollide (calls g') = false /\ allInTable g' = true
  | _, _, _ => False
  end.
Proof. vm_compute. auto 10. Qed.

(** * Further properties of the code

    Properties of the functions the statements above do not reach
    ([normalizedVector], [distance], [Game::init], [Game::deinit],
    [mouseButtonPressed]) and of the ones they do, read off the source.
    The general ones are again in the real-number semantics. *)

(** ** More on the vector functions *)

(** [normalizedVector] (lines 33-39), read in the reals: for a non-zero
    vector the result has length 1 and points the same way (the vector is
    its length times the result); normalizing again changes nothing, and
    neither does stretching the vector first. *)
Theorem normalizedVector_unit_direction (v : Vector2 R) :
  nonzero v ->
  norm (normalizedVector v) = 1 /\
  v = mkVector2 (norm v * vx (normalizedVector v)) (norm v * vy (normalizedVector v)) /\
  normalizedVector (normalizedVector v) = normalizedVector v /\
  forall k, 0 < k ->
    normalizedVector (mkVector2 (k * vx v) (k * vy v)) = normalizedVector v.
Proof.
  intros Hv. pose proof (norm_pos v Hv) as Hn.
  pose proof (normalizedVector_unit v Hv) as Hu.
  split; [exact Hu|]. split; [|split].
  - rewrite normalizedVector_real. cbn [vx vy]. destruct v as [x y]. cbn [vx vy] in *.
    f_equal; field; lra.
  - rewrite (normalizedVector_real (normalizedVector v)). rewrite Hu.
    destruct (normalizedVector v) as [x y]. cbn [vx vy]. f_equal; field.
  - intros k Hk. rewrite !normalizedVector_real. cbn [vx vy].
    assert (Hk' : norm (mkVector2 (k * vx v) (k * vy v)) = k * norm v).
    { unfold norm, dot. cbn [vx vy].
      replace (k * vx v * (k * vx v) + k * vy v * (k * vy v))
        with (k * k * (vx v * vx v + vy v * vy v)) by ring.
      rewrite sqrt_mult by (try apply sum_sq_nonneg; nra).
      rewrite sqrt_square by lra. reflexivity. }
    rewrite Hk'. f_equal; field; lra.
Qed.

(** [vectorProjecction] (lines 221-231), read in the reals: for a non-zero
    [b] the result is a multiple of [b], what is left of [a] is
    perpendicular to [b], projecting twice is projecting once, and the
    result depends on the line of [b] only, not on its length or
    orientation. *)
Theorem vectorProjecction_orthogonal (a b : Vector2 R) :
  nonzero b ->
  let t := vectorProjecction a b in
  (exists c, t = mkVector2 (c * vx b) (c * vy b)) /\
  dot (vsub a t) b = 0 /\
  vectorProjecction t b = t /\
  forall k, k <> 0 -> vectorProjecction a (mkVector2 (k * vx b) (k * vy b)) = t.
Proof.
  intros Hb t. subst t. pose proof (dot_self_pos b Hb) as Hd.
  rewrite vectorProjecction_real by exact Hb. split; [|split; [|split]].
  - exists (dot a b / dot b b). reflexivity.
  - unfold vsub, dot in *. cbn [vx vy]. field. lra.
  - rewrite vectorProjecction_real by exact Hb. unfold dot in *. cbn [vx vy].
    f_equal; field; lra.
  - intros k Hk.
    assert (Hkb : nonzero (mkVector2 (k * vx b) (k * vy b))).
    { destruct Hb as [H|H]; [left|right]; cbn [vx vy]; nra. }
    pose proof (dot_self_pos _ Hkb) as Hdk.
    rewrite vectorProjecction_real by exact Hkb. unfold dot in *. cbn [vx vy] in *.
    f_equal; field; split; lra.
Qed.

(** [distance] (lines 311-314), read in the reals, is the Euclidean metric:
    symmetric, never negative, zero exactly between equal points, and it
    obeys the triangle inequality. *)
Theorem distance_metric (p q r : Vector2 R) :
  distance p q = distance q p /\
  0 <= distance p q /\
  (distance p q = 0 <-> p = q) /\
  distance p r <= distance p q + distance q r.
Proof.
  split; [|split; [|split]].
  - exact (distance_symm (vx p) (vy p) (vx q) (vy q)).
  - apply sqrt_pos.
  - split.
    + intros H. rewrite distance_real in H. unfold norm in H.
      apply sqrt_eq_0 in H; [|apply dot_self_nonneg].
      unfold dot, vsub in H. cbn [vx vy] in H.
      destruct p as [px py], q as [qx qy]. cbn [vx vy] in H.
      apply (Rplus_sqr_eq_0 (px - qx) (py - qy)) in H as [Hx Hy].
      f_equal; lra.
    + intros ->. exact (distance_refl (vx q) (vy q)).
  - exact (triangle (vx p) (vy p) (vx r) (vy r) (vx q) (vy q)).
Qed.

(** ** More on collisions *)

(** The state after [collide] on two distinct ball objects. *)
Lemma collide_result {F : Type} {FA : FloatArith F} (g : Game F) ball1 ball2 b1 b2 :
  ball1 <> ball2 -> heap g !! ball1 = Some b1 -> heap g !! ball2 = Some b2 ->
  collide ball1 ball2 g =
  Some (tt, mkGame (<[ball2 := setSpeed (snd (collideSpeeds b1 b2)) b2]>
                      (<[ball1 := setSpeed (fst (collideSpeeds b1 b2)) b1]> (heap g)))
                   (table g) (isChargingShot g) (shotChargeProgress g) (calls g)).
Proof.
  intros Hne H1 H2. rewrite collide_eq by eauto. unfold collideHeap.
  rewrite H1, H2. rewrite list_lookup_insert_ne by congruence. rewrite H2. reflexivity.
Qed.

(** The new speeds, in the reals. *)
Lemma collideSpeeds_formula (b1 b2 : BillBall R) :
  let d := vsub (position b2) (position b1) in
  let c1 := dot (speed b1) d / dot d d in
  let c2 := dot (speed b2) d / dot d d in
  nonzero d ->
  collideSpeeds b1 b2 =
  (mkVector2 (vx (speed b1) - c1 * vx d + c2 * vx d) (vy (speed b1) - c1 * vy d + c2 * vy d),
   mkVector2 (vx (speed b2) + c1 * vx d - c2 * vx d) (vy (speed b2) + c1 * vy d - c2 * vy d)).
Proof.
  intros d c1 c2 Hd. unfold collideSpeeds, getPosition, getSpeed. real_arith.
  fold (vsub (position b2) (position b1)). fold d.
  rewrite !vectorProjecction_real by exact Hd. reflexivity.
Qed.

Lemma BillBall_eta {F : Type} {FA : FloatArith F} (b : BillBall F) :
  mkBillBall (position b) (mkVector2 (vx (speed b)) (vy (speed b))) (gameMesh b) = b.
Proof. destruct b as [? [? ?] ?]. reflexivity. Qed.

(** [collide] (lines 267-282), read in the reals, on two distinct ball
    objects at distinct positions conserves the momentum (the sum of the two
    speeds) and the kinetic energy (the sum of their squares), and changes
    nothing but the two speeds: not a position, not a mesh, no
    other object, not the table, the charge or the log. *)
Theorem collide_conserves_momentum_energy
    (g : Game R) (ball1 ball2 : nat) (b1 b2 : BillBall R) :
  ball1 <> ball2 ->
  heap g !! ball1 = Some b1 -> heap g !! ball2 = Some b2 ->
  nonzero (vsub (position b2) (position b1)) ->
  exists g' b1' b2',
    collide ball1 ball2 g = Some (tt, g') /\
    heap g' !! ball1 = Some b1' /\ heap g' !! ball2 = Some b2' /\
    vadd (speed b1') (speed b2') = vadd (speed b1) (speed b2) /\
    dot (speed b1') (speed b1') + dot (speed b2') (speed b2') =
      dot (speed b1) (speed b1) + dot (speed b2) (speed b2) /\
    position b1' = position b1 /\ gameMesh b1' = gameMesh b1 /\
    position b2' = position b2 /\ gameMesh b2' = gameMesh b2 /\
    (forall q, q <> ball1 -> q <> ball2 -> heap g' !! q = heap g !! q) /\
    length (heap g') = length (heap g) /\
    table g' = table g /\ isChargingShot g' = isChargingShot g /\
    shotChargeProgress g' = shotChargeProgress g /\ calls g' = calls g.
Proof.
  intros Hne H1 H2 Hd.
  pose proof (lookup_lt_Some _ _ _ H1) as Hl1.
  pose proof (lookup_lt_Some _ _ _ H2) as Hl2.
  rewrite (collide_result g ball1 ball2 b1 b2 Hne H1 H2).
  eexists _, (setSpeed (fst (collideSpeeds b1 b2)) b1),
             (setSpeed (snd (collideSpeeds b1 b2)) b2).
  split; [reflexivity|]. cbn [heap table isChargingShot shotChargeProgress calls].
  split.
  { rewrite list_lookup_insert_ne by congruence. by apply list_lookup_insert_eq. }
  split.
  { apply list_lookup_insert_eq. by rewrite length_insert. }
  split.
  { rewrite (collideSpeeds_formula b1 b2 Hd). cbn [fst snd setSpeed speed].
    unfold vadd. cbn [vx vy]. f_equal; ring. }
  split.
  { rewrite (collideSpeeds_formula b1 b2 Hd). cbn [fst snd setSpeed speed vx vy].
    pose proof (dot_self_pos _ Hd) as Hp.
    destruct (vsub (position b2) (position b1)) as [dx dy].
    destruct (speed b1) as [ux uy], (speed b2) as [wx wy].
    unfold dot in *. cbn [vx vy] in *. field. lra. }
  repeat (split; [reflexivity|]).
  split.
  { intros q Hq1 Hq2. by rewrite !list_lookup_insert_ne by congruence. }
  split; [by rewrite !length_insert|]. auto.
Qed.

(** Read in the reals, the order of the two arguments of [collide] does not
    matter. *)
Theorem collide_symmetric
    (g : Game R) (ball1 ball2 : nat) (b1 b2 : BillBall R) :
  ball1 <> ball2 ->
  heap g !! ball1 = Some b1 -> heap g !! ball2 = Some b2 ->
  nonzero (vsub (position b2) (position b1)) ->
  collide ball2 ball1 g = collide ball1 ball2 g /\
  exists g', collide ball1 ball2 g = Some (tt, g').
Proof.
  intros Hne H1 H2 Hd.
  assert (Hd' : nonzero (vsub (position b1) (position b2))).
  { unfold nonzero, vsub in *. cbn [vx vy] in *. destruct Hd; [left|right]; lra. }
  rewrite (collide_result g ball1 ball2 b1 b2 Hne H1 H2).
  rewrite (collide_result g ball2 ball1 b2 b1 (not_eq_sym Hne) H2 H1).
  split; [|eauto]. do 2 f_equal. f_equal.
  rewrite list_insert_insert_ne by congruence.
  pose proof (dot_self_pos _ Hd) as Hp. pose proof (dot_self_pos _ Hd') as Hp'.
  rewrite (collideSpeeds_formula b1 b2 Hd), (collideSpeeds_formula b2 b1 Hd').
  cbn [fst snd]. unfold setSpeed. cbn [vx vy].
  unfold dot, vsub in *. cbn [vx vy] in *.
  f_equal; [f_equal; f_equal; f_equal; field; lra|].
  f_equal. f_equal. f_equal; f_equal; field; lra.
Qed.

(** Read in the reals, colliding the same two balls twice in a row gives
    every speed back: the second [collide] undoes the first. *)
Theorem collide_twice_restores
    (g : Game R) (ball1 ball2 : nat) (b1 b2 : BillBall R) :
  ball1 <> ball2 ->
  heap g !! ball1 = Some b1 -> heap g !! ball2 = Some b2 ->
  nonzero (vsub (position b2) (position b1)) ->
  bind (collide ball1 ball2) (fun _ => collide ball1 ball2) g = Some (tt, g).
Proof.
  intros Hne H1 H2 Hd.
  pose proof (lookup_lt_Some _ _ _ H1) as Hl1.
  pose proof (lookup_lt_Some _ _ _ H2) as Hl2.
  rewrite (bind_eq _ _ _ _ _ (collide_result g ball1 ball2 b1 b2 Hne H1 H2)).
  set (n1 := fst (collideSpeeds b1 b2)). set (n2 := snd (collideSpeeds b1 b2)).
  rewrite (collide_result _ ball1 ball2 (setSpeed n1 b1) (setSpeed n2 b2) Hne); cycle 1.
  { cbn [heap]. rewrite list_lookup_insert_ne by congruence.
    by apply list_lookup_insert_eq. }
  { cbn [heap]. apply list_lookup_insert_eq. by rewrite length_insert. }
  cbn [heap table isChargingShot shotChargeProgress calls].
  assert (Hback : collideSpeeds (setSpeed n1 b1) (setSpeed n2 b2) = (speed b1, speed b2)).
  { assert (Hd2 : nonzero (vsub (position (setSpeed n2 b2)) (position (setSpeed n1 b1))))
      by exact Hd.
    rewrite (collideSpeeds_formula _ _ Hd2). subst n1 n2.
    rewrite (collideSpeeds_formula b1 b2 Hd). cbn [fst snd setSpeed speed position vx vy].
    pose proof (dot_self_pos _ Hd) as Hp.
    destruct (vsub (position b2) (position b1)) as [dx dy].
    destruct (speed b1) as [ux uy], (speed b2) as [wx wy].
    unfold dot in *. cbn [vx vy] in *.
    f_equal; f_equal; field; lra. }
  rewrite Hback. cbn [fst snd]. unfold setSpeed at 1 3.
  change (position (setSpeed n1 b1)) with (position b1).
  change (position (setSpeed n2 b2)) with (position b2).
  change (gameMesh (setSpeed n1 b1)) with (gameMesh b1).
  change (gameMesh (setSpeed n2 b2)) with (gameMesh b2).
  rewrite !BillBall_eta.
  rewrite (list_insert_insert_ne _ ball1 ball2) by congruence.
  rewrite !list_insert_insert_eq.
  rewrite (list_insert_id _ _ _ H1).
  rewrite (list_insert_id _ _ _ H2).
  destruct g. reflexivity.
Qed.

(** ** More on the boundary reflection *)

(** [ricochet] (lines 234-265) never changes the magnitude of a speed
    component, so never the speed, and never the mesh. *)
Theorem ricochet_keeps_speed (c : BillBall R) :
  Rabs (vx (speed (ricochet c))) = Rabs (vx (speed c)) /\
  Rabs (vy (speed (ricochet c))) = Rabs (vy (speed c)) /\
  norm (speed (ricochet c)) = norm (speed c) /\
  gameMesh (ricochet c) = gameMesh c.
Proof.
  destruct (ricochet_speed_abs c) as [Hx Hy].
  split; [exact Hx|]. split; [exact Hy|]. split; [|apply ricochet_mesh].
  unfold norm, dot. f_equal.
  rewrite (sq_abs (vx (speed (ricochet c)))), (sq_abs (vy (speed (ricochet c)))).
  rewrite Hx, Hy, <- !sq_abs. reflexivity.
Qed.

(** [ricochet] over one edge, by no more than the room between the two
    opposite edges: the coordinate is mirrored back by twice the penetration
    depth, the speed component along that axis is negated, the rest of the
    ball is untouched, and the ball is inside the table afterwards. *)
Theorem ricochet_mirrors_across_edge (b : BillBall R) :
  shallow (position b) ->
  offX (position b) && offY (position b) = false ->
  let x := vx (position b) in
  let y := vy (position b) in
  let sx := vx (speed b) in
  let sy := vy (speed b) in
  inTable (position (ricochet b)) /\
  (x + radius > 5 / 10 * width ->
   ricochet b = mkBillBall (mkVector2 (x - 2 * (x + radius - 5 / 10 * width)) y)
                           (mkVector2 (- sx) sy) (gameMesh b)) /\
  (x - radius < - (5 / 10) * width ->
   ricochet b = mkBillBall (mkVector2 (x + 2 * (- (5 / 10) * width - x + radius)) y)
                           (mkVector2 (- sx) sy) (gameMesh b)) /\
  (y + radius > 5 / 10 * height ->
   ricochet b = mkBillBall (mkVector2 x (y - 2 * (y + radius - 5 / 10 * height)))
                           (mkVector2 sx (- sy)) (gameMesh b)) /\
  (y - radius < - (5 / 10) * height ->
   ricochet b = mkBillBall (mkVector2 x (y + 2 * (- (5 / 10) * height - y + radius)))
                           (mkVector2 sx (- sy)) (gameMesh b)).
Proof.
  intros Hsh Hoff x y sx sy. split; [by apply ricochet_one_axis|].
  subst x y sx sy. destruct b as [[x y] [sx sy] m].
  unfold shallow, offX, offY in *. ball_ops. params.
  apply andb_false_iff in Hoff.
  rewrite !orb_false_iff, !bool_decide_eq_false in Hoff.
  repeat split; intros Hedge; unfold ricochet; ball_ops; params;
    repeat (case_bool_decide; ball_ops); try lra;
    unfold setSpeed, setPosition; ball_ops; f_equal; f_equal; lra.
Qed.

(** ** Whole runs *)

Lemma sameShape_refl {F : Type} (g : Game F) : sameShape g g.
Proof. repeat split; eauto. Qed.

Lemma sameShape_trans {F : Type} (g g1 g2 : Game F) :
  sameShape g g1 -> sameShape g1 g2 -> sameShape g g2.
Proof.
  intros (H1 & H2 & H3 & H4) (H1' & H2' & H3' & H4').
  split; [congruence|]. split; [congruence|]. split; [congruence|].
  intros p b Hb. destruct (H4 _ _ Hb) as (b1 & Hb1 & Hm1).
  destruct (H4' _ _ Hb1) as (b2 & Hb2 & Hm2). exists b2. split; congruence.
Qed.

Lemma handle_sameShape (e : Event R) (g g' : Game R) :
  wf g -> handle e g = Some (tt, g') -> sameShape g g'.
Proof.
  intros Hwf He. destruct e as [dt|x y|x y]; cbn [handle] in He.
  - destruct (update_turns pockets_exclusive_real dt g Hwf) as (g1 & Hup & _ & Hp).
    rewrite Hup in He. inversion He; subst g1.
    split; [apply (tp_length _ _ _ Hp)|]. split; [apply (tp_slots_length _ _ _ Hp)|].
    split; [apply (tp_cue _ _ _ Hp)|].
    intros p b Hb. destruct (tp_keeps _ _ _ Hp p b Hb) as (b' & Hb' & Hm & _). eauto.
  - inversion He; subst g'. repeat split; eauto.
  - destruct (wf_cue _ Hwf) as [cue Hcue].
    rewrite (mouseButtonReleased_eq x y cue g Hcue) in He. inversion He; subst g'.
    split; [cbn [released heap]; apply length_insert|]. split; [reflexivity|].
    split; [reflexivity|].
    intros p b Hb. destruct (released_lookup x y cue g p b Hcue Hb) as (b' & Hb' & _ & Hm & _).
    eauto.
Qed.

(** On a well-formed state every run of [update], press and release calls
    goes through: no null slot and no dangling pointer is ever dereferenced.
    The state stays well-formed; the log is only extended; a slot that holds
    a ball at the end held the same ball from the start (slots are only ever
    nulled); the store and the slot array keep their size, the cue pointer
    and every mesh handle stay what they were. *)
Theorem run_is_safe (evs : list (Event R)) (g : Game R) :
  wf g ->
  exists g',
    runEvents evs g = Some (tt, g') /\ wf g' /\
    calls g' = calls g ++ newCalls g g' /\
    (forall k q, billBalls (table g') !! k = Some (Some q) ->
                 billBalls (table g) !! k = Some (Some q)) /\
    sameShape g g'.
Proof.
  revert g. induction evs as [|e rest IH]; intros g Hwf.
  - exists g. split; [reflexivity|]. split; [exact Hwf|]. split.
    + rewrite (newCalls_app g g []); by rewrite List.app_nil_r.
    + split; [auto|apply sameShape_refl].
  - destruct (handle_total pockets_exclusive_real e g Hwf)
      as (g1 & He & Hwf1 & Hc1 & Hs1 & _).
    destruct (IH g1 Hwf1) as (g' & Hr & Hwf' & Hc' & Hs' & Hsh').
    exists g'. split; [cbn [runEvents]; by rewrite (bind_eq _ _ _ _ _ He)|].
    split; [exact Hwf'|]. split; [|split].
    + assert (Hc : calls g' = calls g ++ (newCalls g g1 ++ newCalls g1 g')).
      { rewrite Hc', Hc1 at 1. by rewrite <- app_assoc. }
      by rewrite (newCalls_app _ _ _ Hc).
    + intros k q Hk. apply Hs1, Hs', Hk.
    + eapply sameShape_trans; [|exact Hsh']. by apply (handle_sameShape e).
Qed.

(** ** Charging over several frames *)

Lemma charged_progress_real dt (g : Game R) :
  shotChargeProgress (charged dt g) =
  if isChargingShot g then Rmin (shotChargeProgress g + dt / chargeTime) 1
  else shotChargeProgress g.
Proof.
  unfold charged, fmin. cbn [shotChargeProgress]. real_arith.
  destruct (isChargingShot g); [|reflexivity].
  unfold Rmin. case_bool_decide; destruct (Rle_dec _ _); lra.
Qed.

Lemma Rmin_accumulates p a s : 0 <= s -> Rmin (Rmin (p + a) 1 + s) 1 = Rmin (p + (a + s)) 1.
Proof.
  intros Hs. unfold Rmin at 2. destruct (Rle_dec (p + a) 1);
    unfold Rmin; repeat destruct (Rle_dec _ _); lra.
Qed.

Lemma charge_run (dts : list R) (g : Game R) :
  wf g ->
  Forall (fun dt => 0 <= dt) dts ->
  shotChargeProgress g <= 1 ->
  exists g',
    runEvents (map EvUpdate dts) g = Some (tt, g') /\
    isChargingShot g' = isChargingShot g /\
    shotChargeProgress g' =
      if isChargingShot g
      then Rmin (shotChargeProgress g + totalTime dts / chargeTime) 1
      else shotChargeProgress g.
Proof.
  revert g. induction dts as [|dt rest IH]; intros g Hwf Hnn Hle.
  - exists g. split; [reflexivity|]. split; [reflexivity|].
    destruct (isChargingShot g); [|reflexivity].
    unfold totalTime, chargeTime. cbn [fold_right]. real_arith.
    rewrite Rmin_left; lra.
  - apply List.Forall_cons_iff in Hnn as [Hdt Hnn].
    destruct (handle_total pockets_exclusive_real (EvUpdate dt) g Hwf)
      as (g1 & He & Hwf1 & _ & _ & Hflag & Hprog).
    rewrite charged_progress_real in Hprog.
    assert (Hle1 : shotChargeProgress g1 <= 1).
    { rewrite Hprog. destruct (isChargingShot g); [apply Rmin_r|exact Hle]. }
    destruct (IH g1 Hwf1 Hnn Hle1) as (g' & Hr & Hflag' & Hprog').
    exists g'. split; [cbn [map runEvents]; by rewrite (bind_eq _ _ _ _ _ He)|].
    split; [congruence|]. rewrite Hprog', Hflag, Hprog.
    destruct (isChargingShot g); [|reflexivity].
    assert (Hs : 0 <= totalTime rest).
    { clear -Hnn. induction Hnn; cbn; [lra|]. unfold totalTime in *. lra. }
    unfold chargeTime in *. real_arith.
    replace (totalTime (dt :: rest) / (1 / 1)) with (dt / (1 / 1) + totalTime rest / (1 / 1))
      by (unfold totalTime; cbn [fold_right]; field).
    apply Rmin_accumulates. lra.
Qed.

(** Lines 324-326 over a run of frames, read in the reals: while a shot is
    being charged the frame times, none of them negative, add up in the
    charge progress until it reaches 1, where it stays; while none is being
    charged the progress does not move.  The flag itself is never changed by
    [update]. *)
Theorem charge_accumulates (dts : list R) (g : Game R) :
  wf g ->
  Forall (fun dt => 0 <= dt) dts ->
  shotChargeProgress g <= 1 ->
  exists g',
    runEvents (map EvUpdate dts) g = Some (tt, g') /\
    isChargingShot g' = isChargingShot g /\
    shotChargeProgress g' =
      if isChargingShot g
      then Rmin (shotChargeProgress g + totalTime dts / chargeTime) 1
      else shotChargeProgress g.
Proof. exact (charge_run dts g). Qed.

(** ** A table at rest *)

Lemma withLog_wf {F : Type} {FA : FloatArith F} pr cs (g : Game F) :
  wf g -> wf (withLog pr cs g).
Proof. intros [Hv Hi Hc Hm]. split; auto. Qed.

Lemma setPosition_same {F : Type} {FA : FloatArith F} (b : BillBall F) :
  setPosition (position b) b = b.
Proof. destruct b as [[? ?] ? ?]. reflexivity. Qed.

(** The turn of a ball of a table at rest. *)
Lemma idle_turn dt i pr cs (g : Game R) :
  wf g -> tableAtRest g -> (i < length (billBalls (table g)))%nat ->
  updateBall dt i (withLog pr cs g) =
  Some (tt, withLog pr (cs ++ option_list (placeCall g i)) g).
Proof.
  intros Hwf Hrest Hi. apply lookup_lt_is_Some in Hi as [s Hs].
  unfold placeCall. rewrite Hs. destruct s as [p|]; cycle 1.
  { rewrite updateBall_empty by exact Hs. cbn [option_list]. by rewrite List.app_nil_r. }
  destruct (wf_valid _ Hwf _ _ Hs) as [b Hb]. rewrite Hb.
  destruct (Hrest i p b Hs Hb) as (Hb0 & Hin & Hpk & Hfar).
  pose proof (getNextPosition_atRest b dt Hb0) as HP.
  assert (Hout : outOfTable (getNextPosition b dt) = false) by (rewrite HP; exact Hin).
  rewrite (own_turn_alone pockets_exclusive_real dt i p b (withLog pr cs g)
             (withLog_wf _ _ _ Hwf) Hs Hb); cycle 1.
  { apply no_pocket_in_range. rewrite HP. exact Hpk. }
  { intros l q bq Hl Hsl Hbq. unfold toMove. rewrite Hout, HP.
    real_arith. apply bool_decide_eq_false. intros Hd.
    apply (Hfar l q bq); [lia|exact Hsl|exact Hbq|].
    unfold getPosition in Hd. unfold radius in *. real_arith. lra. }
  unfold toMove, afterBoundary. rewrite Hout, HP, (friction_atRest b Hb0).
  unfold committed, withHeap, withLog. cbn [heap table isChargingShot shotChargeProgress calls].
  rewrite setPosition_same, list_insert_insert_eq, (list_insert_id _ _ _ Hb).
  reflexivity.
Qed.

Lemma idle_turns dt pr (g : Game R) :
  wf g -> tableAtRest g ->
  forall idx cs, Forall (fun i => (i < length (billBalls (table g)))%nat) idx ->
  forEach idx (updateBall dt) (withLog pr cs g) =
  Some (tt, withLog pr (cs ++ omap (placeCall g) idx) g).
Proof.
  intros Hwf Hrest idx. induction idx as [|i rest IH]; intros cs Hidx.
  - cbn. by rewrite List.app_nil_r.
  - apply List.Forall_cons_iff in Hidx as [Hi Hidx]. cbn [forEach].
    rewrite (bind_eq _ _ _ _ _ (idle_turn dt i pr cs g Hwf Hrest Hi)).
    rewrite IH by exact Hidx. rewrite <- app_assoc. do 3 f_equal.
    cbn [omap list_omap]. destruct (placeCall g i); reflexivity.
Qed.

Lemma idle_update (dt : R) (g : Game R) :
  wf g -> tableAtRest g ->
  update dt g =
  Some (tt, mkGame (heap g) (table g) (isChargingShot g)
                   (shotChargeProgress (charged dt g))
                   (calls g ++ Scene_updateProgressBar (shotChargeProgress (charged dt g))
                      :: omap (placeCall g) (seq 0 (length (billBalls (table g)))))).
Proof.
  intros Hwf Hrest. unfold update.
  rewrite (bind_eq _ _ _ _ _ (chargeStep_eq dt g)).
  change (charged dt g)
    with (withLog (shotChargeProgress (charged dt g))
                  (calls g ++ [Scene_updateProgressBar (shotChargeProgress (charged dt g))]) g)
    at 1.
  unfold slotCount at 1. unfold bind at 1.
  cbn [withLog table].
  change (mkGame (heap g) (table g) (isChargingShot g) (shotChargeProgress (charged dt g))
                 (calls g ++ [Scene_updateProgressBar (shotChargeProgress (charged dt g))]))
    with (withLog (shotChargeProgress (charged dt g))
                  (calls g ++ [Scene_updateProgressBar (shotChargeProgress (charged dt g))]) g).
  rewrite (idle_turns dt _ g Hwf Hrest).
  - unfold withLog. by rewrite <- app_assoc.
  - apply List.Forall_forall. intros i Hi. apply in_seq in Hi. lia.
Qed.


(** ** A shot, from press to release *)

Lemma wf_same {F : Type} {FA : FloatArith F} (g g' : Game F) :
  heap g' = heap g -> table g' = table g -> wf g -> wf g'.
Proof.
  intros Hh Ht [Hv Hi Hc Hm]. split; unfold slotsValid; rewrite ?Hh, ?Ht; auto.
Qed.

Lemma tableAtRest_same (g g' : Game R) :
  heap g' = heap g -> table g' = table g -> tableAtRest g -> tableAtRest g'.
Proof. intros Hh Ht H. unfold tableAtRest. rewrite Hh, Ht. exact H. Qed.

Lemma idle_frames (dts : list R) : forall g : Game R,
  wf g -> tableAtRest g ->
  exists g', runEvents (map EvUpdate dts) g = Some (tt, g') /\
    heap g' = heap g /\ table g' = table g.
Proof.
  induction dts as [|dt rest IH]; intros g Hwf Hrest.
  - exists g. auto.
  - pose proof (idle_update dt g Hwf Hrest) as Hup.
    set (g1 := mkGame _ _ _ _ _) in Hup.
    destruct (IH g1) as (g' & Hr & Hh & Ht).
    + by apply (wf_same g).
    + by apply (tableAtRest_same g).
    + exists g'. split; [|auto].
      cbn [map runEvents handle]. by rewrite (bind_eq _ _ _ _ _ Hup).
Qed.

Lemma runEvents_app {F : Type} {FA : FloatArith F} (evs1 evs2 : list (Event F)) (g : Game F) :
  runEvents (evs1 ++ evs2) g = bind (runEvents evs1) (fun _ => runEvents evs2) g.
Proof.
  revert g. induction evs1 as [|e rest IH]; intros g.
  - reflexivity.
  - cbn [app runEvents]. unfold bind.
    destruct (handle e g) as [[[] g1]|]; [|reflexivity]. rewrite IH. reflexivity.
Qed.

(** Press, charge over some frames, release, with the table at rest, read
    in the reals: the balls stay where they are while the shot is charged,
    and the release strikes the cue ball from its position towards the
    release point with the power min(total frame time / chargeTime, 1) *
    strikePower; nothing else in the store or the table changes, and the
    charge is reset.  The point of the press plays no role. *)
Theorem shot_from_rest (x0 y0 x y : R) (dts : list R) (g : Game R) (cue : BillBall R) :
  wf g -> tableAtRest g ->
  Forall (fun dt => 0 <= dt) dts ->
  shotChargeProgress g = 0 ->
  heap g !! ballToHit (table g) = Some cue ->
  let power := Rmin (totalTime dts / chargeTime) 1 * strikePower in
  let direction := mkVector2 (x - vx (position cue)) (y - vy (position cue)) in
  exists g',
    runEvents (EvMouseButtonPressed x0 y0 :: map EvUpdate dts ++ [EvMouseButtonReleased x y]) g
      = Some (tt, g') /\
    heap g' = <[ballToHit (table g) := strike direction power cue]> (heap g) /\
    table g' = table g /\
    isChargingShot g' = false /\ shotChargeProgress g' = 0.
Proof.
  intros Hwf Hrest Hnn Hp0 Hcue power direction.
  set (g0 := mkGame (heap g) (table g) true (shotChargeProgress g) (calls g)).
  assert (Hwf0 : wf g0) by (by apply (wf_same g)).
  assert (Hrest0 : tableAtRest g0) by (by apply (tableAtRest_same g)).
  destruct (idle_frames dts g0 Hwf0 Hrest0) as (g1 & Hr & Hh & Ht).
  destruct (charge_run dts g0 Hwf0 Hnn) as (g1' & Hr' & Hflag & Hprog).
  { cbn [g0 shotChargeProgress]. lra. }
  rewrite Hr in Hr'. inversion Hr'; subst g1'. clear Hr'.
  cbn [g0 isChargingShot shotChargeProgress heap table] in Hflag, Hprog, Hh, Ht.
  assert (Hcue1 : heap g1 !! ballToHit (table g1) = Some cue) by (by rewrite Hh, Ht).
  exists (released x y cue g1). split.
  - cbn [runEvents handle]. unfold mouseButtonPressed at 1. unfold bind at 1. fold g0.
    rewrite runEvents_app. rewrite (bind_eq _ _ _ _ _ Hr).
    cbn [runEvents handle]. by rewrite (bind_eq _ _ _ _ _ (mouseButtonReleased_eq x y cue g1 Hcue1)).
  - unfold released. cbn [heap table isChargingShot shotChargeProgress].
    rewrite Hh, Ht, Hprog, Hp0. unfold getPosition.
    split; [|split; [reflexivity|split; [reflexivity|real_arith; lra]]].
    subst power direction. real_arith. by rewrite Rplus_0_l.
Qed.

(** ** What the Scene is told *)

Lemma placesOf_none {F : Type} m (cs : list (Call F)) :
  Forall (fun c => isPlaceOf m c = false) cs -> placesOf m cs = [].
Proof.
  unfold placesOf. induction 1 as [|c cs Hc _ IH]; [reflexivity|].
  cbn [List.filter]. by rewrite Hc.
Qed.

(** Turns of other balls never place the mesh of a ball on the table. *)
Lemma others_do_not_place {F : Type} {FA : FloatArith F} idx i p b (g g' : Game F) :
  wf g -> billBalls (table g) !! i = Some (Some p) -> heap g !! p = Some b ->
  turnsPost idx g g' -> i ∉ idx ->
  Forall (fun c => isPlaceOf (gameMesh b) c = false) (newCalls g g').
Proof.
  intros Hwf Hs Hb Hp Hi.
  eapply List.Forall_impl; [|exact (tp_new _ _ _ Hp)].
  intros c (k & Hk & pk & bk & Hsk & Hbk & Hc).
  destruct Hc as [->|[(x & y & z & ->)|(l & q & -> & _)]]; try reflexivity.
  cbn [isPlaceOf]. apply Nat.eqb_neq. intros Hm.
  assert (pk = p) by (eapply (wf_mesh _ Hwf); eauto). subst pk.
  assert (k = i) by (eapply (wf_inj _ Hwf); eauto). congruence.
Qed.

(** After [update], every ball that is still on the table has been placed
    exactly once during the frame, and at the position it has at the end of
    the frame: what the Scene shows is where the balls are.  A ball captured
    during the frame is not placed at all. *)
Theorem placed_where_it_is (dt : R) (g : Game R) (i p : nat) :
  wf g ->
  billBalls (table g) !! i = Some (Some p) ->
  exists g' b',
    update dt g = Some (tt, g') /\ heap g' !! p = Some b' /\
    (billBalls (table g') !! i = Some (Some p) ->
     placesOf (gameMesh b') (newCalls g g') =
       [Scene_placeMesh (gameMesh b') (vx (position b')) (vy (position b')) (flit 0 1)]) /\
    (billBalls (table g') !! i = Some None ->
     placesOf (gameMesh b') (newCalls g g') = []).
Proof.
  intros Hwf Hs.
  destruct (live_turn_stages dt i p g Hwf Hs)
    as (g1 & g2 & g3 & b1 & Hb1 & Hp1 & Hwf1 & Hs1 & Hh1 & H2 & Hp2 & Hwf2 & Hp3
        & Hnot & Hup & Hwf3 & Hcalls).
  destruct (wf_valid _ Hwf _ _ Hs) as [b0 Hb0].
  assert (Hm1 : gameMesh b1 = gameMesh b0).
  { destruct (tp_keeps _ _ _ Hp1 p b0 Hb0) as (b1' & Hb1' & Hm & _).
    rewrite Hh1 in Hb1'. by inversion Hb1'; subst b1'. }
  assert (Hbefore : placesOf (gameMesh b1) (newCalls (charged dt g) g1) = []).
  { apply placesOf_none. rewrite Hm1.
    apply (others_do_not_place (seq 0 i) i p b0 (charged dt g) g1);
      auto using charged_wf, not_elem_of_seq_before. }
  assert (Hsplit : forall m, placesOf m (newCalls g g3) =
            placesOf m (newCalls (charged dt g) g1) ++ placesOf m (newCalls g1 g2)
              ++ placesOf m (newCalls g2 g3)).
  { intros m. rewrite Hcalls. unfold placesOf. cbn [List.filter isPlaceOf].
    by rewrite !List.filter_app. }
  destruct (existsb (atPocket (getNextPosition b1 dt)) pocketsPositions) eqn:Hat.
  - (* captured in its own turn *)
    rewrite (updateBall_captured pockets_exclusive_real dt i p b1 g1 Hs1 Hh1 Hat) in H2.
    inversion H2; subst g2. clear H2.
    assert (Hb2 : heap (captured i b1 g1) !! p = Some b1) by exact Hh1.
    destruct (tp_keeps _ _ _ Hp3 p b1 Hb2) as (b3 & Hb3 & Hm3 & _).
    assert (Hs3 : billBalls (table g3) !! i = Some None).
    { rewrite (tp_slots_other _ _ _ Hp3) by apply not_elem_of_seq_after.
      cbn [captured table billBalls]. apply list_lookup_insert_eq.
      eapply lookup_lt_Some; eauto. }
    exists g3, b3. split; [exact Hup|]. split; [exact Hb3|]. split.
    { intros Hlive. congruence. }
    intros _. rewrite Hsplit, Hm3, Hbefore. cbn [app].
    assert (H12 : newCalls g1 (captured i b1 g1) = [Scene_destroyMesh (getMesh b1)])
      by (by apply newCalls_app).
    rewrite H12. cbn. apply placesOf_none.
    eapply List.Forall_impl; [|exact (tp_new _ _ _ Hp3)].
    intros c (k & Hk & pk & bk & Hsk & Hbk & Hc).
    destruct Hc as [->|[(x & y & z & ->)|(l & q & -> & _)]]; try reflexivity.
    cbn [isPlaceOf]. apply Nat.eqb_neq. intros Hm.
    assert (pk = p) by (eapply (wf_mesh _ Hwf2); eauto). subst pk.
    cbn [captured table billBalls] in Hsk.
    apply elem_of_seq in Hk.
    rewrite list_lookup_insert_ne in Hsk by lia.
    assert (k = i) by (eapply (wf_inj _ Hwf1); eauto). lia.
  - (* not captured: placed at the end of its turn *)
    destruct (updateBall_free pockets_exclusive_real dt i p b1 g1 Hwf1 Hs1 Hh1 Hat)
      as (pos & gc & bc & _ & Hloop & Hbc & Hfree).
    rewrite Hfree in H2. inversion H2; subst g2. clear H2 Hfree.
    set (g2 := committed p pos bc gc) in *.
    assert (Hlt : (p < length (heap gc))%nat) by (eapply lookup_lt_Some; eauto).
    assert (Hb2 : heap g2 !! p = Some (setPosition pos bc)).
    { cbn [g2 committed heap]. by apply list_lookup_insert_eq. }
    assert (Hs2 : billBalls (table g2) !! i = Some (Some p)).
    { cbn [g2 committed table]. rewrite (lp_table _ _ _ _ _ _ _ Hloop). exact Hs1. }
    assert (Hmc : gameMesh bc = gameMesh b1).
    { assert (Hgb : heap (withHeap (<[p := afterBoundary (getNextPosition b1 dt) b1]>
                                      (heap g1)) g1) !! p
                    = Some (afterBoundary (getNextPosition b1 dt) b1)).
      { cbn [withHeap heap]. apply list_lookup_insert_eq. eapply lookup_lt_Some; eauto. }
      destruct (lp_keeps _ _ _ _ _ _ _ Hloop p _ Hgb) as (bc' & Hbc' & _ & Hm).
      rewrite Hbc in Hbc'. inversion Hbc'; subst bc'.
      rewrite Hm. apply afterBoundary_mesh. }
    destruct (tp_keeps _ _ _ Hp3 p _ Hb2) as (b3 & Hb3 & Hm3 & Hpos3).
    specialize (Hpos3 Hnot). cbn [setPosition gameMesh position] in Hm3, Hpos3.
    exists g3, b3. split; [exact Hup|]. split; [exact Hb3|]. split; cycle 1.
    { intros Hdead. rewrite (tp_slots_other _ _ _ Hp3) in Hdead
        by apply not_elem_of_seq_after. congruence. }
    intros _. rewrite Hsplit, Hm3, Hmc, Hbefore. cbn [app].
    assert (Hafter : placesOf (gameMesh b1) (newCalls g2 g3) = []).
    { apply placesOf_none. rewrite <- Hmc.
      apply (others_do_not_place (seq (S i) (length (billBalls (table g)) - S i))
               i p (setPosition pos bc) g2 g3);
        auto using not_elem_of_seq_after. }
    rewrite Hafter, List.app_nil_r.
    assert (H12 : newCalls g1 g2 =
              newCalls (withHeap (<[p := afterBoundary (getNextPosition b1 dt) b1]>
                                    (heap g1)) g1) gc
              ++ [Scene_placeMesh (gameMesh bc) (vx pos) (vy pos) (flit 0 1)]).
    { apply newCalls_app. cbn [g2 committed calls].
      rewrite (lp_calls _ _ _ _ _ _ _ Hloop). cbn [withHeap calls].
      by rewrite <- app_assoc. }
    rewrite H12. unfold placesOf. rewrite List.filter_app.
    fold (placesOf (gameMesh b1)
            (newCalls (withHeap (<[p := afterBoundary (getNextPosition b1 dt) b1]>
                                   (heap g1)) g1) gc)).
    rewrite placesOf_none; cycle 1.
    { eapply List.Forall_impl; [|exact (lp_new _ _ _ _ _ _ _ Hloop)].
      intros c (l & q & -> & _). reflexivity. }
    cbn [app List.filter isPlaceOf]. rewrite Hmc, Nat.eqb_refl.
    rewrite Hpos3. reflexivity.
Qed.

(** ** Free motion *)

(** A ball that is predicted out of range of every pocket, and that takes
    part in no collision during the frame, stays on the table and ends the
    frame with the speed friction leaves it and at its predicted position
    [position + speed] (reflected at the edges when that is out of bounds):
    the speed is a displacement per frame, [dt] plays no role. *)
Theorem free_ball_moves_by_speed (dt : R) (g : Game R) (i p : nat) (b : BillBall R) :
  wf g ->
  billBalls (table g) !! i = Some (Some p) ->
  heap g !! p = Some b ->
  let P := getNextPosition b dt in
  (forall pocketVector, In pocketVector pocketsPositions ->
     ~ distance P pocketVector < pocketRadius) ->
  exists g',
    update dt g = Some (tt, g') /\
    (Forall (fun c => ~ inCollision p c) (newCalls g g') ->
     billBalls (table g') !! i = Some (Some p) /\
     heap g' !! p = Some (setPosition (toMove P b) (afterBoundary P b)) /\
     (inTable P ->
      heap g' !! p = Some (mkBillBall P (speed (friction b)) (gameMesh b)))).
Proof.
  intros Hwf Hs Hb P Hpockets.
  destruct (live_turn_stages dt i p g Hwf Hs)
    as (g1 & g2 & g3 & b1 & Hb1 & Hp1 & Hwf1 & Hs1 & Hh1 & H2 & Hp2 & Hwf2 & Hp3
        & Hnot & Hup & Hwf3 & Hcalls).
  exists g3. split; [exact Hup|]. intros Hquiet.
  assert (Hq : forall c, inCollision p c ->
            (c ∉ newCalls (charged dt g) g1) /\ (c ∉ newCalls g1 g2) /\
            (c ∉ newCalls g2 g3)).
  { intros c Hc. rewrite Hcalls in Hquiet.
    apply List.Forall_cons_iff in Hquiet as [_ Hquiet].
    rewrite !Forall_app in Hquiet. destruct Hquiet as (Q1 & Q2 & Q3).
    rewrite List.Forall_forall in Q1, Q2, Q3.
    repeat split; intros Hin%list_elem_of_In; [eapply Q1|eapply Q2|eapply Q3]; eauto. }
  assert (Hh : heap g1 !! p = Some b).
  { rewrite (tp_other _ _ _ Hp1); [exact Hb| |].
    - apply (notInSlots_after _ [] i p (charged dt g) (charged dt g));
        auto using charged_wf, turnsPost_refl, not_elem_of_seq_before.
    - intros q. apply (Hq (PhysicEvents_collide q p)). cbn. auto. }
  rewrite Hh in Hh1. inversion Hh1; subst b1. clear Hh1.
  pose proof (own_turn_quiet pockets_exclusive_real dt i p b g1 g2 Hwf1 Hs1 Hh H2) as Hown.
  cbv zeta in Hown. fold P in Hown.
  assert (Hat : existsb (atPocket P) pocketsPositions = false)
    by (by apply no_pocket_in_range).
  specialize (Hown Hat).
  assert (Hb2 : heap g2 !! p = Some (setPosition (toMove P b) (afterBoundary P b))).
  { apply Hown. intros q. apply (Hq (PhysicEvents_collide p q)). cbn. auto. }
  assert (Hs2 : billBalls (table g2) !! i = Some (Some p)).
  { destruct (updateBall_free pockets_exclusive_real dt i p b g1 Hwf1 Hs1 Hh Hat)
      as (pos & gc & bc & _ & Hloop & _ & Hfree).
    rewrite Hfree in H2. inversion H2; subst g2.
    cbn [committed table]. rewrite (lp_table _ _ _ _ _ _ _ Hloop). exact Hs1. }
  assert (Hb3 : heap g3 !! p = Some (setPosition (toMove P b) (afterBoundary P b))).
  { rewrite (tp_other _ _ _ Hp3); [exact Hb2|exact Hnot|].
    intros q. apply (Hq (PhysicEvents_collide q p)). cbn. auto. }
  split; [|split; [exact Hb3|]].
  - rewrite (tp_slots_other _ _ _ Hp3) by apply not_elem_of_seq_after. exact Hs2.
  - intros Hin. rewrite Hb3. unfold toMove, afterBoundary.
    unfold inTable in Hin. rewrite Hin. unfold setPosition.
    rewrite Vector2_eta. by destruct (friction_keeps b) as [_ ->].
Qed.

(** ** A collision stops the move *)

(** Once the loop has reported a collision, the position it carries is the
    position of the current ball's object. *)
Lemma collisionLoop_blocked {F : Type} {FA : FloatArith F} i p ls :
  forall pos (g : Game F) b pos' g',
  slotsValid g -> heap g !! p = Some b ->
  Forall (fun l => (l < length (billBalls (table g)))%nat) ls ->
  collisionLoop i p ls pos g = Some (pos', g') ->
  newCalls g g' <> [] -> pos' = position b.
Proof.
  induction ls as [|l rest IH]; intros pos g b pos' g' Hv Hb Hr Hloop Hne.
  - cbn in Hloop. inversion Hloop; subst. exfalso. apply Hne.
    apply newCalls_app. by rewrite List.app_nil_r.
  - apply List.Forall_cons_iff in Hr as [Hl Hr].
    apply lookup_lt_is_Some in Hl as [s Hs].
    cbn [collisionLoop] in Hloop. rewrite (bind_eq _ _ _ _ _ (getSlot_eq _ _ _ Hs)) in Hloop.
    destruct s as [q|]; [|eapply IH; eauto].
    destruct (negb (l =? i)%nat) eqn:Hli; [|eapply IH; eauto].
    destruct (Hv _ _ Hs) as [bl Hbl].
    rewrite (bind_eq _ _ _ _ _ (deref_eq _ _ _ Hbl)) in Hloop.
    destruct (fle (distance pos (getPosition bl)) (fmul (flit 2 1) radius));
      [|eapply IH; eauto].
    rewrite (bind_eq _ _ _ _ _ (deref_eq _ _ _ Hb)) in Hloop.
    unfold call at 1 in Hloop. unfold bind at 1 in Hloop.
    pose proof (collide_eq p q
                  (mkGame (heap g) (table g) (isChargingShot g) (shotChargeProgress g)
                          (calls g ++ [PhysicEvents_collide p q]))) as Hc.
    cbn [heap table isChargingShot shotChargeProgress calls] in Hc.
    rewrite (bind_eq _ _ _ _ _ (Hc (ex_intro _ b Hb) (ex_intro _ bl Hbl))) in Hloop.
    clear Hc. set (g1 := mkGame _ _ _ _ _) in Hloop.
    assert (Hv1 : slotsValid g1).
    { intros l' q' Hq'. apply lookup_lt_is_Some. cbn [heap g1].
      rewrite collideHeap_length. apply lookup_lt_is_Some. eapply Hv, Hq'. }
    destruct (collideHeap_keeps p q p _ _ Hb) as (b1 & Hb1 & Hpos1 & _).
    destruct (collisionLoop_spec i p rest (getPosition b) g1 Hv1 (ex_intro _ b1 Hb1) Hr)
      as (pos2 & g2 & Hloop2 & Hpost).
    rewrite Hloop2 in Hloop. inversion Hloop; subst pos2 g2.
    destruct (lp_result _ _ _ _ _ _ _ Hpost) as [->|(b1' & Hb1' & ->)]; [reflexivity|].
    cbn [heap g1] in Hb1'. congruence.
Qed.

(** A ball that is not captured and that runs into another ball during its
    turn (lines 373-381) does not advance: it ends the frame where its
    object stood when the collision was found, that is where it was before
    the frame, or at the reflected position when it was predicted out of
    bounds. *)
Theorem collision_stops_the_move (dt : R) (g g1 : Game R) (i p q : nat) (b : BillBall R) :
  wf g ->
  billBalls (table g) !! i = Some (Some p) ->
  beforeTurn dt i g = Some (tt, g1) ->
  heap g1 !! p = Some b ->
  let P := getNextPosition b dt in
  exists g' b',
    update dt g = Some (tt, g') /\ heap g' !! p = Some b' /\
    (billBalls (table g') !! i = Some (Some p) ->
     PhysicEvents_collide p q ∈ newCalls g g' ->
     position b' = position (afterBoundary P b) /\
     (inTable P -> position b' = position b)).
Proof.
  intros Hwf Hs Hbefore Hb P.
  destruct (live_turn_stages dt i p g Hwf Hs)
    as (g1' & g2 & g3 & b1 & Hb1 & Hp1 & Hwf1 & Hs1 & Hh1 & H2 & Hp2 & Hwf2 & Hp3
        & Hnot & Hup & Hwf3 & Hcalls).
  rewrite Hbefore in Hb1. inversion Hb1; subst g1'. clear Hb1.
  rewrite Hb in Hh1. inversion Hh1; subst b1. clear Hh1.
  destruct (tp_keeps _ _ _ Hp2 p b Hb) as (b2 & Hb2 & _ & _).
  destruct (tp_keeps _ _ _ Hp3 p b2 Hb2) as (b3 & Hb3 & _ & Hpos3).
  specialize (Hpos3 Hnot).
  exists g3, b3. split; [exact Hup|]. split; [exact Hb3|]. intros Hlive Hhit.
  (* the collision was reported in the ball's own turn *)
  assert (Hother : forall idx (ga gb : Game R), wf ga ->
            billBalls (table ga) !! i = Some (Some p) ->
            turnsPost idx ga gb -> i ∉ idx -> PhysicEvents_collide p q ∉ newCalls ga gb).
  { intros idx ga gb Hwfa Hsa Hpa Hi Hin.
    pose proof (tp_new _ _ _ Hpa) as Hnew. rewrite List.Forall_forall in Hnew.
    apply list_elem_of_In in Hin.
    destruct (Hnew _ Hin) as (k & Hk & pk & bk & Hsk & _ & Hc).
    destruct Hc as [Hc|[(x & y & z & Hc)|(l & q' & Hc & _)]]; try discriminate.
    inversion Hc; subst pk q'.
    assert (k = i) by (eapply (wf_inj _ Hwfa); eauto). congruence. }
  assert (Hown : PhysicEvents_collide p q ∈ newCalls g1 g2).
  { rewrite Hcalls in Hhit. apply elem_of_cons in Hhit as [Hhit|Hhit]; [discriminate|].
    apply elem_of_app in Hhit as [Hhit|Hhit].
    { exfalso. revert Hhit. apply (Hother (seq 0 i) (charged dt g) g1);
        auto using charged_wf, not_elem_of_seq_before. }
    apply elem_of_app in Hhit as [Hhit|Hhit]; [exact Hhit|].
    exfalso. revert Hhit.
    apply (Hother (seq (S i) (length (billBalls (table g)) - S i)) g2 g3);
      auto using not_elem_of_seq_after.
    rewrite <- (tp_slots_other _ _ _ Hp3) by apply not_elem_of_seq_after. exact Hlive. }
  (* the ball was not captured *)
  destruct (existsb (atPocket P) pocketsPositions) eqn:Hat.
  { rewrite (updateBall_captured pockets_exclusive_real dt i p b g1 Hs1 Hb Hat) in H2.
    inversion H2; subst g2. exfalso.
    assert (H12 : newCalls g1 (captured i b g1) = [Scene_destroyMesh (getMesh b)])
      by (by apply newCalls_app).
    rewrite H12 in Hown. apply list_elem_of_singleton in Hown. discriminate. }
  destruct (updateBall_free pockets_exclusive_real dt i p b g1 Hwf1 Hs1 Hb Hat)
    as (pos & gc & bc & Hloop & Hpost & Hbc & Hfree).
  fold P in Hloop, Hpost, Hfree.
  rewrite Hfree in H2. inversion H2; subst g2. clear H2 Hfree.
  set (gb := withHeap (<[p := afterBoundary P b]> (heap g1)) g1) in *.
  assert (Hlt : (p < length (heap g1))%nat) by (eapply lookup_lt_Some; eauto).
  assert (Hgb : heap gb !! p = Some (afterBoundary P b)).
  { cbn [gb withHeap heap]. by apply list_lookup_insert_eq. }
  assert (Hpos : pos = position (afterBoundary P b)).
  { apply (collisionLoop_blocked i p (seq (S i) (length (billBalls (table g1)) - S i))
             (toMove P b) gb _ pos gc); auto.
    - intros l' q' Hq'. apply lookup_lt_is_Some. cbn [gb withHeap heap].
      rewrite length_insert. apply lookup_lt_is_Some. eapply (wf_valid _ Hwf1), Hq'.
    - apply List.Forall_forall. intros l Hl. apply in_seq in Hl.
      cbn [gb withHeap table]. lia.
    - intros Hnil.
      assert (H12 : newCalls g1 (committed p pos bc gc) =
                newCalls gb gc ++ [Scene_placeMesh (gameMesh bc) (vx pos) (vy pos) (flit 0 1)]).
      { apply newCalls_app. cbn [committed calls].
        rewrite (lp_calls _ _ _ _ _ _ _ Hpost). cbn [gb withHeap calls].
        by rewrite <- app_assoc. }
      rewrite H12, Hnil in Hown. apply list_elem_of_singleton in Hown. discriminate. }
  assert (Hfinal : position b3 = position (afterBoundary P b)).
  { rewrite Hpos3.
    assert (Hc2 : heap (committed p pos bc gc) !! p = Some (setPosition pos bc)).
    { cbn [committed heap]. apply list_lookup_insert_eq. eapply lookup_lt_Some; eauto. }
    rewrite Hc2 in Hb2. inversion Hb2; subst b2.
    cbn [setPosition position]. rewrite Vector2_eta. exact Hpos. }
  split; [exact Hfinal|].
  intros Hin. rewrite Hfinal. unfold afterBoundary. unfold inTable in Hin. rewrite Hin.
  apply friction_keeps.
Qed.

(** The pockets (lines 56-66) are far enough apart for the test of line 339
    to hold for at most one of them, whatever the position. *)
Theorem one_pocket_in_range_at_most (pos Q1 Q2 : Vector2 R) :
  In Q1 pocketsPositions -> In Q2 pocketsPositions ->
  distance pos Q1 < pocketRadius -> distance pos Q2 < pocketRadius ->
  Q1 = Q2.
Proof.
  intros H1 H2 D1 D2.
  apply list_elem_of_In, list_elem_of_lookup in H1 as [j1 H1].
  apply list_elem_of_In, list_elem_of_lookup in H2 as [j2 H2].
  assert (j1 = j2).
  { apply (pockets_exclusive_real pos j1 j2 Q1 Q2 H1 H2);
      unfold atPocket; real_arith; by apply bool_decide_eq_true. }
  congruence.
Qed.

(** The initial layout is a table at rest. *)
Lemma initialGame_atRest : tableAtRest (initialGame (F := R) (fun i => i)).
Proof.
  intros i p b Hs Hb.
  do 7 (try (destruct i as [|i]; [inversion Hs; subst p; inversion Hb; subst b|])).
  8: discriminate.
  all: split; [unfold atRest; scene; lra|].
  all: split; [rewrite inTable_real; scene; lra|].
  all: split; [far_from_pockets|].
  all: intros l q bq Hl Hsl Hbq;
    do 7 (try (destruct l as [|l]; [try lia;
             inversion Hsl; subst q; inversion Hbq; subst bq;
             unfold distance; scene; apply sqrt_not_le; lra|])); discriminate.
Qed.

(** ** The further statements at concrete inputs *)


(** The vector (3, 4), of length 5. *)
Lemma normalizedVector_unit_direction_witness :
  norm (normalizedVector (mkVector2 3 4)) = 1.
Proof.
  apply (normalizedVector_unit_direction (mkVector2 3 4)). left. cbn [vx]. lra.
Defined.

(** The projection of (1, 2) on the x axis. *)
Lemma vectorProjecction_orthogonal_witness :
  dot (vsub (mkVector2 1 2) (vectorProjecction (mkVector2 1 2) (mkVector2 3 0)))
      (mkVector2 3 0) = 0.
Proof.
  apply (vectorProjecction_orthogonal (mkVector2 1 2) (mkVector2 3 0)). left. cbn [vx]. lra.
Defined.

(** The two balls of [endGame]. *)
Lemma collide_conserves_momentum_energy_witness :
  exists g' b1' b2',
    collide 0 1 (endGame (F := R)) = Some (tt, g') /\
    heap g' !! 0%nat = Some b1' /\ heap g' !! 1%nat = Some b2' /\
    dot (speed b1') (speed b1') + dot (speed b2') (speed b2') =
      dot (speed endCue) (speed endCue) + dot (speed restBall) (speed restBall).
Proof.
  destruct (collide_conserves_momentum_energy endGame 0 1 endCue restBall)
    as (g' & b1' & b2' & Hc & H1 & H2 & _ & He & _).
  - lia.
  - reflexivity.
  - reflexivity.
  - left. unfold vsub, restBall. scene. lra.
  - exists g', b1', b2'. auto.
Defined.

Lemma collide_symmetric_witness :
  collide 1 0 (endGame (F := R)) = collide 0 1 endGame.
Proof.
  apply (collide_symmetric endGame 0 1 endCue restBall).
  - lia.
  - reflexivity.
  - reflexivity.
  - left. unfold vsub, restBall. scene. lra.
Defined.

Lemma collide_twice_restores_witness :
  bind (collide 0 1) (fun _ => collide 0 1) (endGame (F := R)) = Some (tt, endGame).
Proof.
  apply (collide_twice_restores endGame 0 1 endCue restBall).
  - lia.
  - reflexivity.
  - reflexivity.
  - left. unfold vsub, restBall. scene. lra.
Defined.

(** The cue ball of [edgeGame] at its predicted position, 0.3 beyond the
    right edge. *)
Lemma ricochet_mirrors_across_edge_witness :
  inTable (position (ricochet (setPosition (mkVector2 (75 / 10) 0) (edgeCue (F := R))))).
Proof.
  apply (ricochet_mirrors_across_edge (setPosition (mkVector2 (75 / 10) 0) edgeCue)).
  - unfold shallow, edgeCue. cbn [setPosition position vx vy]. params. lra.
  - unfold offX, offY, edgeCue. cbn [setPosition position vx vy]. params.
    decide_real. reflexivity.
Defined.

Lemma run_is_safe_witness :
  exists g',
    runEvents [EvMouseButtonPressed 0 0; EvUpdate (1 / 60); EvMouseButtonReleased 0 0]
              (initialGame (F := R) (fun i => i)) = Some (tt, g') /\ wf g'.
Proof.
  destruct (run_is_safe
              [EvMouseButtonPressed 0 0; EvUpdate (1 / 60); EvMouseButtonReleased 0 0]
              (initialGame (F := R) (fun i => i)))
    as (g' & Hr & Hwf & _).
  - apply wfb_sound. reflexivity.
  - exists g'. auto.
Defined.

(** Two frames of half a second on the fully charged layout. *)
Lemma charge_accumulates_witness :
  exists g',
    runEvents (map EvUpdate [1 / 2; 1 / 2]) (chargedGame (F := R)) = Some (tt, g') /\
    isChargingShot g' = true.
Proof.
  destruct (charge_accumulates [1 / 2; 1 / 2] (chargedGame (F := R)))
    as (g' & Hr & Hflag & _).
  - apply wfb_sound. reflexivity.
  - repeat constructor; lra.
  - unfold chargedGame. cbn [shotChargeProgress]. real_arith. lra.
  - exists g'. auto.
Defined.


(** A shot from the initial layout towards the centre of the table, charged
    over two frames of half a second. *)
Lemma shot_from_rest_witness :
  exists g',
    runEvents (EvMouseButtonPressed 0 0 :: map EvUpdate [1 / 2; 1 / 2]
                 ++ [EvMouseButtonReleased 0 0])
              (initialGame (F := R) (fun i => i)) = Some (tt, g') /\
    isChargingShot g' = false /\ shotChargeProgress g' = 0.
Proof.
  destruct (shot_from_rest 0 0 0 0 [1 / 2; 1 / 2] (initialGame (F := R) (fun i => i))
              (newBillBall (mkVector2 (- (3 / 10) * (15 / 1)) (0 / 1)) 0))
    as (g' & Hr & _ & _ & Hflag & Hprog).
  - apply wfb_sound. reflexivity.
  - exact initialGame_atRest.
  - repeat constructor; lra.
  - unfold initialGame. cbn [shotChargeProgress]. real_arith. lra.
  - reflexivity.
  - exists g'. auto.
Defined.

Lemma placed_where_it_is_witness :
  exists g' b',
    update (1 / 60) (initialGame (F := R) (fun i => i)) = Some (tt, g') /\
    heap g' !! 0%nat = Some b'.
Proof.
  destruct (placed_where_it_is (1 / 60) (initialGame (F := R) (fun i => i)) 0 0)
    as (g' & b' & Hup & Hb & _).
  - apply wfb_sound. reflexivity.
  - reflexivity.
  - exists g', b'. auto.
Defined.

(** The cue ball of [rollGame], rolling along y. *)
Lemma free_ball_moves_by_speed_witness :
  exists g', update (1 / 60) (rollGame (F := R)) = Some (tt, g').
Proof.
  destruct (free_ball_moves_by_speed (1 / 60) (rollGame (F := R)) 0 0 rollCue)
    as (g' & Hup & _).
  - apply wfb_sound. reflexivity.
  - reflexivity.
  - reflexivity.
  - unfold rollCue. far_from_pockets.
  - exists g'. exact Hup.
Defined.

(** The cue ball of [endGame], which runs into the ball of slot 1. *)
Lemma collision_stops_the_move_witness :
  exists g' b',
    update (1 / 60) (endGame (F := R)) = Some (tt, g') /\ heap g' !! 0%nat = Some b'.
Proof.
  destruct (collision_stops_the_move (1 / 60) endGame (charged (1 / 60) endGame) 0 0 1 endCue)
    as (g' & b' & Hup & Hb & _).
  - apply wfb_sound. reflexivity.
  - reflexivity.
  - reflexivity.
  - reflexivity.
  - exists g', b'. auto.
Defined.

(** The position (7.4, 3.9), in range of the upper right pocket. *)
Lemma one_pocket_in_range_at_most_witness :
  distance (mkVector2 (74 / 10) (39 / 10))
           (mkVector2 (5 / 10 * (15 / 1)) (5 / 10 * (8 / 1))) < pocketRadius /\
  mkVector2 (5 / 10 * (15 / 1)) (5 / 10 * (8 / 1)) =
  mkVector2 (5 / 10 * (15 / 1)) (5 / 10 * (8 / 1)).
Proof.
  assert (Hd : distance (mkVector2 (74 / 10) (39 / 10))
                 (mkVector2 (5 / 10 * (15 / 1)) (5 / 10 * (8 / 1))) < pocketRadius).
  { unfold distance. scene. apply sqrt_bound_lt; nra. }
  split; [exact Hd|].
  apply (one_pocket_in_range_at_most (mkVector2 (74 / 10) (39 / 10))); auto.
  - do 5 right. left. reflexivity.
  - do 5 right. left. reflexivity.
Defined.

Close Scope R_scope.

Module LifecycleFacts.
Import Lifecycle.

Section Facts.
Context {F : Type} {FA : FloatArith F}.
Variable createMesh : nat -> Mesh.

Lemma init_result (a : App F) :
  pockets a = replicate 6 None ->
  length (billBalls (table (game a))) = 7 ->
  let n := length (heap (game a)) in
  let k := created a in
  Game_init createMesh a =
  Some (tt, mkApp (mkGame (heap (game a) ++ newBalls createMesh (k + 6))
                          (mkTable (map (fun i => Some (n + i)) (seq 0 7)) n)
                          (isChargingShot (game a)) (shotChargeProgress (game a))
                          (calls (game a)))
                  (map (fun j => Some (createMesh (k + j))) (seq 0 6))
                  (k + 13)
                  (trace a ++ Engine_setTargetFPS 60 :: Scene_setupBackground width height
                     :: pocketCalls createMesh k ++ ballCalls createMesh (k + 6))).
Proof.
  destruct a as [[h [slots cue] c pr cs] pk k tr]. cbn [pockets game table billBalls heap created].
  intros -> Hlen. cbv zeta.
  do 8 (destruct slots as [|? slots]; try discriminate). clear Hlen.
  cbn. rewrite !length_app. cbn [length]. rewrite <- !app_assoc. cbn [app].
  unfold targetFPS.
  repeat (f_equal; try lia).
Qed.

(** [Game::init] on a table whose pocket entries are all null: the
    assertions pass; the Engine and the Scene are called in this order: the
    frame rate, the background, a create and a place per pocket, a create and
    a place per ball; seven new ball objects, at the layout positions and at
    rest, are added at the end of the store; slot i points to the i-th of
    them and [ballToHit] to the first, the one of slot 0; thirteen meshes
    have been created; the charge and the log of the frames are untouched. *)
Theorem init_builds_the_table (a : App F) :
  pockets a = replicate 6 None ->
  length (billBalls (table (game a))) = 7 ->
  let n := length (heap (game a)) in
  let k := created a in
  Game_init createMesh a =
  Some (tt, mkApp (mkGame (heap (game a) ++ newBalls createMesh (k + 6))
                          (mkTable (map (fun i => Some (n + i)) (seq 0 7)) n)
                          (isChargingShot (game a)) (shotChargeProgress (game a))
                          (calls (game a)))
                  (map (fun j => Some (createMesh (k + j))) (seq 0 6))
                  (k + 13)
                  (trace a ++ Engine_setTargetFPS 60 :: Scene_setupBackground width height
                     :: pocketCalls createMesh k ++ ballCalls createMesh (k + 6))).
Proof. exact (init_result a). Qed.

(** From the start of the program, [Game::init] builds the state the frames
    start from: [initialGame], with the meshes the Scene returned for the
    seventh to the thirteenth mesh it created. *)
Theorem init_from_start_is_initialGame :
  exists a',
    Game_init createMesh startApp = Some (tt, a') /\
    game a' = initialGame (fun i => createMesh (6 + i)).
Proof.
  pose proof (init_result startApp eq_refl eq_refl) as H. cbv zeta in H.
  eexists. split; [exact H|]. reflexivity.
Qed.

(** [Game::init] on a table one of whose pocket entries is not null, as
    after an [init] that no [deinit] followed, fails at the assertion of
    line 188. *)
Theorem init_asserts_null_pockets (a : App F) :
  length (pockets a) = 6 ->
  pockets a <> replicate 6 None ->
  Game_init createMesh a = None.
Proof.
  destruct a as [g pk k tr]. cbn [pockets]. intros Hlen Hne.
  do 7 (destruct pk as [|? pk]; try discriminate). clear Hlen.
  repeat match goal with s : option nat |- _ => destruct s end;
    try reflexivity.
  exfalso. by apply Hne.
Qed.

Lemma destroyAll_result (meshes : list (option Mesh)) : forall a : App F,
  destroyAll meshes a =
  Some (tt, mkApp (game a) (pockets a) (created a)
                  (trace a ++ map Scene_destroyMesh meshes)).
Proof.
  induction meshes as [|m rest IH]; intros a.
  - cbn. rewrite List.app_nil_r. by destruct a.
  - cbn [destroyAll]. unfold abind, logCall. rewrite IH.
    cbn [game pockets created trace map]. by rewrite <- app_assoc.
Qed.

Lemma deinit_result (a : App F) :
  Game_deinit a =
  Some (tt, mkApp (game a) ((fun _ => None) <$> pockets a) (created a)
                  (trace a ++ map Scene_destroyMesh (pockets a))).
Proof.
  unfold Game_deinit, Table_deinit, getPockets. unfold abind at 1.
  unfold abind. rewrite destroyAll_result. reflexivity.
Qed.

(** [Game::deinit] always goes through.  It hands the six pocket entries,
    null or not, to [Scene::destroyMesh], in order, and nulls them; it
    makes no other call and leaves the balls alone: no ball object is freed
    and no slot is nulled. *)
Theorem deinit_destroys_pockets_only (a : App F) :
  Game_deinit a =
  Some (tt, mkApp (game a) ((fun _ => None) <$> pockets a) (created a)
                  (trace a ++ map Scene_destroyMesh (pockets a))).
Proof. exact (deinit_result a). Qed.

(** [Game::deinit] followed by [Game::init] always goes through, whatever
    was played before: all seven slots, also those of captured balls, get
    new ball objects at the layout positions, at rest.  The objects of the
    game before stay in the store, with no slot pointing to them; the only
    [destroyMesh] calls are those for the six pocket entries. *)
Theorem deinit_then_init_resets (a : App F) :
  length (pockets a) = 6 ->
  length (billBalls (table (game a))) = 7 ->
  let n := length (heap (game a)) in
  let k := created a in
  abind Game_deinit (fun _ => Game_init createMesh) a =
  Some (tt, mkApp (mkGame (heap (game a) ++ newBalls createMesh (k + 6))
                          (mkTable (map (fun i => Some (n + i)) (seq 0 7)) n)
                          (isChargingShot (game a)) (shotChargeProgress (game a))
                          (calls (game a)))
                  (map (fun j => Some (createMesh (k + j))) (seq 0 6))
                  (k + 13)
                  (trace a ++ map Scene_destroyMesh (pockets a)
                     ++ Engine_setTargetFPS 60 :: Scene_setupBackground width height
                     :: pocketCalls createMesh k ++ ballCalls createMesh (k + 6))).
Proof.
  intros Hpk Hslots n k. unfold abind. rewrite deinit_result.
  rewrite init_result.
  - cbn [game pockets created trace]. by rewrite <- app_assoc.
  - cbn [pockets]. destruct a as [g pk k' tr]. cbn [pockets] in *.
    do 7 (destruct pk as [|? pk]; try discriminate). reflexivity.
  - exact Hslots.
Qed.

Lemma newBalls_lookup k i b :
  newBalls createMesh k !! i = Some b -> i < 7 /\ gameMesh b = createMesh (k + i).
Proof.
  unfold newBalls. rewrite list_lookup_imap. intros H.
  destruct (ballsPositions !! i) as [v|] eqn:Hv; [|discriminate].
  apply lookup_lt_Some in Hv. cbn in H. inversion H; subst b. split; [exact Hv|reflexivity].
Qed.

Lemma newBalls_length k : length (newBalls createMesh k) = 7.
Proof. unfold newBalls. by rewrite length_imap. Qed.

Lemma newSlots_lookup n l q :
  map (fun i => Some (n + i)) (seq 0 7) !! l = Some (Some q) -> l < 7 /\ q = n + l.
Proof.
  intros H. do 7 (destruct l as [|l]; [cbn in H; inversion H; lia|]). discriminate.
Qed.

(** When the Scene never returns the same handle twice, the state
    [Game::init] builds is well-formed: every slot holds a valid pointer,
    no two slots the same, [ballToHit] is valid, and no two objects of the
    store share a mesh (those of an earlier game included). *)
Theorem init_well_formed (a a' : App F) :
  (forall j1 j2, createMesh j1 = createMesh j2 -> j1 = j2) ->
  meshesCreated createMesh a ->
  (forall p q bp bq, heap (game a) !! p = Some bp -> heap (game a) !! q = Some bq ->
     gameMesh bp = gameMesh bq -> p = q) ->
  pockets a = replicate 6 None ->
  length (billBalls (table (game a))) = 7 ->
  Game_init createMesh a = Some (tt, a') ->
  wf (game a') /\ meshesCreated createMesh a'.
Proof.
  intros Hinj Hold Hdist Hpk Hslots Hinit.
  rewrite (init_result a Hpk Hslots) in Hinit. inversion Hinit; subst a'. clear Hinit.
  set (n := length (heap (game a))). set (k := created a).
  assert (Hlook : forall p b, (heap (game a) ++ newBalls createMesh (k + 6)) !! p = Some b ->
            (p < n /\ heap (game a) !! p = Some b) \/
            (n <= p /\ p < n + 7 /\ gameMesh b = createMesh (k + 6 + (p - n)))).
  { intros p b Hb. destruct (decide (p < n)) as [Hlt|Hge].
    - left. split; [exact Hlt|]. by rewrite lookup_app_l in Hb.
    - right. rewrite lookup_app_r in Hb by (fold n; lia).
      apply newBalls_lookup in Hb as [H7 Hm]. fold n in H7, Hm. repeat split; [lia..|exact Hm]. }
  split; [split|]; cbn [game heap table billBalls ballToHit created].
  - intros l q Hl. cbn [heap table billBalls] in *.
    apply lookup_lt_is_Some. rewrite length_app, newBalls_length. fold n.
    apply newSlots_lookup in Hl. lia.
  - intros i j p Hi Hj. apply newSlots_lookup in Hi, Hj. lia.
  - apply lookup_lt_is_Some. rewrite length_app, newBalls_length. fold n. lia.
  - intros p q bp bq Hp Hq Hm.
    destruct (Hlook p bp Hp) as [[Hp1 Hp2]|(Hp1 & Hp2 & Hp3)],
             (Hlook q bq Hq) as [[Hq1 Hq2]|(Hq1 & Hq2 & Hq3)].
    + eapply Hdist; eauto.
    + destruct (Hold p bp Hp2) as (j & Hj & Hmj). fold k in Hj.
      assert (j = k + 6 + (q - n)) by (apply Hinj; congruence). lia.
    + destruct (Hold q bq Hq2) as (j & Hj & Hmj). fold k in Hj.
      assert (j = k + 6 + (p - n)) by (apply Hinj; congruence). lia.
    + assert (k + 6 + (p - n) = k + 6 + (q - n)) by (apply Hinj; congruence). lia.
  - intros p b Hb. cbn [game heap created] in *.
    destruct (Hlook p b Hb) as [[Hp1 Hp2]|(Hp1 & Hp2 & Hp3)].
    + destruct (Hold p b Hp2) as (j & Hj & Hmj). exists j. fold k in Hj. split; [lia|exact Hmj].
    + exists (k + 6 + (p - n)). split; [lia|exact Hp3].
Qed.

End Facts.
End LifecycleFacts.

(** ** Start and end of the game at concrete inputs

    The Scene of these runs numbers its meshes from 0; the numbers are read
    in the real-number semantics. *)

Lemma init_builds_the_table_witness :
  exists a',
    Lifecycle.Game_init (F := R) (fun k => k) Lifecycle.startApp = Some (tt, a') /\
    Lifecycle.created a' = 13%nat.
Proof.
  eexists. split.
  - apply (LifecycleFacts.init_builds_the_table (F := R) (fun k => k) Lifecycle.startApp);
      reflexivity.
  - reflexivity.
Defined.

(** The state after a first [Game::init]. *)
Lemma init_asserts_null_pockets_witness :
  Lifecycle.Game_init (F := R) (fun k => k)
    (Lifecycle.mkApp (initialGame (fun i => 6 + i))
       (map Some (seq 0 6)) 13 []) = None.
Proof.
  apply (LifecycleFacts.init_asserts_null_pockets (F := R) (fun k => k)).
  - reflexivity.
  - discriminate.
Defined.

Lemma deinit_then_init_resets_witness :
  exists a',
    Lifecycle.abind Lifecycle.Game_deinit (fun _ => Lifecycle.Game_init (F := R) (fun k => k))
      (Lifecycle.mkApp (initialGame (fun i => 6 + i)) (map Some (seq 0 6)) 13 [])
    = Some (tt, a') /\
    Lifecycle.created a' = 26%nat.
Proof.
  eexists. split.
  - apply (LifecycleFacts.deinit_then_init_resets (F := R) (fun k => k)); reflexivity.
  - reflexivity.
Defined.

Lemma init_well_formed_witness :
  wf (initialGame (F := R) (fun i => 6 + i)).
Proof.
  pose proof (LifecycleFacts.init_result (F := R) (fun k => k) Lifecycle.startApp
                eq_refl eq_refl) as Hinit.
  cbv zeta in Hinit.
  refine (proj1 (LifecycleFacts.init_well_formed (F := R) (fun k => k) Lifecycle.startApp _
                   _ _ _ eq_refl eq_refl Hinit)).
  - intros j1 j2 H. exact H.
  - intros p b H. discriminate.
  - intros p q bp bq H. discriminate.
Defined.

(** * Single precision against the reals

    A statement read in the reals is not a statement about every
    single-precision run of the program.  These runs show where the two
    readings part; the runs that refute a claim as it was stated are with
    the claims above ([collide_underflow_binary32],
    [update_keeps_fast_speed_binary32], [strike_overflow_binary32],
    [release_near_cue_binary32]). *)

(** [distance] is zero between two distinct points 2^-100 apart: the square
    underflows. *)
Example distance_underflow_binary32 :
  let p := mkVector2 (flit (F := binary32) 0 1) (flit 0 1) in
  let q := mkVector2 (flit (F := binary32) 1 (2 ^ 100)) (flit 0 1) in
  feq (vx p) (vx q) = false /\ distance p q = flit 0 1.
Proof. vm_compute. auto. Qed.

(** [vectorProjecction] on a non-zero vector whose squared length underflows
    is not a multiple of that vector, and on one whose squared length
    overflows it is zero. *)
Example vectorProjecction_extremes_binary32 :
  let a := mkVector2 (flit (F := binary32) 1 1) (flit 0 1) in
  vectorProjecction a (mkVector2 (flit 1 (2 ^ 100)) (flit 0 1)) =
    mkVector2 (S754_infinity false) S754_nan /\
  vectorProjecction a (mkVector2 (flit (2 ^ 100) 1) (flit 1 1)) =
    mkVector2 (flit 0 1) (flit 0 1).
Proof. vm_compute. auto. Qed.

(** At the scale of the game [collide] depends on the order of its
    arguments, and a second [collide] does not undo the first: the results
    differ in the last digits. *)
Example collide_rounding_binary32 :
  let g := slantGame (F := binary32) in
  collide 1 0 g <> collide 0 1 g /\
  bind (collide 0 1) (fun _ => collide 0 1) g <> Some (tt, g).
Proof. vm_compute. split; discriminate. Qed.

(** After a press and sixty frames of 1/60 the charge progress is
    16777211 * 2^-24, below 1, where the sum of the frame times is 1. *)
Example charge_rounding_binary32 :
  match runEvents (EvMouseButtonPressed (flit 0 1) (flit 0 1)
                     :: repeat (EvUpdate (flit 1 60)) 60)
                  (initialGame (F := binary32) (fun i => i)) with
  | Some (_, g') =>
      shotChargeProgress g' = S754_finite false 16777211 (-24) /\
      flt (shotChargeProgress g') (flit 1 1) = true
  | None => False
  end.
Proof. vm_compute. auto. Qed.
